(** * go-spring: the bean-assembly core of [spring-context-default.go]

    A shallow embedding of the IoC container's resolution engine
    (package [SpringCore]): the bean cache, the wiring stack, the resolver
    ([wireBeanDefinition], [getBeanValue], [collectBeans], ...) and the
    context operations ([resolveBean], [FindBean], [AutoWireBeans], ...).

    Go pointers are addresses into explicit stores kept in the state; a
    panic is an outcome of the state monad [M], which keeps the state
    reached at the point of the panic. *)

From stdpp Require Import base option list gmap strings pretty sorting.
From Stdlib Require Import ZArith Ascii.

(** ** Runtime types ([reflect.Type]) *)

Inductive Kind :=
| KInvalid | KBasic | KStruct | KInterface | KFunc | KPtr | KSlice | KMap.

Inductive rtype :=
| TBasic (name : string)          (* bool, int, string, ... *)
| TStruct (name : string)
| TInterface (name : string)
| TFunc (sig : string)
| TPtr (elem : rtype)
| TSlice (elem : rtype)
| TMap (key elem : rtype).

Global Instance rtype_eq_dec : EqDecision rtype.
Proof. solve_decision. Defined.

Fixpoint rtype_encode (t : rtype) : gen_tree string :=
  match t with
  | TBasic n => GenNode 0 [GenLeaf n]
  | TStruct n => GenNode 1 [GenLeaf n]
  | TInterface n => GenNode 2 [GenLeaf n]
  | TFunc n => GenNode 3 [GenLeaf n]
  | TPtr e => GenNode 4 [rtype_encode e]
  | TSlice e => GenNode 5 [rtype_encode e]
  | TMap k e => GenNode 6 [rtype_encode k; rtype_encode e]
  end.

Fixpoint rtype_decode (g : gen_tree string) : rtype :=
  match g with
  | GenNode 0 [GenLeaf n] => TBasic n
  | GenNode 1 [GenLeaf n] => TStruct n
  | GenNode 2 [GenLeaf n] => TInterface n
  | GenNode 3 [GenLeaf n] => TFunc n
  | GenNode 4 [e] => TPtr (rtype_decode e)
  | GenNode 5 [e] => TSlice (rtype_decode e)
  | GenNode 6 [k; e] => TMap (rtype_decode k) (rtype_decode e)
  | _ => TBasic ""
  end.

Lemma rtype_decode_encode t : rtype_decode (rtype_encode t) = t.
Proof. induction t; simpl; congruence. Qed.

Global Instance rtype_countable : Countable rtype :=
  inj_countable' rtype_encode rtype_decode rtype_decode_encode.

(** [t.Kind()] *)
Definition rKind (t : rtype) : Kind :=
  match t with
  | TBasic _ => KBasic
  | TStruct _ => KStruct
  | TInterface _ => KInterface
  | TFunc _ => KFunc
  | TPtr _ => KPtr
  | TSlice _ => KSlice
  | TMap _ _ => KMap
  end.

Global Instance Kind_eq_dec : EqDecision Kind.
Proof. solve_decision. Defined.

(** [t.Elem()]; [None] where reflect panics. *)
Definition rElem (t : rtype) : option rtype :=
  match t with
  | TPtr e | TSlice e | TMap _ e => Some e
  | _ => None
  end.

(** [t.String()] *)
Fixpoint rtype_String (t : rtype) : string :=
  match t with
  | TBasic n | TStruct n | TInterface n | TFunc n => n
  | TPtr e => "*" +:+ rtype_String e
  | TSlice e => "[]" +:+ rtype_String e
  | TMap k e => "map[" +:+ rtype_String k +:+ "]" +:+ rtype_String e
  end.

(** Modelled from the spec: [IsRefType] is declared outside this file.
    The spec calls the accepted targets "abstract-interface or
    pointer-like" slots: the reference kinds of Go. *)
Definition IsRefType (k : Kind) : bool :=
  match k with
  | KInterface | KFunc | KPtr | KSlice | KMap => true
  | _ => false
  end.

(** ** Values ([reflect.Value]) and the object store *)

Definition addr := nat.

(** A non-nil value of a pointer, slice or struct type is identified with
    the address of the storage it points to, is backed by, or lives in:
    the store maps that address to the struct's field cells, the slice's
    elements, or the single cell of a variable. *)
Inductive value :=
| VInvalid                          (* the zero reflect.Value *)
| VNil (t : rtype)                  (* the nil value of a reference type *)
| VRef (t : rtype) (a : addr)
| VIface (t : rtype) (v : value)    (* a non-nil interface holding v *)
| VBasic (t : rtype) (z : Z).

Global Instance value_eq_dec : EqDecision value.
Proof. solve_decision. Defined.

Definition vKind (v : value) : Kind :=
  match v with
  | VInvalid => KInvalid
  | VNil t | VRef t _ | VIface t _ | VBasic t _ => rKind t
  end.

Definition vType (v : value) : option rtype :=
  match v with
  | VInvalid => None
  | VNil t | VRef t _ | VIface t _ | VBasic t _ => Some t
  end.

(** [v.Interface() == nil]: only a nil value of interface kind converts to
    the nil interface; a nil pointer, slice, map or func converts to an
    interface that carries its type and so differs from nil. *)
Definition Interface_isNil (v : value) : bool :=
  match v with
  | VNil (TInterface _) => true
  | _ => false
  end.

(** A settable location ([reflect.Value] obtained by [Field(i)] or
    [reflect.New(t).Elem()]): cell [slot_idx] of the object at
    [slot_addr]. [slot_canset] is [CanSet()]. *)
Record slot := Slot {
  slot_addr : addr;
  slot_idx : nat;
  slot_type : rtype;
  slot_canset : bool
}.

(** ** Bean definitions *)

Inductive beanStatus :=
| beanStatus_Default
| beanStatus_Resolving
| beanStatus_Resolved
| beanStatus_Wiring
| beanStatus_Wired
| beanStatus_Deleted.

Global Instance beanStatus_eq_dec : EqDecision beanStatus.
Proof. solve_decision. Defined.

(** Modelled from the spec: the numeric values of the [beanStatus]
    constants are declared outside this file; the spec orders the state
    machine Default, Resolving, Resolved, Wiring, Wired, with Deleted
    apart. [resolveBean] compares with [>]. *)
Definition status_ord (st : beanStatus) : nat :=
  match st with
  | beanStatus_Default => 0
  | beanStatus_Resolving => 1
  | beanStatus_Resolved => 2
  | beanStatus_Wiring => 3
  | beanStatus_Wired => 4
  | beanStatus_Deleted => 5
  end.

(** A selector ([interface{}]) as [FindBean] and [RegisterMethodBean]
    take it. *)
Inductive Selector :=
| SelNil
| SelString (s : string)
| SelBean (bd : addr)
| SelType (t : rtype).

(** A Go function as [reflect.Value.Call] sees it. *)
Definition gofunc := list value → list value.

(** Modelled from the spec: the argument list of a function bean
    ([bean.arg], declared outside this file): each parameter is filled by
    value binding or by bean injection. *)
Inductive fnArg :=
| ArgValue (t : rtype) (tag : string)
| ArgBean (t : rtype) (beanId : string).

Record functionBean := FunctionBean {
  fb_rType : rtype;
  fb_rValue : value;
  fb_arg : list fnArg
}.

(** The provider of a bean. *)
Inductive springBean :=
| objectBean (rValue : value)
| constructorBean (fb : functionBean) (fn : gofunc)
| methodBean (fb : functionBean) (parent : addr) (method : string)
| fakeMethodBean (selector : Selector) (method : string) (tags : list fnArg).

(** Modelled from the spec: [BeanDefinition] is declared outside this
    file; the fields are those of the spec's data model. *)
Record BeanDefinition := mkBD {
  bean : springBean;
  name : string;
  status : beanStatus;
  primary : bool;
  dependsOn : list Selector;
  exports : list rtype;
  init : bool;                (* an init callback is set *)
  destroy : bool;
  file : string;
  line : Z
}.

Definition bd_set_status (st : beanStatus) (d : BeanDefinition) :=
  mkBD (bean d) (name d) st (primary d) (dependsOn d) (exports d)
       (init d) (destroy d) (file d) (line d).

Definition bd_set_bean (b : springBean) (d : BeanDefinition) :=
  mkBD b (name d) (status d) (primary d) (dependsOn d) (exports d)
       (init d) (destroy d) (file d) (line d).

Definition bd_set_name (n : string) (d : BeanDefinition) :=
  mkBD (bean d) n (status d) (primary d) (dependsOn d) (exports d)
       (init d) (destroy d) (file d) (line d).

Definition bd_set_site (f : string) (l : Z) (d : BeanDefinition) :=
  mkBD (bean d) (name d) (status d) (primary d) (dependsOn d) (exports d)
       (init d) (destroy d) f l.

(** [bean.Type()] *)
Definition springBean_Type (b : springBean) : option rtype :=
  match b with
  | objectBean v => vType v
  | constructorBean fb _ | methodBean fb _ _ => Some (fb_rType fb)
  | fakeMethodBean _ _ _ => None
  end.

(** [bean.Value()] *)
Definition springBean_Value (b : springBean) : value :=
  match b with
  | objectBean v => v
  | constructorBean fb _ | methodBean fb _ _ => fb_rValue fb
  | fakeMethodBean _ _ _ => VInvalid
  end.

Definition isObjectBean (b : springBean) : bool :=
  match b with objectBean _ => true | _ => false end.

(** The three implementations of [IBeanDefinition]. *)
Inductive IBeanDefinition :=
| IBean (bd : addr)
| IField (bd : addr) (field : string)           (* fieldBeanDefinition *)
| IDelegate (bd : addr) (delegate : IBeanDefinition).

Definition ibd (i : IBeanDefinition) : addr :=
  match i with IBean a | IField a _ | IDelegate a _ => a end.

Definition beanKey : Type := rtype * string.

Inductive WiringEvent := WiringEvent_Push | WiringEvent_Pop.

Inductive ContextEvent :=
| ContextEvent_ResolveStart | ContextEvent_ResolveEnd
| ContextEvent_AutoWireStart | ContextEvent_AutoWireEnd
| ContextEvent_CloseStart | ContextEvent_CloseEnd.

(** ** Errors and events *)

(** One constructor per panic site, carrying the arguments of the
    source's message. The comment gives the message. *)
Inductive error :=
| InvalidStateError (beanId : string)
    (* bean: "%s" have been deleted *)
| CircularDependencyError
    (* found circle autowire *)
| DependsOnNotFoundError (selector : Selector)
    (* can't find bean: "%v" *)
| UnknownBeanTypeError
    (* unknown spring bean type *)
| ConstructorError (caller : string) (err : value)
    (* function bean: "%s" return error: %v *)
| NilBeanError (caller : string)
    (* function bean: "%s" return nil *)
| InvalidTargetError (beanId field : string)
    (* receiver must be ref type, bean: "%s" field: %s *)
| BeanNotFoundError (beanId field : string) (t : rtype)
    (* can't find bean, bean: "%s" field: %s type: %s *)
| AmbiguousPrimaryError (beanId field : string) (t : rtype)
                        (descriptions : list string)
    (* found %d primary beans, bean: "%s" field: %s type: %s [...] *)
| AmbiguousBeanError (beanId field : string) (t : rtype)
                     (descriptions : list string)
    (* found %d beans, bean: "%s" field: %s type: %s [...] *)
| NotSliceError (field : string)
    (* field: %s should be slice *)
| CollectNotFoundError (beanId field : string)
    (* can't find bean: "%s" field: %s *)
| NotYetWiredError
    (* should call after ctx.AutoWireBeans() *)
| RegistrationFrozenError
    (* bean registration have been frozen *)
| DuplicateBeanError (beanId : string)
    (* duplicate registration, bean: "%s" *)
| SelectorEmptyError
    (* selector can't be nil or empty *)
| NotPointerError (msg : string)
    (* i must be pointer / i must be slice ptr *)
| FindAmbiguousError (selector : Selector) (descriptions : list string)
    (* found %d beans, bean: "%v" [...] *)
| ExportMismatchError (description : string) (t : rtype)
    (* %s not implement %s interface *)
| AlreadyWiredError
    (* ctx.AutoWireBeans() already called *)
| ParentNotFoundError (selector : string)
    (* can't find parent bean: "%s" *)
| ParentAmbiguousError (n : nat) (selector : string)
    (* found %d parent bean: "%s" *)
| BindError (field tag : string)
    (* raised by the property-binding collaborator *)
| RuntimePanic (msg : string).
    (* raised by reflect or by the Go runtime *)

Inductive event :=
| EvWatch (w : nat) (bd : IBeanDefinition) (e : WiringEvent)
| EvNotify (e : ContextEvent)
| EvInit (bd : addr) (v : value)
| EvDestroy (bd : addr) (v : value)
| EvLogError (e : error) (path : string)
| EvCancel.

(** ** The state: the stores behind the pointers, the context, and the
    wiring stack of the bean assembly in use *)

Record state := mkState {
  next : addr;                               (* next free address *)
  beans : gmap addr BeanDefinition;          (* *BeanDefinition *)
  items : gmap addr (list addr);             (* *beanCacheItem: its beans *)
  cells : gmap addr (list value);            (* struct fields, variables *)
  arrays : gmap addr (list value);           (* slice elements *)
  (* defaultSpringContext *)
  autoWired : bool;
  allAccess : bool;
  hasEventNotify : bool;
  beanMap : gmap beanKey addr;
  beanCache : gmap rtype addr;
  methodBeans : list addr;
  Sort : bool;
  (* defaultBeanAssembly.wiringStack *)
  wiringStack : list IBeanDefinition;
  watcher : nat;                             (* number of watchers *)
  (* what the collaborators were called with, in order *)
  trace : list event
}.

Definition set_next f s := mkState (f (next s)) (beans s) (items s) (cells s) (arrays s) (autoWired s) (allAccess s) (hasEventNotify s) (beanMap s) (beanCache s) (methodBeans s) (Sort s) (wiringStack s) (watcher s) (trace s).
Definition set_beans f s := mkState (next s) (f (beans s)) (items s) (cells s) (arrays s) (autoWired s) (allAccess s) (hasEventNotify s) (beanMap s) (beanCache s) (methodBeans s) (Sort s) (wiringStack s) (watcher s) (trace s).
Definition set_items f s := mkState (next s) (beans s) (f (items s)) (cells s) (arrays s) (autoWired s) (allAccess s) (hasEventNotify s) (beanMap s) (beanCache s) (methodBeans s) (Sort s) (wiringStack s) (watcher s) (trace s).
Definition set_cells f s := mkState (next s) (beans s) (items s) (f (cells s)) (arrays s) (autoWired s) (allAccess s) (hasEventNotify s) (beanMap s) (beanCache s) (methodBeans s) (Sort s) (wiringStack s) (watcher s) (trace s).
Definition set_arrays f s := mkState (next s) (beans s) (items s) (cells s) (f (arrays s)) (autoWired s) (allAccess s) (hasEventNotify s) (beanMap s) (beanCache s) (methodBeans s) (Sort s) (wiringStack s) (watcher s) (trace s).
Definition set_autoWired b s := mkState (next s) (beans s) (items s) (cells s) (arrays s) b (allAccess s) (hasEventNotify s) (beanMap s) (beanCache s) (methodBeans s) (Sort s) (wiringStack s) (watcher s) (trace s).
Definition set_allAccess b s := mkState (next s) (beans s) (items s) (cells s) (arrays s) (autoWired s) b (hasEventNotify s) (beanMap s) (beanCache s) (methodBeans s) (Sort s) (wiringStack s) (watcher s) (trace s).
Definition set_hasEventNotify b s := mkState (next s) (beans s) (items s) (cells s) (arrays s) (autoWired s) (allAccess s) b (beanMap s) (beanCache s) (methodBeans s) (Sort s) (wiringStack s) (watcher s) (trace s).
Definition set_Sort b s := mkState (next s) (beans s) (items s) (cells s) (arrays s) (autoWired s) (allAccess s) (hasEventNotify s) (beanMap s) (beanCache s) (methodBeans s) b (wiringStack s) (watcher s) (trace s).
Definition set_beanMap f s := mkState (next s) (beans s) (items s) (cells s) (arrays s) (autoWired s) (allAccess s) (hasEventNotify s) (f (beanMap s)) (beanCache s) (methodBeans s) (Sort s) (wiringStack s) (watcher s) (trace s).
Definition set_beanCache f s := mkState (next s) (beans s) (items s) (cells s) (arrays s) (autoWired s) (allAccess s) (hasEventNotify s) (beanMap s) (f (beanCache s)) (methodBeans s) (Sort s) (wiringStack s) (watcher s) (trace s).
Definition set_methodBeans f s := mkState (next s) (beans s) (items s) (cells s) (arrays s) (autoWired s) (allAccess s) (hasEventNotify s) (beanMap s) (beanCache s) (f (methodBeans s)) (Sort s) (wiringStack s) (watcher s) (trace s).
Definition set_wiringStack f s := mkState (next s) (beans s) (items s) (cells s) (arrays s) (autoWired s) (allAccess s) (hasEventNotify s) (beanMap s) (beanCache s) (methodBeans s) (Sort s) (f (wiringStack s)) (watcher s) (trace s).
Definition set_watcher n s := mkState (next s) (beans s) (items s) (cells s) (arrays s) (autoWired s) (allAccess s) (hasEventNotify s) (beanMap s) (beanCache s) (methodBeans s) (Sort s) (wiringStack s) n (trace s).
Definition set_trace f s := mkState (next s) (beans s) (items s) (cells s) (arrays s) (autoWired s) (allAccess s) (hasEventNotify s) (beanMap s) (beanCache s) (methodBeans s) (Sort s) (wiringStack s) (watcher s) (f (trace s)).

(** [NewDefaultSpringContext] *)
Definition NewDefaultSpringContext : state :=
  mkState 0 ∅ ∅ ∅ ∅ false false false ∅ ∅ [] false [] 0 [].

(** ** The monad: state, panics, and fuel for the recursion *)

Inductive outcome (A : Type) :=
| Ok (a : A)
| Panic (e : error)
| OutOfFuel.
Arguments Ok {A} a.
Arguments Panic {A} e.
Arguments OutOfFuel {A}.

Definition M (A : Type) : Type := state → outcome A * state.

Definition ret {A} (a : A) : M A := λ s, (Ok a, s).

Definition bind {A B} (m : M A) (f : A → M B) : M B :=
  λ s, match m s with
       | (Ok a, s') => f a s'
       | (Panic e, s') => (Panic e, s')
       | (OutOfFuel, s') => (OutOfFuel, s')
       end.

Definition panic {A} (e : error) : M A := λ s, (Panic e, s).
Definition outOfFuel {A} : M A := λ s, (OutOfFuel, s).
Definition gets {A} (f : state → A) : M A := λ s, (Ok (f s), s).
Definition modify (f : state → state) : M unit := λ s, (Ok tt, f s).

Declare Scope go_scope.
Delimit Scope go_scope with go.
Notation "x <- m ;; k" := (bind m (λ x, k))
  (at level 100, m at next level, right associativity) : go_scope.
Notation "m ;; k" := (bind m (λ _, k))
  (at level 100, right associativity) : go_scope.
Open Scope go_scope.

(** [for _, x := range l { f x }] over a slice. *)
Fixpoint forM_ {A} (l : list A) (f : A → M unit) : M unit :=
  match l with
  | [] => ret tt
  | x :: l' => f x ;; forM_ l' f
  end.

(** A loop that threads an accumulator. *)
Fixpoint foldM {A B} (f : B → A → M B) (b : B) (l : list A) : M B :=
  match l with
  | [] => ret b
  | x :: l' => b' <- f b x ;; foldM f b' l'
  end.

Definition when (b : bool) (m : M unit) : M unit := if b then m else ret tt.

(** [nil] dereferences and failed type assertions panic in Go. *)
Definition the {A} (o : option A) (msg : string) : M A :=
  match o with
  | Some a => ret a
  | None => panic (RuntimePanic msg)
  end.

Definition emit (e : event) : M unit := modify (set_trace (λ t, t ++ [e])).

(** [new(T)]: take the next free address. *)
Definition fresh : M addr :=
  a <- gets next ;; modify (set_next S) ;; ret a.

(** ** Strings *)

(** [s[len(s)-1]] *)
Fixpoint string_last (s : string) : option ascii :=
  match s with
  | EmptyString => None
  | String c EmptyString => Some c
  | String _ s' => string_last s'
  end.

(** [s[:len(s)-1]] *)
Fixpoint string_init (s : string) : string :=
  match s with
  | EmptyString => EmptyString
  | String c EmptyString => EmptyString
  | String c s' => String c (string_init s')
  end.

Definition string_concat (l : list string) : string :=
  foldr String.append EmptyString l.

(** ** What the program's types and collaborators provide *)

(** [reflect.StructField], with the two tags the resolver looks up. *)
Record StructField := mkField {
  f_Name : string;
  f_Type : rtype;
  f_value : option string;       (* Tag.Lookup("value") *)
  f_autowire : option string;    (* Tag.Lookup("autowire") *)
  f_exported : bool
}.

(** The declarations of the user's program (struct fields, method sets,
    methods), the external collaborators (property binding, conditions),
    the helpers of [BeanDefinition] declared outside this file, and the
    order in which Go ranges over the bean map. *)
Record Env := mkEnv {
  structFields : string → list StructField;
  Implements : rtype → rtype → bool;
  MethodByName : value → string → option gofunc;
  methodOut : rtype → string → option rtype;   (* the method's first result type *)
  bindStructField : rtype → string → string → option value;
  Matches : state → addr → bool;
  mapRange : gmap beanKey addr → list (beanKey * addr);
  TypeName : rtype → string;
  splitBeanId : string → string * string;
  BeanId : BeanDefinition → string;
  Description : BeanDefinition → string;
  beanClass : springBean → string;
  Caller : BeanDefinition → string
}.

Section Core.

Context (E : Env).

(** [t.AssignableTo(u)] *)
Definition AssignableTo (t u : rtype) : bool :=
  bool_decide (t = u) || (bool_decide (rKind u = KInterface) && Implements E t u).

(** Modelled from the spec: [ParseBeanId] is declared outside this file.
    "A selector string may end in a marker making not-found non-fatal":
    the marker is the ['?'] that [GetBeanByName] appends; the rest splits
    into type name and bean name. *)
Definition ParseBeanId (beanId : string) : string * string * bool :=
  let nullable := bool_decide (string_last beanId = Some "?"%char) in
  let body := if nullable then string_init beanId else beanId in
  (splitBeanId E body, nullable).

(** Modelled from the spec: [BeanDefinition.Match] is declared outside
    this file. "An empty typeName matches any type; an empty beanName
    matches any name." *)
Definition Match (d : BeanDefinition) (typeName beanName : string) : bool :=
  let typeIsSame :=
    bool_decide (typeName = "") ||
    match springBean_Type (bean d) with
    | Some t => bool_decide (TypeName E t = typeName)
    | None => false
    end in
  let nameIsSame := bool_decide (beanName = "") || bool_decide (name d = beanName) in
  typeIsSame && nameIsSame.

(** *** Stores *)

Definition getBD (a : addr) : M BeanDefinition :=
  d <- gets (λ s, beans s !! a) ;; the d "nil pointer dereference".

Definition BD_Type (d : BeanDefinition) : M rtype :=
  the (springBean_Type (bean d)) "nil pointer dereference".

Definition setStatus (a : addr) (st : beanStatus) : M unit :=
  modify (set_beans (alter (bd_set_status st) a)).

Definition newBD (d : BeanDefinition) : M addr :=
  a <- fresh ;; modify (set_beans <[a := d]>) ;; ret a.

(** *** beanCacheItem *)

Definition newBeanCacheItem : M addr :=
  c <- fresh ;; modify (set_items <[c := []]>) ;; ret c.

Definition beanCacheItem_store (item : addr) (t : rtype) (bd : addr) : M unit :=
  modify (set_items (alter (λ l, l ++ [bd]) item)).

(** [item.beans]; an item handed out by [newBeanCacheItem] is always in
    the store. *)
Definition beanCacheItem_beans (item : addr) : M (list addr) :=
  gets (λ s, default [] (items s !! item)).

(** *** wiringStack *)

Definition notifyWatchers (bd : IBeanDefinition) (ev : WiringEvent) : M unit :=
  n <- gets watcher ;;
  forM_ (seq 0 n) (λ w, emit (EvWatch w bd ev)).

Definition pushBack (bd : IBeanDefinition) : M unit :=
  modify (set_wiringStack (λ st, st ++ [bd])) ;;
  notifyWatchers bd WiringEvent_Push.

Definition popBack : M unit :=
  st <- gets wiringStack ;;
  e <- the (last st) "nil pointer dereference" ;;
  modify (set_wiringStack (λ st, removelast st)) ;;
  notifyWatchers e WiringEvent_Pop.

(** [IBeanDefinition.Description()] for the three implementations. *)
Definition IBeanDefinition_Description (s : state) (i : IBeanDefinition) : string :=
  match beans s !! ibd i with
  | None => ""
  | Some d =>
    match i with
    | IBean _ => Description E d
    | IField _ field =>
        beanClass E (bean d) +:+ " field: " +:+ field +:+ " " +:+ Caller E d
    | IDelegate _ delegate =>
        match beans s !! ibd delegate with
        | Some dd => beanClass E (bean dd) +:+ " value " +:+ Caller E dd
        | None => ""
        end
    end
  end.

Definition newline : string := String (ascii_of_nat 10) EmptyString.

(** [wiringStack.path]: one line ["=> description ↩\n"] per frame, front
    to back, without the last byte. On an empty stack the slice
    expression [path[:len(path)-1]] panics. *)
Definition wiringStack_path : M string :=
  s <- gets id ;;
  let path := string_concat
    (map (λ w, "=> " +:+ IBeanDefinition_Description s w +:+ " ↩" +:+ newline)
         (wiringStack s)) in
  if bool_decide (path = "") then
    panic (RuntimePanic "slice bounds out of range [:-1]")
  else ret (string_init path).

(** [newDefaultBeanAssembly]: the bean assembly shares the context's
    cache and starts with an empty wiring stack; without watchers the
    default (logging) watcher is installed. *)
Definition newDefaultBeanAssembly (watchers : nat) : M unit :=
  modify (set_wiringStack (λ _, [])) ;;
  modify (set_watcher (if decide (watchers = 0) then 1 else watchers)).

(** *** Bean cache *)

(** [beanAssembly.getCacheItem]: the item of the type, or a new item that
    is not put into the cache. *)
Definition getCacheItem (t : rtype) : M addr :=
  c <- gets (λ s, beanCache s !! t) ;;
  match c with
  | Some c => ret c
  | None => newBeanCacheItem
  end.

(** [ctx.findCacheItem]: the item of the type, created and put into the
    cache when missing. *)
Definition findCacheItem (t : rtype) : M addr :=
  c <- gets (λ s, beanCache s !! t) ;;
  match c with
  | Some c => ret c
  | None =>
      c <- newBeanCacheItem ;;
      modify (set_beanCache <[t := c]>) ;;
      ret c
  end.

(** *** Registration and resolution *)

Definition checkAutoWired : M unit :=
  b <- gets autoWired ;;
  if b then ret tt else panic NotYetWiredError.

Definition checkRegistration : M unit :=
  b <- gets autoWired ;;
  if b then panic RegistrationFrozenError else ret tt.

Definition deleteBeanDefinition (bd : addr) : M unit :=
  d <- getBD bd ;;
  t <- BD_Type d ;;
  let key : beanKey := (t, name d) in
  setStatus bd beanStatus_Deleted ;;
  modify (set_beanMap (delete key)).

Definition registerBeanDefinition (bd : addr) : M unit :=
  checkRegistration ;;
  d <- getBD bd ;;
  t <- BD_Type d ;;
  let k : beanKey := (t, name d) in
  m <- gets beanMap ;;
  match m !! k with
  | Some _ => panic (DuplicateBeanError (BeanId E d))
  | None => modify (set_beanMap <[k := bd]>)
  end.

Fixpoint resolveBean (n : nat) (bd : addr) : M unit :=
  match n with
  | 0 => outOfFuel
  | S n' =>
    d <- getBD bd ;;
    if decide (status_ord beanStatus_Default < status_ord (status d)) then ret tt
    else
    setStatus bd beanStatus_Resolving ;;
    (* a method bean: first resolve its parent *)
    deleted <-
      match bean d with
      | methodBean _ parent _ =>
          resolveBean n' parent ;;
          p <- getBD parent ;;
          if decide (status p = beanStatus_Deleted)
          then deleteBeanDefinition bd ;; ret true
          else ret false
      | _ => ret false
      end ;;
    if deleted : bool then ret tt else
    ok <- gets (λ s, Matches E s bd) ;;
    if negb ok then deleteBeanDefinition bd else
    t <- BD_Type d ;;
    item <- findCacheItem t ;;
    beanCacheItem_store item t bd ;;
    forM_ (exports d) (λ t',
      if negb (Implements E t t')
      then panic (ExportMismatchError (Description E d) t')
      else m <- findCacheItem t' ;; beanCacheItem_store m t' bd) ;;
    setStatus bd beanStatus_Resolved
  end.

(** The [finder] closure of [FindBean]. The range runs over the entries
    present at its start: an entry deleted on the way is still visited,
    and dropped by the status test as Go's range drops it. *)
Definition finder (n : nat) (fn : BeanDefinition → bool) : M (list addr) :=
  m <- gets beanMap ;;
  foldM (λ result kb,
    let b : addr := kb.2 in
    d <- getBD b ;;
    if fn d then
      if decide (status d = beanStatus_Resolving) then ret result
      else
        resolveBean n b ;;
        d' <- getBD b ;;
        if decide (status d' ≠ beanStatus_Deleted)
        then ret (result ++ [b]) else ret result
    else ret result) [] (mapRange E m).

(** [reflect.TypeOf(selector)] with the pointer of an interface type
    removed. *)
Definition selectorType (sel : Selector) : M rtype :=
  match sel with
  | SelType (TPtr (TInterface i)) => ret (TInterface i)
  | SelType t => ret t
  | SelBean _ => ret (TPtr (TStruct "SpringCore.BeanDefinition"))
  | _ => panic (RuntimePanic "nil pointer dereference")
  end.

Definition FindBean (n : nat) (selector : Selector) : M (option addr) :=
  checkAutoWired ;;
  result <-
    match selector with
    | SelString o =>
        let '(typeName, beanName, _) := ParseBeanId o in
        finder n (λ b, Match b typeName beanName)
    | _ =>
        t <- selectorType selector ;;
        finder n (λ b, match springBean_Type (bean b) with
                       | Some bt => AssignableTo bt t
                       | None => false
                       end)
    end ;;
  match result with
  | [] => ret None
  | [b] => ret (Some b)
  | _ =>
      s <- gets id ;;
      panic (FindAmbiguousError selector
               (omap (λ b, Description E <$> beans s !! b) result))
  end.

End Core.

(** ** reflect operations on values and slots *)

Definition zeroValue (t : rtype) : value :=
  if IsRefType (rKind t) then VNil t else VBasic t 0.

(** [v.Len()] of a slice. *)
Definition vLen (v : value) : M nat :=
  match v with
  | VNil (TSlice _) => ret 0
  | VRef (TSlice _) a =>
      l <- gets (λ s, arrays s !! a) ;;
      l <- the l "nil pointer dereference" ;;
      ret (length l)
  | _ => panic (RuntimePanic "reflect: call of reflect.Value.Len on non-slice Value")
  end.

(** [v.Index(i)] of a slice. *)
Definition vIndex (v : value) (i : nat) : M value :=
  match v with
  | VRef (TSlice _) a =>
      l <- gets (λ s, arrays s !! a) ;;
      l <- the l "nil pointer dereference" ;;
      the (l !! i) "reflect: slice index out of range"
  | _ => panic (RuntimePanic "reflect: slice index out of range")
  end.

(** [v.Addr()] of an addressable struct. *)
Definition vAddr (v : value) : M value :=
  match v with
  | VRef (TStruct n) a => ret (VRef (TPtr (TStruct n)) a)
  | _ => panic (RuntimePanic "reflect.Value.Addr of unaddressable value")
  end.

(** [v.Elem()] of a pointer or an interface. *)
Definition vElem (v : value) : M value :=
  match v with
  | VRef (TPtr (TStruct n)) a => ret (VRef (TStruct n) a)
  | VRef (TPtr _) a =>
      c <- gets (λ s, cells s !! a) ;;
      c <- the c "nil pointer dereference" ;;
      the (c !! 0) "nil pointer dereference"
  | VNil (TPtr _) | VNil (TInterface _) => ret VInvalid
  | VIface _ x => ret x
  | _ => panic (RuntimePanic "reflect: call of reflect.Value.Elem on non-pointer Value")
  end.

(** [ev.Field(i)] of a struct: the field as a settable location. *)
Definition vField (ev : value) (i : nat) (ft : StructField) : M slot :=
  match ev with
  | VRef (TStruct _) a => ret (Slot a i (f_Type ft) (f_exported ft))
  | _ => panic (RuntimePanic "reflect: call of reflect.Value.Field on zero Value")
  end.

Definition slotGet (v : slot) : M value :=
  c <- gets (λ s, cells s !! slot_addr v) ;;
  c <- the c "nil pointer dereference" ;;
  the (c !! slot_idx v) "reflect: Field index out of range".

(** Modelled from the spec: [SpringUtils.ValuePatchIf] is declared outside
    this repository file; with the context's all-access flag set, private
    fields are opened for writing. *)
Definition ValuePatchIf (v : slot) (allAccess : bool) : slot :=
  if allAccess then Slot (slot_addr v) (slot_idx v) (slot_type v) true else v.

(** [v.Set(x)]: panics on a location that is not settable. *)
Definition slotSet (v : slot) (x : value) : M unit :=
  if slot_canset v
  then modify (set_cells (alter (λ c, <[slot_idx v := x]> c) (slot_addr v)))
  else panic (RuntimePanic "reflect: reflect.Value.Set using value obtained using unexported field").

(** [reflect.New(t).Elem()] *)
Definition newVar (t : rtype) : M slot :=
  a <- fresh ;;
  modify (set_cells <[a := [zeroValue t]]>) ;;
  ret (Slot a 0 t true).

(** The slice made of the given elements. *)
Definition newSlice (t : rtype) (elems : list value) : M value :=
  a <- fresh ;;
  modify (set_arrays <[a := elems]>) ;;
  ret (VRef t a).

(** Storing a value into a location of type [t]: a location of interface
    type holds the value as an interface. *)
Definition convertTo (t : rtype) (x : value) : value :=
  match t with
  | TInterface _ =>
      match x with
      | VIface _ inner => VIface t inner
      | VNil (TInterface _) => VNil t
      | VInvalid => VInvalid
      | _ => VIface t x
      end
  | _ => x
  end.

Definition springBean_set_rValue (v : value) (b : springBean) : springBean :=
  match b with
  | objectBean _ => objectBean v
  | constructorBean fb fn =>
      constructorBean (FunctionBean (fb_rType fb) v (fb_arg fb)) fn
  | methodBean fb parent method =>
      methodBean (FunctionBean (fb_rType fb) v (fb_arg fb)) parent method
  | fakeMethodBean _ _ _ => b
  end.

(** Modelled from the spec: [ValueToBeanDefinition] and [newObjectBean]
    are declared outside this file. The value is wrapped as an object
    bean in status Default; the name "defaults to the type's canonical
    name". *)
Definition ValueToBeanDefinition (name : string) (v : value) : BeanDefinition :=
  mkBD (objectBean v)
       (if bool_decide (name = "")
        then match vType v with Some t => rtype_String t | None => "" end
        else name)
       beanStatus_Default false [] [] false false "" 0.

Section Assembly.

Context (E : Env).

(** ** The bean assembly. The functions below call [wireBeanDefinition]
    through the parameter [wire]; the knot is tied with fuel in
    [wireBeanDefinition]. *)

Section Open.

Variable wire : IBeanDefinition → bool → M unit.
Variable findBean : Selector → M (option addr).

(** The filter of [getBeanValue] on the beans of a cache item: not the
    value injected into, assignable, and matching the selector. *)
Definition isCandidate (bs : gmap addr BeanDefinition) (beanType : rtype)
    (typeName beanName : string) (parentValue : value) (b : addr) : bool :=
  match bs !! b with
  | Some d =>
      bool_decide (springBean_Value (bean d) ≠ parentValue)
      && match springBean_Type (bean d) with
         | Some t => AssignableTo E t beanType
         | None => false
         end
      && Match E d typeName beanName
  | None => false
  end.

Definition isPrimary (bs : gmap addr BeanDefinition) (b : addr) : bool :=
  match bs !! b with
  | Some d => primary d
  | None => false
  end.

Definition descriptions (bs : gmap addr BeanDefinition) (l : list addr)
    : list string :=
  omap (λ b, Description E <$> bs !! b) l.

Definition getBeanValue_ (v : slot) (beanId : string) (parentValue : value)
    (field : string) : M bool :=
  let '(typeName, beanName, nullable) := ParseBeanId E beanId in
  let beanType := slot_type v in
  if negb (IsRefType (rKind beanType)) then
    panic (InvalidTargetError beanId field)
  else
  m <- getCacheItem beanType ;;
  mbeans <- beanCacheItem_beans m ;;
  result <- gets (λ s,
    filter (λ b, isCandidate (beans s) beanType typeName beanName parentValue b)
           mbeans) ;;
  let count := length result in
  if decide (count = 0) then
    if nullable : bool then ret false
    else panic (BeanNotFoundError beanId field beanType)
  else
  primaryBeans <- gets (λ s, filter (λ b, isPrimary (beans s) b) result) ;;
  if decide (1 < length primaryBeans) then
    bs <- gets beans ;;
    panic (AmbiguousPrimaryError beanId field beanType (descriptions bs primaryBeans))
  else
  primaryBeans <-
    (if decide (length primaryBeans = 0) then
       if decide (1 < count) then
         bs <- gets beans ;;
         panic (AmbiguousBeanError beanId field beanType (descriptions bs result))
       else ret (primaryBeans ++ take 1 result)
     else ret primaryBeans) ;;
  p <- the (primaryBeans !! 0) "index out of range" ;;
  wire (IBean p) false ;;
  allAccess <- gets allAccess ;;
  let v0 := ValuePatchIf v allAccess in
  d <- getBD p ;;
  slotSet v0 (springBean_Value (bean d)) ;;
  ret true.

(** The body of the element loop of [collectBeans]: a struct or a pointer
    to a struct is wrapped and wired. *)
Definition wireElement (d : addr) (di : value) : M unit :=
  if decide (vKind di = KStruct) then
    p <- vAddr di ;;
    dd <- getBD d ;;
    bd <- newBD (bd_set_site (file dd) (line dd) (ValueToBeanDefinition "" p)) ;;
    wire (IBean bd) false
  else if decide (vKind di = KPtr) then
    de <- vElem di ;;
    if decide (vKind de = KStruct) then
      dd <- getBD d ;;
      bd <- newBD (bd_set_site (file dd) (line dd) (ValueToBeanDefinition "" di)) ;;
      wire (IBean bd) false
    else ret tt
  else ret tt.

(** [for i := 0; i < d.Value().Len(); i++ { ... }]: [d.Value()] is read
    again at every index; [chunk] is the part of [newSlice] past the
    elements collected before, of the length [size] that [d.Value()] had
    when [newSlice] was made. *)
Fixpoint collectElements (d : addr) (size : nat) (idx : list nat)
    (chunk : list value) : M (list value) :=
  match idx with
  | [] => ret chunk
  | i :: idx' =>
      dd <- getBD d ;;
      len <- vLen (springBean_Value (bean dd)) ;;
      if decide (i < len) then
        dd <- getBD d ;;
        di <- vIndex (springBean_Value (bean dd)) i ;;
        wireElement d di ;;
        if decide (i < size)
        then collectElements d size idx' (<[i := di]> chunk)
        else panic (RuntimePanic "reflect: slice index out of range")
      else ret chunk
  end.

(** The intermediate slices [ev] and [newSlice] are shared with nothing:
    their elements are threaded as a list, and the backing array is
    allocated when the result is stored. *)
Definition collectBeans_ (v : slot) : M bool :=
  let t := slot_type v in
  let ev : list value := [] in
  (* the beans of the slice type *)
  m <- getCacheItem t ;;
  ds <- beanCacheItem_beans m ;;
  et <- the (rElem t) "reflect: Elem of invalid type" ;;
  ev <- foldM (λ ev d,
          dd <- getBD d ;;
          n0 <- vLen (springBean_Value (bean dd)) ;;
          chunk <- collectElements d n0 (seq 0 (S n0)) (replicate n0 (zeroValue et)) ;;
          ret (ev ++ chunk)) ev ds ;;
  (* the beans of the element type *)
  m <- getCacheItem et ;;
  ds <- beanCacheItem_beans m ;;
  ev <- foldM (λ ev d,
          wire (IBean d) false ;;
          dd <- getBD d ;;
          ret (ev ++ [springBean_Value (bean dd)])) ev ds ;;
  if decide (0 < length ev) then
    allAccess <- gets allAccess ;;
    let v := ValuePatchIf v allAccess in
    sl <- newSlice t ev ;;
    slotSet v sl ;;
    ret true
  else ret false.

Definition wireStructField_ (parentValue : value) (beanValue : slot)
    (field : string) (beanId : string) : M unit :=
  let '(_, beanName, nullable) := ParseBeanId E beanId in
  if bool_decide (beanName = "[]") then
    if negb (bool_decide (rKind (slot_type beanValue) = KSlice)) then
      panic (NotSliceError field)
    else
      ok <- collectBeans_ beanValue ;;
      if negb ok && negb nullable
      then panic (CollectNotFoundError beanId field)
      else ret tt
  else
    getBeanValue_ beanValue beanId parentValue field ;; ret tt.

Definition wireObjectBean_ (bd : IBeanDefinition) (onlyAutoWire : bool) : M unit :=
  d <- getBD (ibd bd) ;;
  st <- BD_Type d ;;
  match st with
  | TSlice (TStruct _) =>
      let v := springBean_Value (bean d) in
      len <- vLen v ;;
      forM_ (seq 0 len) (λ i,
        e <- vIndex v i ;;
        iv <- vAddr e ;;
        dd <- getBD (ibd bd) ;;
        b <- newBD (bd_set_site (file dd) (line dd) (ValueToBeanDefinition "" iv)) ;;
        wire (IBean b) false)
  | TSlice (TPtr (TStruct _)) =>
      let v := springBean_Value (bean d) in
      len <- vLen v ;;
      forM_ (seq 0 len) (λ p,
        pv <- vIndex v p ;;
        dd <- getBD (ibd bd) ;;
        b <- newBD (bd_set_site (file dd) (line dd) (ValueToBeanDefinition "" pv)) ;;
        wire (IBean b) false)
  | TPtr (TStruct etName) =>
      let sv := springBean_Value (bean d) in
      ev <- vElem sv ;;
      let fields := structFields E etName in
      forM_ (zip (seq 0 (length fields)) fields) (λ '(i, ft),
        fv <- vField ev i ft ;;
        let fieldName := etName +:+ ".$" +:+ f_Name ft in
        allAccess <- gets allAccess ;;
        (* the value tag *)
        fieldOnlyAutoWire <-
          (if negb onlyAutoWire then
             match f_value ft with
             | Some tag =>
                 match bindStructField E (f_Type ft) fieldName tag with
                 | Some x => slotSet (ValuePatchIf fv allAccess) x
                 | None => panic (BindError fieldName tag)
                 end ;;
                 ret true
             | None => ret false
             end
           else ret false) ;;
        (* the autowire tag *)
        match f_autowire ft with
        | Some beanId => wireStructField_ sv fv fieldName beanId
        | None => ret tt
        end ;;
        (* a field of struct type *)
        if decide (rKind (f_Type ft) = KStruct) then
          let fv0 := ValuePatchIf fv allAccess in
          if slot_canset fv0 then
            x <- slotGet fv0 ;;
            p <- vAddr x ;;
            dd <- getBD (ibd bd) ;;
            b <- newBD (bd_set_site (file dd) (line dd) (ValueToBeanDefinition "" p)) ;;
            wire (IField b fieldName) fieldOnlyAutoWire
          else ret tt
        else ret tt)
  | _ => ret tt
  end.

(** Modelled from the spec: [bean.arg.Get] is declared outside this file.
    Each parameter gets a new variable of its type, filled by the
    property-binding collaborator or by [getBeanValue]. *)
Definition arg_Get (args : list fnArg) : M (list value) :=
  foldM (λ (acc : list value) a,
    match a with
    | ArgValue t tag =>
        iv <- newVar t ;;
        match bindStructField E t "" tag with
        | Some x => slotSet iv x
        | None => panic (BindError "" tag)
        end ;;
        x <- slotGet iv ;;
        ret (acc ++ [x])
    | ArgBean t beanId =>
        iv <- newVar t ;;
        getBeanValue_ iv beanId VInvalid "" ;;
        x <- slotGet iv ;;
        ret (acc ++ [x])
    end) [] args.

Definition springBean_functionBean (b : springBean) : M functionBean :=
  match b with
  | constructorBean fb _ | methodBean fb _ _ => ret fb
  | _ => panic (RuntimePanic "nil pointer dereference")
  end.

(** [bean.rValue.Set(x)]: [bean] is the function bean of [bd]. *)
Definition rValue_Set (bd : addr) (x : value) : M unit :=
  modify (set_beans (alter (λ d,
    bd_set_bean
      (springBean_set_rValue
         (match springBean_Type (bean d) with
          | Some t => convertTo t x
          | None => x
          end) (bean d)) d) bd)).

(** [p.Elem().Set(val)]: a struct is copied cell by cell. *)
Definition Elem_Set (p : value) (val : value) : M unit :=
  match p with
  | VRef (TPtr _) a =>
      match val with
      | VRef (TStruct _) a0 =>
          c <- gets (λ s, cells s !! a0) ;;
          c <- the c "nil pointer dereference" ;;
          modify (set_cells <[a := c]>)
      | _ => modify (set_cells <[a := [val]]>)
      end
  | _ => panic (RuntimePanic "reflect: call of reflect.Value.Set on zero Value")
  end.

Definition wireFunctionBean_ (fnValue : option gofunc) (bd : IBeanDefinition) : M unit :=
  d <- getBD (ibd bd) ;;
  fb <- springBean_functionBean (bean d) ;;
  in_ <- arg_Get (fb_arg fb) ;;
  fn <- the fnValue "reflect: call of reflect.Value.Call on zero Value" ;;
  let out := fn in_ in
  (* the first result *)
  val <- the (out !! 0) "index out of range" ;;
  (* is an error returned *)
  (if decide (length out = 2) then
     err <- the (out !! 1) "index out of range" ;;
     if negb (Interface_isNil err)
     then panic (ConstructorError (Caller E d) err)
     else ret tt
   else ret tt) ;;
  d <- getBD (ibd bd) ;;
  fb <- springBean_functionBean (bean d) ;;
  (if IsRefType (vKind val) then
     ve <- (if decide (vKind val = KInterface) then vElem val else ret VInvalid) ;;
     if decide (vKind val = KInterface ∧ vKind ve = KStruct) then
       (* a struct behind the interface: point to a copy of it *)
       a <- fresh ;;
       modify (set_cells <[a := []]>) ;;
       let ptrVal :=
         VRef (TPtr (match vType ve with Some t => t | None => TStruct "" end)) a in
       Elem_Set ptrVal ve ;;
       rValue_Set (ibd bd) ptrVal
     else rValue_Set (ibd bd) val
   else Elem_Set (fb_rValue fb) val) ;;
  d <- getBD (ibd bd) ;;
  fb <- springBean_functionBean (bean d) ;;
  if Interface_isNil (fb_rValue fb) then
    panic (NilBeanError (Caller E d))
  else
  (* wire the returned value *)
  inner <-
    (if decide (rKind (fb_rType fb) = KInterface)
     then vElem (fb_rValue fb)
     else ret (fb_rValue fb)) ;;
  b <- newBD (mkBD (objectBean inner) (name d) beanStatus_Default
                   false [] [] false false (file d) (line d)) ;;
  wire (IDelegate b bd) false.

(** The body of [wireBeanDefinition]. *)
Definition wireBeanDefinition_ (bd : IBeanDefinition) (onlyAutoWire : bool) : M unit :=
  d <- getBD (ibd bd) ;;
  (* deleted? *)
  if decide (status d = beanStatus_Deleted) then
    panic (InvalidStateError (BeanId E d))
  else
  (* wired? *)
  if decide (status d = beanStatus_Wired) then ret tt
  else
  (* push the bean on the wiring stack, to detect cycles *)
  pushBack bd ;;
  (* a cycle? *)
  if decide (status d = beanStatus_Wiring) then
    if negb (isObjectBean (bean d))
    then panic CircularDependencyError
    else ret tt
  else
  setStatus (ibd bd) beanStatus_Wiring ;;
  (* first the beans this one depends on *)
  forM_ (dependsOn d) (λ selector,
    r <- findBean selector ;;
    match r with
    | None => panic (DependsOnNotFoundError selector)
    | Some b => wire (IBean b) false
    end) ;;
  (* a method bean: first its parent *)
  d <- getBD (ibd bd) ;;
  match bean d with
  | methodBean _ parent _ => wire (IBean parent) false
  | _ => ret tt
  end ;;
  d <- getBD (ibd bd) ;;
  match bean d with
  | objectBean _ => wireObjectBean_ bd onlyAutoWire
  | constructorBean _ fn => wireFunctionBean_ (Some fn) bd
  | methodBean _ parent method =>
      p <- getBD parent ;;
      wireFunctionBean_ (MethodByName E (springBean_Value (bean p)) method) bd
  | fakeMethodBean _ _ _ => panic UnknownBeanTypeError
  end ;;
  (* the init function of the user *)
  d <- getBD (ibd bd) ;;
  when (init d) (emit (EvInit (ibd bd) (springBean_Value (bean d)))) ;;
  (* drop the frame *)
  popBack ;;
  setStatus (ibd bd) beanStatus_Wired.

End Open.

Fixpoint wireBeanDefinition (n : nat) (bd : IBeanDefinition) (onlyAutoWire : bool)
    : M unit :=
  match n with
  | 0 => outOfFuel
  | S n' => wireBeanDefinition_ (wireBeanDefinition n') (FindBean E n') bd onlyAutoWire
  end.

Definition getBeanValue (n : nat) := getBeanValue_ (wireBeanDefinition n).
Definition collectBeans (n : nat) := collectBeans_ (wireBeanDefinition n).
Definition wireStructField (n : nat) := wireStructField_ (wireBeanDefinition n).
Definition wireObjectBean (n : nat) := wireObjectBean_ (wireBeanDefinition n).
Definition wireFunctionBean (n : nat) := wireFunctionBean_ (wireBeanDefinition n).

End Assembly.

(** ** The context *)

Section Context.

Context (E : Env).

Definition eventNotify (e : ContextEvent) : M unit :=
  b <- gets hasEventNotify ;;
  when b (emit (EvNotify e)).

(** Modelled from the spec: [newFunctionBean] is declared outside this
    file. The value of a function bean is a variable of the function's
    result type, or a pointer to one when the result is not of a
    reference kind; [wireFunctionBean] stores the result there. *)
Definition newFunctionBean (out : rtype) (args : list fnArg) : M functionBean :=
  if IsRefType (rKind out) then ret (FunctionBean out (VNil out) args)
  else
    a <- fresh ;;
    modify (set_cells <[a := [zeroValue out]]>) ;;
    ret (FunctionBean (TPtr out) (VRef (TPtr out) a) args).

(** Modelled from the spec: [newBeanDefinition] is declared outside this
    file: status Default, and the name "defaults to the type's canonical
    name". *)
Definition newBeanDefinition (b : springBean) (name : string) : BeanDefinition :=
  mkBD b
       (if bool_decide (name = "")
        then match springBean_Type b with Some t => rtype_String t | None => "" end
        else name)
       beanStatus_Default false [] [] false false "" 0.

Definition RegisterNameBean (name : string) (bean : value) : M addr :=
  bd <- newBD (newBeanDefinition (objectBean bean) name) ;;
  registerBeanDefinition E bd ;;
  ret bd.

Definition RegisterBean (bean : value) : M addr := RegisterNameBean "" bean.

Definition RegisterNameBeanFn (name : string) (fn : gofunc) (out : rtype)
    (tags : list fnArg) : M addr :=
  fb <- newFunctionBean out tags ;;
  bd <- newBD (newBeanDefinition (constructorBean fb fn) name) ;;
  registerBeanDefinition E bd ;;
  ret bd.

Definition RegisterBeanFn (fn : gofunc) (out : rtype) (tags : list fnArg) : M addr :=
  RegisterNameBeanFn "" fn out tags.

Definition RegisterNameMethodBean (name : string) (selector : Selector)
    (method : string) (tags : list fnArg) : M addr :=
  checkRegistration ;;
  match selector with
  | SelNil | SelString "" => panic SelectorEmptyError
  | _ =>
      bd <- newBD (mkBD (fakeMethodBean selector method tags) name
                        beanStatus_Default false [] [] false false "" 0) ;;
      modify (set_methodBeans (λ l, l ++ [bd])) ;;
      ret bd
  end.

Definition RegisterMethodBean (selector : Selector) (method : string)
    (tags : list fnArg) : M addr :=
  RegisterNameMethodBean "" selector method tags.

(** [v.Elem()] of the pointer an API is given: the variable to fill. *)
Definition ptrSlot (i : value) : M slot :=
  match i with
  | VRef (TPtr t) a => ret (Slot a 0 t true)
  | _ => panic (RuntimePanic "reflect: call of reflect.Value.Type on zero Value")
  end.

(** The selector with the nullable mark that [GetBeanByName] makes sure
    of. *)
Definition withNullable (beanId : string) : string :=
  if bool_decide (beanId = "") || negb (bool_decide (string_last beanId = Some "?"%char))
  then beanId +:+ "?"
  else beanId.

Definition GetBeanByName (n : nat) (beanId : string) (i : value) (watchers : nat)
    : M bool :=
  checkAutoWired ;;
  let beanId := withNullable beanId in
  t <- the (vType i) "nil pointer dereference" ;;
  if negb (bool_decide (rKind t = KPtr)) then
    panic (NotPointerError "i must be pointer")
  else
  newDefaultBeanAssembly watchers ;;
  v <- ptrSlot i ;;
  getBeanValue E n v beanId VInvalid "".

Definition GetBean (n : nat) (i : value) (watchers : nat) : M bool :=
  GetBeanByName n "?" i watchers.

Definition FindBeanByName (n : nat) (beanId : string) : M (option addr) :=
  FindBean E n (SelString beanId).

Definition CollectBeans (n : nat) (i : value) (watchers : nat) : M bool :=
  checkAutoWired ;;
  t <- the (vType i) "nil pointer dereference" ;;
  match t with
  | TPtr (TSlice _) =>
      newDefaultBeanAssembly watchers ;;
      v <- ptrSlot i ;;
      collectBeans E n v
  | _ => panic (NotPointerError "i must be slice ptr")
  end.

(** Catching a panic as the deferred function of [AutoWireBeans] does. *)
Definition recovering {A} (m : M A) (h : error → M A) : M A :=
  λ s, match m s with
       | (Panic e, s') => h e s'
       | r => r
       end.

(** [sort.Strings]: the byte-wise lexicographic order. *)
Definition string_le (a b : string) : Prop := String.leb a b = true.

Global Instance string_le_dec a b : Decision (string_le a b).
Proof. unfold string_le. apply _. Defined.

(** The map [beanKeyMap] from BeanId to bean key that the sorting branch
    of [AutoWireBeans] fills while ranging over the bean map. *)
Definition beanKeyMap (s : state) : gmap string beanKey :=
  foldl (λ (m : gmap string beanKey) (kv : beanKey * addr),
           match beans s !! kv.2 with
           | Some d => <[BeanId E d := kv.1]> m
           | None => m
           end) ∅ (mapRange E (beanMap s)).

(** The beans [AutoWireBeans] hands to [wireBeanDefinition], in order. *)
Definition autoWireOrder (s : state) : list addr :=
  if Sort s then
    let km := beanKeyMap s in
    let beanIds := merge_sort string_le (map_to_list km).*1 in
    omap (λ beanId, km !! beanId ≫= (λ key, beanMap s !! key)) beanIds
  else
    (mapRange E (beanMap s)).*2.

(** The registration of one method bean at the start of
    [AutoWireBeans]. *)
Definition finalizeMethodBean (bd : addr) : M unit :=
  d <- getBD bd ;;
  match bean d with
  | fakeMethodBean sel method tags =>
      m <- gets beanMap ;;
      s <- gets id ;;
      let found (filter : BeanDefinition → bool) : list addr :=
        omap (λ kv : beanKey * addr,
                match beans s !! kv.2 with
                | Some b => if filter b then Some kv.2 else None
                | None => None
                end) (mapRange E m) in
      sr <-
        match sel with
        | SelBean e =>
            de <- getBD e ;;
            ret (BeanId E de, [e])
        | SelString e =>
            let '(typeName, beanName, _) := ParseBeanId E e in
            ret (e, found (λ b, Match E b typeName beanName))
        | _ =>
            t <- selectorType sel ;;
            ret (rtype_String t,
                 found (λ b, bool_decide (springBean_Type (bean b) = Some t)))
        end ;;
      let selector := sr.1 in
      let result := sr.2 in
      match result with
      | [] => panic (ParentNotFoundError selector)
      | [parent] =>
          pd <- getBD parent ;;
          pt <- BD_Type pd ;;
          out <- the (methodOut E pt method) "can't find method" ;;
          fb <- newFunctionBean out tags ;;
          modify (set_beans (alter (bd_set_bean (methodBean fb parent method)) bd)) ;;
          when (bool_decide (name d = ""))
               (modify (set_beans (alter (bd_set_name (rtype_String (fb_rType fb))) bd))) ;;
          registerBeanDefinition E bd
      | _ => panic (ParentAmbiguousError (length result) selector)
      end
  | _ => panic (RuntimePanic "interface conversion")
  end.

Definition AutoWireBeans (n : nat) (watchers : nat) : M unit :=
  aw <- gets autoWired ;;
  if aw : bool then panic AlreadyWiredError else
  (* register the method beans *)
  mbs <- gets methodBeans ;;
  forM_ mbs finalizeMethodBean ;;
  modify (set_autoWired true) ;;
  eventNotify ContextEvent_ResolveStart ;;
  (* decide for every bean whether it can be registered *)
  m <- gets beanMap ;;
  forM_ (mapRange E m) (λ kv, resolveBean E n kv.2) ;;
  eventNotify ContextEvent_ResolveEnd ;;
  newDefaultBeanAssembly watchers ;;
  eventNotify ContextEvent_AutoWireStart ;;
  recovering
    (order <- gets autoWireOrder ;;
     forM_ order (λ bd, wireBeanDefinition E n (IBean bd) false) ;;
     eventNotify ContextEvent_AutoWireEnd)
    (λ err,
       path <- wiringStack_path E ;;
       emit (EvLogError err path) ;;
       panic err).

Definition WireBean (n : nat) (bean : value) (watchers : nat) : M unit :=
  checkAutoWired ;;
  newDefaultBeanAssembly watchers ;;
  bd <- newBD (newBeanDefinition (objectBean bean) "") ;;
  wireBeanDefinition E n (IBean bd) false.

Definition GetBeanDefinitions : M (list addr) :=
  m <- gets beanMap ;;
  ret (mapRange E m).*2.

Definition Close : M unit :=
  eventNotify ContextEvent_CloseStart ;;
  m <- gets beanMap ;;
  forM_ (mapRange E m) (λ kv,
    d <- getBD kv.2 ;;
    when (destroy d) (emit (EvDestroy kv.2 (springBean_Value (bean d))))) ;;
  emit EvCancel ;;
  eventNotify ContextEvent_CloseEnd.

(** [SetAllAccess], [SetEventNotify], and an assignment to [ctx.Sort]. *)
Definition SetAllAccess (b : bool) : M unit := modify (set_allAccess b).
Definition SetEventNotify (b : bool) : M unit := modify (set_hasEventNotify b).
Definition SetSort (b : bool) : M unit := modify (set_Sort b).

(** Modelled from the spec: the setters of [BeanDefinition] are declared
    outside this file. Between its registration and [AutoWireBeans] the
    program may set the primary flag, the dependencies, the exports and
    the callbacks of a bean; provider, name and status are not its to set. *)
Definition Configure (bd : addr) (primary : bool) (dependsOn : list Selector)
    (exports : list rtype) (init destroy : bool) : M unit :=
  modify (set_beans (alter (λ d,
    mkBD (bean d) (name d) (status d) primary dependsOn exports init destroy
         (file d) (line d)) bd)).

(** The program allocates an object or a variable, or makes a slice. *)
Definition New (fields : list value) : M addr :=
  a <- fresh ;; modify (set_cells <[a := fields]>) ;; ret a.

Definition MakeSlice (elems : list value) : M addr :=
  a <- fresh ;; modify (set_arrays <[a := elems]>) ;; ret a.

(** *** The states a program can bring the context into *)

Inductive Call :=
| CallRegisterNameBean (name : string) (bean : value)
| CallRegisterNameBeanFn (name : string) (fn : gofunc) (out : rtype)
                         (tags : list fnArg)
| CallRegisterNameMethodBean (name : string) (selector : Selector)
                             (method : string) (tags : list fnArg)
| CallConfigure (bd : addr) (primary : bool) (dependsOn : list Selector)
                (exports : list rtype) (init destroy : bool)
| CallSetAllAccess (b : bool)
| CallSetEventNotify (b : bool)
| CallSetSort (b : bool)
| CallNew (fields : list value)
| CallMakeSlice (elems : list value)
| CallAutoWireBeans (n watchers : nat)
| CallGetBean (n : nat) (i : value) (watchers : nat)
| CallGetBeanByName (n : nat) (beanId : string) (i : value) (watchers : nat)
| CallFindBean (n : nat) (selector : Selector)
| CallCollectBeans (n : nat) (i : value) (watchers : nat)
| CallWireBean (n : nat) (bean : value) (watchers : nat)
| CallClose.

(** The state a call ends in, whether it returns or panics. *)
Definition call (c : Call) (s : state) : state :=
  match c with
  | CallRegisterNameBean name bean => (RegisterNameBean name bean s).2
  | CallRegisterNameBeanFn name fn out tags => (RegisterNameBeanFn name fn out tags s).2
  | CallRegisterNameMethodBean name sel method tags =>
      (RegisterNameMethodBean name sel method tags s).2
  | CallConfigure bd p ds es i d => (Configure bd p ds es i d s).2
  | CallSetAllAccess b => (SetAllAccess b s).2
  | CallSetEventNotify b => (SetEventNotify b s).2
  | CallSetSort b => (SetSort b s).2
  | CallNew fields => (New fields s).2
  | CallMakeSlice elems => (MakeSlice elems s).2
  | CallAutoWireBeans n w => (AutoWireBeans n w s).2
  | CallGetBean n i w => (GetBean n i w s).2
  | CallGetBeanByName n beanId i w => (GetBeanByName n beanId i w s).2
  | CallFindBean n sel => (FindBean E n sel s).2
  | CallCollectBeans n i w => (CollectBeans n i w s).2
  | CallWireBean n bean w => (WireBean n bean w s).2
  | CallClose => (Close s).2
  end.

Inductive reachable : state → Prop :=
| reachable_new : reachable NewDefaultSpringContext
| reachable_call s c : reachable s → reachable (call c s).

End Context.

(** ** Notions used to state the properties *)

Section Notions.

Context (E : Env).

(** The beans the cache holds for a type. *)
Definition cacheBeans (s : state) (t : rtype) : list addr :=
  match beanCache s !! t with
  | Some c => default [] (items s !! c)
  | None => []
  end.

(** The candidate set of [getBeanValue]. *)
Definition candidates (s : state) (beanType : rtype) (beanId : string)
    (parentValue : value) : list addr :=
  filter (λ b, isCandidate E (beans s) beanType (ParseBeanId E beanId).1.1
                 (ParseBeanId E beanId).1.2 parentValue b)
         (cacheBeans s beanType).

Definition nullable (beanId : string) : bool := (ParseBeanId E beanId).2.

(** What [getBeanValue] does once it has selected the bean [p]: wire it,
    then store its value into the target. *)
Definition selectBean (n : nat) (v : slot) (p : addr) : M bool :=
  wireBeanDefinition E n (IBean p) false ;;
  allAccess <- gets allAccess ;;
  d <- getBD p ;;
  slotSet (ValuePatchIf v allAccess) (springBean_Value (bean d)) ;;
  ret true.

(** A bean is in the cache. *)
Definition cached (s : state) (x : addr) : Prop :=
  ∃ t c l, beanCache s !! t = Some c ∧ items s !! c = Some l ∧ x ∈ l.

(** The elements of the slice a bean holds. *)
Definition sliceElems (s : state) (d : addr) : option (list value) :=
  match beans s !! d with
  | Some dd =>
      match springBean_Value (bean dd) with
      | VNil (TSlice _) => Some []
      | VRef (TSlice _) a => arrays s !! a
      | _ => None
      end
  | None => None
  end.

Definition beanValue (s : state) (d : addr) : value :=
  match beans s !! d with
  | Some dd => springBean_Value (bean dd)
  | None => VInvalid
  end.

(** What a location holds. *)
Definition slotValue (s : state) (v : slot) : option value :=
  cells s !! slot_addr v ≫= (λ c, c !! slot_idx v).

Definition hasStatus (s : state) (st : beanStatus) (x : addr) : Prop :=
  ∃ d, beans s !! x = Some d ∧ status d = st.

(** Every bean the range over the bean map yields has left status
    Default: the resolving pass of [AutoWireBeans] has seen it. *)
Definition AllResolved (s : state) : Prop :=
  ∀ kb, kb ∈ mapRange E (beanMap s) →
        ∃ d, beans s !! kb.2 = Some d ∧ status d ≠ beanStatus_Default.

(** Registering named object beans one after the other; the result lists
    the bean definitions in registration order. *)
Definition registerAll (l : list (string * value)) : M (list addr) :=
  foldM (λ acc nv, bd <- RegisterNameBean E nv.1 nv.2 ;; ret (acc ++ [bd])) [] l.

(** The BeanIds of a list of beans. *)
Definition beanIds (s : state) (l : list addr) : list string :=
  omap (λ x, BeanId E <$> beans s !! x) l.

(** Go's range over a map yields every entry once, in some order. *)
Definition mapRange_valid : Prop :=
  ∀ m : gmap beanKey addr, mapRange E m ≡ₚ map_to_list m.

End Notions.

(** ** A small program to run the model on *)

Module Demo.

Definition A := TStruct "A".
Definition B := TStruct "B".
Definition C := TStruct "C".

(** [type A struct { B *B `autowire:""` }], [type B struct { A *A
    `autowire:""` }], and [type C struct {}]. *)
Definition fieldsOf (n : string) : list StructField :=
  if bool_decide (n = "A") then [mkField "B" (TPtr B) None (Some "") true]
  else if bool_decide (n = "B") then [mkField "A" (TPtr A) None (Some "") true]
  else [].

Definition env : Env :=
  mkEnv fieldsOf (λ _ _, false) (λ _ _, None) (λ _ _, None) (λ _ _ _, None)
        (λ _ _, true) map_to_list rtype_String (λ s, ("", s))
        (λ d, match springBean_Type (bean d) with
              | Some t => rtype_String t
              | None => ""
              end +:+ ":" +:+ name d)
        (λ d, name d) (λ _, "bean") (λ d, file d).

(** A heap with one [A], one [B] and one [C], a pointer variable for each
    type, and a variable of type [[]*C]. *)
Definition heap0 : state :=
  set_cells (λ _, {[ 100 := [VNil (TPtr B)]; 101 := [VNil (TPtr A)]; 102 := [];
                     110 := [VNil (TPtr A)]; 111 := [VNil (TPtr B)];
                     112 := [VNil (TPtr C)]; 113 := [VNil (TSlice (TPtr C))] ]})
    (set_next (λ _, 200) NewDefaultSpringContext).

Definition pA : value := VRef (TPtr A) 100.
Definition pB : value := VRef (TPtr B) 101.
Definition pC : value := VRef (TPtr C) 102.

Definition run {T} (m : M T) (s : state) : state := (m s).2.

(** [A] and [B] registered as object beans, not yet wired. *)
Definition registeredAB : state :=
  run (RegisterBean env pA ;; RegisterBean env pB) heap0.

(** The same after [AutoWireBeans]. *)
Definition wiredAB : state := run (AutoWireBeans env 20 0) registeredAB.

(** Two beans of type [*C]; the second can be made primary. *)
Definition twoC (primary2 : bool) : state :=
  run (RegisterNameBean env "c1" pC ;;
       c2 <- RegisterNameBean env "c2" (VRef (TPtr C) 103) ;;
       modify (set_beans (alter (λ d, mkBD (bean d) (name d) (status d) primary2
                                       (dependsOn d) (exports d) (init d)
                                       (destroy d) (file d) (line d)) c2)) ;;
       AutoWireBeans env 20 0)
      (set_cells <[103 := []]> heap0).

(** A constructor bean whose factory returns a nil [*C]. *)
Definition nilFactory : gofunc := λ _, [VNil (TPtr C)].

Definition registeredNil : state :=
  run (RegisterBeanFn env nilFactory (TPtr C) []) heap0.

(** [B] registered before [A], and the same with [ctx.Sort] set. *)
Definition registeredBA : state :=
  run (registerAll env [(EmptyString, pB); (EmptyString, pA)]) heap0.

Definition sortedBA : state := run (SetSort true) registeredBA.

(** The same program as a sequence of calls from a new context: two
    objects allocated, registered, and wired. *)
Definition reachedAB : state :=
  call env (CallAutoWireBeans 20 0)
    (call env (CallRegisterNameBean "" (VRef (TPtr B) 1))
       (call env (CallRegisterNameBean "" (VRef (TPtr A) 0))
          (call env (CallNew [VNil (TPtr A)])
             (call env (CallNew [VNil (TPtr B)]) NewDefaultSpringContext)))).

(** Three objects of type [C]; a bean holding the slice of the first two,
    a bean holding the third, and a variable of type [[]*C]; all wired. *)
Definition reachedC : state :=
  call env (CallAutoWireBeans 20 0)
    (call env (CallNew [VNil (TSlice (TPtr C))])
       (call env (CallRegisterNameBean "c" (VRef (TPtr C) 2))
          (call env (CallRegisterNameBean "cs" (VRef (TSlice (TPtr C)) 3))
             (call env (CallMakeSlice [VRef (TPtr C) 0; VRef (TPtr C) 1])
                (call env (CallNew [])
                   (call env (CallNew [])
                      (call env (CallNew []) NewDefaultSpringContext))))))).

End Demo.

(** * Properties *)

(** ** The monad *)

Lemma bind_Ok {A B} (m : M A) (f : A → M B) s a s' :
  m s = (Ok a, s') → bind m f s = f a s'.
Proof. unfold bind. by intros ->. Qed.

Lemma bind_Panic {A B} (m : M A) (f : A → M B) s e s' :
  m s = (Panic e, s') → bind m f s = (Panic e, s').
Proof. unfold bind. by intros ->. Qed.

Lemma set_trace_nil s : set_trace (λ t, t ++ []) s = s.
Proof. destruct s. unfold set_trace. simpl. by rewrite app_nil_r. Qed.

Lemma set_trace_app l1 l2 s :
  set_trace (λ t, t ++ l2) (set_trace (λ t, t ++ l1) s)
  = set_trace (λ t, t ++ (l1 ++ l2)) s.
Proof. destruct s. unfold set_trace. simpl. by rewrite app_assoc. Qed.

Lemma forM_emit {A} (f : A → event) (l : list A) s :
  forM_ l (λ w, emit (f w)) s = (Ok tt, set_trace (λ t, t ++ map f l) s).
Proof.
  revert s. induction l as [|a l IH]; intros s; simpl.
  - by rewrite set_trace_nil.
  - unfold bind, emit, modify. rewrite IH. by rewrite set_trace_app.
Qed.

(** The state after [pushBack]: the frame is on the stack and every
    watcher has seen the push. *)
Definition pushed (bd : IBeanDefinition) (s : state) : state :=
  set_trace (λ t, t ++ map (λ w, EvWatch w bd WiringEvent_Push) (seq 0 (watcher s)))
            (set_wiringStack (λ st, st ++ [bd]) s).

Lemma pushBack_pushed bd s : pushBack bd s = (Ok tt, pushed bd s).
Proof.
  unfold pushBack, notifyWatchers, bind, modify, gets. simpl.
  by rewrite forM_emit.
Qed.

Section WiringEntry.

Context (E : Env).

(** [wireBeanDefinition] on a bean whose status is Wiring. *)
Lemma wireBeanDefinition_Wiring n bd o s d :
  beans s !! ibd bd = Some d →
  status d = beanStatus_Wiring →
  wireBeanDefinition E (S n) bd o s =
    (if isObjectBean (bean d) then Ok tt else Panic CircularDependencyError,
     pushed bd s).
Proof.
  intros Hd Hst. simpl. unfold wireBeanDefinition_.
  unfold getBD. unfold bind at 1. unfold bind at 1. unfold gets, the.
  rewrite Hd. unfold ret at 1.
  rewrite Hst. simpl.
  unfold bind. rewrite pushBack_pushed.
  destruct (isObjectBean (bean d)); reflexivity.
Qed.

End WiringEntry.

(** C9: a re-entrant call on an object bean whose status is Wiring
    returns at once after the push: the frame stays on the wiring stack
    (no pop, neither on the stack nor told to the watchers), the bean
    definitions, and with them the status Wiring, are untouched, and no
    field is written. *)
Theorem C9_reentrant_object_bean_returns_after_push
    (E : Env) n bd onlyAutoWire s d v :
  beans s !! ibd bd = Some d →
  status d = beanStatus_Wiring →
  bean d = objectBean v →
  let r := wireBeanDefinition E (S n) bd onlyAutoWire s in
  r.1 = Ok tt
  ∧ wiringStack r.2 = wiringStack s ++ [bd]
  ∧ trace r.2 = trace s ++ map (λ w, EvWatch w bd WiringEvent_Push) (seq 0 (watcher s))
  ∧ beans r.2 = beans s
  ∧ beans r.2 !! ibd bd = Some d
  ∧ cells r.2 = cells s
  ∧ arrays r.2 = arrays s.
Proof.
  intros Hd Hst Hb r. subst r.
  rewrite (wireBeanDefinition_Wiring E n bd onlyAutoWire s d Hd Hst).
  rewrite Hb. simpl. repeat split; try done.
Qed.

Lemma C9_witness :
  let s := set_beans (alter (bd_set_status beanStatus_Wiring) 200) Demo.registeredAB in
  (wireBeanDefinition Demo.env 1 (IBean 200) false s).1 = Ok tt
  ∧ wiringStack (wireBeanDefinition Demo.env 1 (IBean 200) false s).2 = [IBean 200].
Proof.
  intros s.
  destruct (C9_reentrant_object_bean_returns_after_push Demo.env 0 (IBean 200) false s
              (bd_set_status beanStatus_Wiring
                 (newBeanDefinition (objectBean Demo.pA) "")) Demo.pA)
    as (H1 & H2 & _); [reflexivity | reflexivity | reflexivity |].
  split; [exact H1 | exact H2].
Defined.

(** C1 (amended): on a bean whose status is Wiring the call succeeds
    exactly when the provider is an object bean; otherwise it panics with
    the fixed error "found circle autowire", which carries no data. The
    bean has been pushed before, so the wiring stack at the failure ends
    with it. *)
Theorem C1_cycle_tolerated_iff_object_bean
    (E : Env) n bd onlyAutoWire s d :
  beans s !! ibd bd = Some d →
  status d = beanStatus_Wiring →
  let r := wireBeanDefinition E (S n) bd onlyAutoWire s in
  (r.1 = Ok tt ↔ isObjectBean (bean d) = true)
  ∧ (isObjectBean (bean d) = false → r.1 = Panic CircularDependencyError)
  ∧ wiringStack r.2 = wiringStack s ++ [bd].
Proof.
  intros Hd Hst r. subst r.
  rewrite (wireBeanDefinition_Wiring E n bd onlyAutoWire s d Hd Hst).
  simpl. destruct (isObjectBean (bean d)); simpl; repeat split; try done.
Qed.

Lemma C1_witness :
  let s := set_beans (alter (bd_set_status beanStatus_Wiring) 200) Demo.registeredNil in
  (wireBeanDefinition Demo.env 1 (IBean 200) false s).1 = Panic CircularDependencyError.
Proof.
  intros s.
  destruct (C1_cycle_tolerated_iff_object_bean Demo.env 0 (IBean 200) false s
              (bd_set_status beanStatus_Wiring
                 (newBeanDefinition
                    (constructorBean
                       (FunctionBean (TPtr Demo.C) (VNil (TPtr Demo.C)) [])
                       Demo.nilFactory) "")))
    as (_ & H & _); [reflexivity | reflexivity |].
  apply H. reflexivity.
Defined.

(** C1 as stated has the error report the wiring-stack path: the path at
    the failure would then be a function of the error. *)
Definition C1_error_reports_path (E : Env) : Prop :=
  ∃ report : error → string,
    ∀ n bd o s d e,
      beans s !! ibd bd = Some d →
      status d = beanStatus_Wiring →
      (wireBeanDefinition E (S n) bd o s).1 = Panic e →
      (wiringStack_path E (wireBeanDefinition E (S n) bd o s).2).1 = Ok (report e).

(** The same error is raised under two different wiring stacks. *)
Lemma C1_counterexample : ¬ C1_error_reports_path Demo.env.
Proof.
  intros [report H].
  set (s1 := set_beans (alter (bd_set_status beanStatus_Wiring) 200) Demo.registeredNil).
  set (s2 := set_wiringStack (λ _, [IBean 200]) s1).
  set (d := bd_set_status beanStatus_Wiring
              (newBeanDefinition
                 (constructorBean
                    (FunctionBean (TPtr Demo.C) (VNil (TPtr Demo.C)) [])
                    Demo.nilFactory) "")).
  pose proof (H 0 (IBean 200) false s1 d CircularDependencyError
                eq_refl eq_refl eq_refl) as H1.
  pose proof (H 0 (IBean 200) false s2 d CircularDependencyError
                eq_refl eq_refl eq_refl) as H2.
  vm_compute in H1. vm_compute in H2.
  rewrite <- H2 in H1. discriminate H1.
Qed.

(** ** Lookup: [getBeanValue] *)

Lemma bind_gets {A B} (f : state → A) (k : A → M B) s : bind (gets f) k s = k (f s) s.
Proof. reflexivity. Qed.
Lemma bind_ret {A B} (a : A) (k : A → M B) s : bind (ret a) k s = k a s.
Proof. reflexivity. Qed.
Lemma bind_panic {A B} e (k : A → M B) s : bind (panic e) k s = (Panic e, s).
Proof. reflexivity. Qed.
Lemma bind_modify {B} f (k : unit → M B) s : bind (modify f) k s = k tt (f s).
Proof. reflexivity. Qed.

Section GetBeanValue.

Context (E : Env).

Lemma getCacheItem_cases t s :
  (∃ c, beanCache s !! t = Some c ∧ getCacheItem t s = (Ok c, s))
  ∨ (beanCache s !! t = None ∧
     getCacheItem t s = (Ok (next s), set_items <[next s := []]> (set_next S s))).
Proof.
  unfold getCacheItem, bind, gets.
  destruct (beanCache s !! t) as [c|] eqn:Hc; [left; eauto | right].
  split; [done|]. reflexivity.
Qed.

Lemma getCacheItem_spec t s :
  ∃ c s1, getCacheItem t s = (Ok c, s1)
          ∧ default [] (items s1 !! c) = cacheBeans s t
          ∧ beans s1 = beans s.
Proof.
  unfold cacheBeans.
  destruct (getCacheItem_cases t s) as [(c & Hc & ->)|[Hc ->]]; rewrite Hc;
    eexists _, _; (split; [reflexivity|]); simpl; split; try done.
  by rewrite lookup_insert_eq.
Qed.

Lemma getBeanValue_unfold n v beanId pv field s :
  IsRefType (rKind (slot_type v)) = true →
  getBeanValue E n v beanId pv field s =
    let s1 := (getCacheItem (slot_type v) s).2 in
    let result := candidates E s (slot_type v) beanId pv in
    let prims := filter (λ b, isPrimary (beans s) b) result in
    if decide (length result = 0) then
      (if nullable E beanId then Ok false
       else Panic (BeanNotFoundError beanId field (slot_type v)), s1)
    else if decide (1 < length prims) then
      (Panic (AmbiguousPrimaryError beanId field (slot_type v)
                (descriptions E (beans s) prims)), s1)
    else if decide (length prims = 0) then
      if decide (1 < length result) then
        (Panic (AmbiguousBeanError beanId field (slot_type v)
                  (descriptions E (beans s) result)), s1)
      else match result !! 0 with
           | Some p => selectBean E n v p s1
           | None => (Panic (RuntimePanic "index out of range"), s1)
           end
    else match prims !! 0 with
         | Some p => selectBean E n v p s1
         | None => (Panic (RuntimePanic "index out of range"), s1)
         end.
Proof.
  intros Href.
  unfold getBeanValue, getBeanValue_, candidates, nullable.
  destruct (ParseBeanId E beanId) as [[tn bn] nl] eqn:HP. simpl.
  rewrite Href. simpl.
  destruct (getCacheItem_spec (slot_type v) s) as (c & s1 & Hget & Hbeans & Hbs).
  rewrite (bind_Ok _ _ _ _ _ Hget). rewrite Hget. simpl.
  unfold beanCacheItem_beans. rewrite !bind_gets.
  rewrite Hbeans, Hbs.
  set (result := filter _ (cacheBeans s (slot_type v))).
  destruct (decide (length result = 0)) as [H0|H0].
  { destruct nl; reflexivity. }
  rewrite bind_gets. rewrite Hbs.
  set (prims := filter _ result).
  destruct (decide (1 < length prims)) as [H1|H1].
  { rewrite bind_gets. rewrite Hbs. reflexivity. }
  destruct (decide (length prims = 0)) as [H2|H2].
  - destruct (decide (1 < length result)) as [H3|H3].
    { unfold bind, gets, panic. simpl. rewrite Hbs. reflexivity. }
    rewrite bind_ret.
    destruct prims; [|done]. simpl.
    destruct result as [|p result']; [done|]. simpl.
    reflexivity.
  - rewrite bind_ret.
    destruct prims as [|p prims']; [done|]. simpl. reflexivity.
Qed.
End GetBeanValue.

Lemma filter_none {A} (P : A → Prop) `{∀ x, Decision (P x)} (l : list A) :
  Forall (λ x, ¬ P x) l → filter P l = [].
Proof.
  induction 1 as [|x l Hx _ IH]; [done|].
  by rewrite filter_cons_False.
Qed.

Lemma filter_unique {A} (P : A → Prop) `{∀ x, Decision (P x)} (l1 l2 : list A) p :
  P p → Forall (λ x, ¬ P x) (l1 ++ l2) → filter P (l1 ++ p :: l2) = [p].
Proof.
  intros Hp [H1 H2]%Forall_app.
  rewrite filter_app, filter_cons_True by done.
  by rewrite !filter_none.
Qed.

Lemma candidates_cached (E : Env) s t beanId pv :
  candidates E s t beanId pv ≠ [] → (getCacheItem t s).2 = s.
Proof.
  intros Hne.
  destruct (getCacheItem_cases t s) as [(c & Hc & ->)|[Hc _]]; [done|].
  exfalso. apply Hne. unfold candidates, cacheBeans. by rewrite Hc.
Qed.

(** [getBeanValue] on an empty candidate set. *)
Lemma getBeanValue_no_candidate
    (E : Env) n v beanId parentValue field s :
  IsRefType (rKind (slot_type v)) = true →
  candidates E s (slot_type v) beanId parentValue = [] →
  let r := getBeanValue E n v beanId parentValue field s in
  (nullable E beanId = true → r.1 = Ok false)
  ∧ (nullable E beanId = false →
     r.1 = Panic (BeanNotFoundError beanId field (slot_type v)))
  ∧ beans r.2 = beans s ∧ cells r.2 = cells s
  ∧ wiringStack r.2 = wiringStack s ∧ beanCache r.2 = beanCache s.
Proof.
  intros Href Hc r. subst r.
  rewrite getBeanValue_unfold by done. simpl. rewrite Hc. simpl.
  assert (Hfr : beans (getCacheItem (slot_type v) s).2 = beans s
                ∧ cells (getCacheItem (slot_type v) s).2 = cells s
                ∧ wiringStack (getCacheItem (slot_type v) s).2 = wiringStack s
                ∧ beanCache (getCacheItem (slot_type v) s).2 = beanCache s).
  { destruct (getCacheItem_cases (slot_type v) s) as [(c & _ & ->)|[_ ->]]; done. }
  destruct (nullable E beanId); simpl; repeat split; try done; apply Hfr.
Qed.

(** C4: with an empty candidate set the lookup returns false when the
    selector is nullable, and panics with "can't find bean" otherwise;
    nothing is wired and nothing is written. *)
Theorem C4_no_candidate_nullable_or_not_found
    (E : Env) n v beanId parentValue field s :
  IsRefType (rKind (slot_type v)) = true →
  candidates E s (slot_type v) beanId parentValue = [] →
  let r := getBeanValue E n v beanId parentValue field s in
  (nullable E beanId = true → r.1 = Ok false)
  ∧ (nullable E beanId = false →
     r.1 = Panic (BeanNotFoundError beanId field (slot_type v)))
  ∧ beans r.2 = beans s ∧ cells r.2 = cells s
  ∧ wiringStack r.2 = wiringStack s ∧ beanCache r.2 = beanCache s.
Proof.
  intros Href Hc. by apply getBeanValue_no_candidate.
Qed.

Lemma C4_witness :
  (getBeanValue Demo.env 0 (Slot 112 0 (TPtr Demo.C) true) "?" VInvalid "" Demo.wiredAB).1
    = Ok false
  ∧ (getBeanValue Demo.env 0 (Slot 112 0 (TPtr Demo.C) true) "" VInvalid "" Demo.wiredAB).1
    = Panic (BeanNotFoundError "" "" (TPtr Demo.C)).
Proof.
  split.
  - apply (C4_no_candidate_nullable_or_not_found Demo.env 0
             (Slot 112 0 (TPtr Demo.C) true) "?" VInvalid "" Demo.wiredAB);
      reflexivity.
  - apply (C4_no_candidate_nullable_or_not_found Demo.env 0
             (Slot 112 0 (TPtr Demo.C) true) "" VInvalid "" Demo.wiredAB);
      reflexivity.
Defined.

(** C2: the disambiguation of [getBeanValue] on its candidate set. With
    more than one primary candidate the lookup panics and lists the
    primary candidates; with exactly one, wherever it stands among the
    candidates, that one is selected; with none and more than one
    candidate the lookup panics and lists all candidates; with none and
    one candidate that one is selected. Selecting a bean is wiring it and
    then storing its value into the target. *)
Theorem C2_primary_disambiguation
    (E : Env) n v beanId parentValue field s :
  IsRefType (rKind (slot_type v)) = true →
  let cands := candidates E s (slot_type v) beanId parentValue in
  let prims := filter (λ b, isPrimary (beans s) b) cands in
  let r := getBeanValue E n v beanId parentValue field s in
  (1 < length prims →
   r = (Panic (AmbiguousPrimaryError beanId field (slot_type v)
                 (descriptions E (beans s) prims)), s))
  ∧ (∀ l1 p l2,
       cands = l1 ++ p :: l2 →
       isPrimary (beans s) p = true →
       Forall (λ b, isPrimary (beans s) b = false) (l1 ++ l2) →
       r = selectBean E n v p s)
  ∧ (prims = [] → 1 < length cands →
     r = (Panic (AmbiguousBeanError beanId field (slot_type v)
                   (descriptions E (beans s) cands)), s))
  ∧ (∀ c, prims = [] → cands = [c] → r = selectBean E n v c s).
Proof.
  intros Href cands prims r.
  assert (Hr : cands ≠ [] → (getCacheItem (slot_type v) s).2 = s).
  { apply candidates_cached. }
  subst r. rewrite getBeanValue_unfold by done. simpl.
  fold cands. fold prims.
  repeat split.
  - intros H1.
    assert (cands ≠ []) as Hne.
    { intros Hc. subst prims. rewrite Hc in H1. simpl in H1. lia. }
    rewrite (Hr Hne).
    repeat case_decide; try done; try lia.
    destruct cands; done.
  - intros l1 p l2 Hc Hp Hnp.
    assert (prims = [p]) as Hprims.
    { subst prims. rewrite Hc. apply filter_unique; [by rewrite Hp|].
      eapply Forall_impl; [exact Hnp|]. intros b Hb. rewrite Hb. simpl. tauto. }
    assert (cands ≠ []) as Hne by (rewrite Hc; by destruct l1).
    rewrite (Hr Hne), Hprims.
    repeat case_decide; simpl in *; try done; try lia.
    destruct cands; done.
  - intros Hp H1.
    assert (cands ≠ []) as Hne by (intros Hc; rewrite Hc in H1; simpl in H1; lia).
    rewrite (Hr Hne), Hp.
    repeat case_decide; simpl in *; try done; try lia.
  - intros c Hp Hc.
    assert (cands ≠ []) as Hne by (by rewrite Hc).
    rewrite (Hr Hne), Hp, Hc.
    repeat case_decide; simpl in *; try done; try lia.
Qed.

Lemma C2_witness :
  getBeanValue Demo.env 1 (Slot 112 0 (TPtr Demo.C) true) "" VInvalid "" (Demo.twoC true)
  = selectBean Demo.env 1 (Slot 112 0 (TPtr Demo.C) true) 201 (Demo.twoC true)
  ∧ (getBeanValue Demo.env 1 (Slot 112 0 (TPtr Demo.C) true) "" VInvalid ""
       (Demo.twoC false)).1
    = Panic (AmbiguousBeanError "" "" (TPtr Demo.C) ["c1"; "c2"]).
Proof.
  split.
  - refine (proj1 (proj2 (C2_primary_disambiguation Demo.env 1
              (Slot 112 0 (TPtr Demo.C) true) "" VInvalid "" (Demo.twoC true) eq_refl))
              [200] 201 [] _ _ _).
    + reflexivity.
    + reflexivity.
    + repeat constructor.
  - rewrite (proj1 (proj2 (proj2 (C2_primary_disambiguation Demo.env 1
              (Slot 112 0 (TPtr Demo.C) true) "" VInvalid "" (Demo.twoC false) eq_refl)))).
    + reflexivity.
    + reflexivity.
    + vm_compute. lia.
Defined.

(** ** The nullable mark of [GetBean] and [GetBeanByName] *)

Lemma string_last_app_mark s : string_last (s +:+ "?") = Some "?"%char.
Proof.
  induction s as [|c s IH]; [done|].
  simpl. destruct s; simpl in *; done.
Qed.

Lemma withNullable_cases beanId :
  (withNullable beanId = beanId +:+ "?"
   ∧ (beanId = "" ∨ string_last beanId ≠ Some "?"%char))
  ∨ (withNullable beanId = beanId ∧ string_last beanId = Some "?"%char).
Proof.
  unfold withNullable.
  destruct (decide (beanId = "")) as [->|Hne]; [left; split; [done|by left]|].
  rewrite (bool_decide_eq_false_2 _ Hne). simpl.
  destruct (decide (string_last beanId = Some "?"%char)) as [Hl|Hl].
  - rewrite (bool_decide_eq_true_2 _ Hl). simpl. by right.
  - rewrite (bool_decide_eq_false_2 _ Hl). simpl. left. split; [done|by right].
Qed.

Lemma withNullable_last beanId : string_last (withNullable beanId) = Some "?"%char.
Proof.
  destruct (withNullable_cases beanId) as [[-> _]|[-> H]]; [|done].
  apply string_last_app_mark.
Qed.

Lemma withNullable_nullable (E : Env) beanId : nullable E (withNullable beanId) = true.
Proof.
  unfold nullable, ParseBeanId. simpl.
  apply bool_decide_eq_true_2, withNullable_last.
Qed.

(** C10: [GetBeanByName] appends ['?'] to a selector that is empty or
    does not end in ['?'], so the selector it looks up is nullable; a
    lookup through [GetBeanByName] or [GetBean] with an empty candidate
    set returns false. *)
Theorem C10_GetBean_without_candidate_returns_false
    (E : Env) n beanId t a w s :
  autoWired s = true →
  IsRefType (rKind t) = true →
  ((withNullable beanId = beanId +:+ "?"
    ∧ (beanId = "" ∨ string_last beanId ≠ Some "?"%char))
   ∨ (withNullable beanId = beanId ∧ string_last beanId = Some "?"%char))
  ∧ nullable E (withNullable beanId) = true
  ∧ (candidates E s t (withNullable beanId) VInvalid = [] →
     (GetBeanByName E n beanId (VRef (TPtr t) a) w s).1 = Ok false)
  ∧ (candidates E s t "?" VInvalid = [] →
     (GetBean E n (VRef (TPtr t) a) w s).1 = Ok false).
Proof.
  intros Haw Href.
  split; [apply withNullable_cases|].
  split; [apply withNullable_nullable|].
  assert (Hgen : ∀ id, candidates E s t (withNullable id) VInvalid = [] →
                       (GetBeanByName E n id (VRef (TPtr t) a) w s).1 = Ok false).
  { intros id Hc.
    unfold GetBeanByName.
    assert (Hck : checkAutoWired s = (Ok tt, s)).
    { unfold checkAutoWired. by rewrite bind_gets, Haw. }
    rewrite (bind_Ok _ _ _ _ _ Hck). simpl.
    rewrite bind_ret. simpl.
    erewrite bind_Ok by reflexivity.
    rewrite bind_ret.
    set (s' := set_watcher _ _).
    apply (getBeanValue_no_candidate E n (Slot a 0 t true)
             (withNullable id) VInvalid "" s' Href);
      [exact Hc | apply withNullable_nullable]. }
  split; [apply Hgen|].
  intros Hc. unfold GetBean. apply Hgen. exact Hc.
Qed.

Lemma C10_witness :
  (GetBeanByName Demo.env 0 "c" (VRef (TPtr (TPtr Demo.C)) 112) 0 Demo.wiredAB).1 = Ok false
  ∧ (GetBean Demo.env 0 (VRef (TPtr (TPtr Demo.C)) 112) 0 Demo.wiredAB).1 = Ok false.
Proof.
  destruct (C10_GetBean_without_candidate_returns_false Demo.env 0 "c"
              (TPtr Demo.C) 112 0 Demo.wiredAB eq_refl eq_refl)
    as (_ & _ & H1 & H2).
  split; [apply H1 | apply H2]; reflexivity.
Defined.

(** ** The bean cache *)

(** C5 as stated, for a get operation of the cache: on a type the cache
    does not hold, it returns an empty item and puts it into the cache. *)
Definition C5_get_creates_entry (get : rtype → M addr) : Prop :=
  ∀ t s, beanCache s !! t = None →
    ∃ c, (get t s).1 = Ok c
         ∧ items (get t s).2 !! c = Some []
         ∧ beanCache (get t s).2 !! t = Some c.

(** [getCacheItem], the get operation of the bean assembly, leaves the
    cache map as it is. *)
Lemma C5_counterexample : ¬ C5_get_creates_entry getCacheItem.
Proof.
  intros H.
  destruct (H (TPtr Demo.C) NewDefaultSpringContext eq_refl) as (c & _ & _ & Hc).
  vm_compute in Hc. discriminate Hc.
Qed.

(** C5 (amended): on a type the cache does not hold, [findCacheItem]
    returns a new empty item and puts it into the cache map, so that a
    bean stored into the item is found under the type afterwards;
    [getCacheItem] returns a new empty item as well, without failing, but
    leaves the cache map unchanged. *)
Theorem C5_findCacheItem_creates_getCacheItem_does_not t bd s :
  beanCache s !! t = None →
  (let r := findCacheItem t s in
   r.1 = Ok (next s)
   ∧ items r.2 !! next s = Some []
   ∧ beanCache r.2 !! t = Some (next s)
   ∧ let r' := beanCacheItem_store (next s) t bd r.2 in
     cacheBeans r'.2 t = [bd]
     ∧ findCacheItem t r'.2 = (Ok (next s), r'.2)
     ∧ getCacheItem t r'.2 = (Ok (next s), r'.2))
  ∧ (let g := getCacheItem t s in
     g.1 = Ok (next s)
     ∧ items g.2 !! next s = Some []
     ∧ beanCache g.2 = beanCache s
     ∧ cacheBeans (beanCacheItem_store (next s) t bd g.2).2 t = []).
Proof.
  intros Hc. split.
  - unfold findCacheItem. rewrite bind_gets, Hc. simpl.
    unfold cacheBeans, getCacheItem, findCacheItem, beanCacheItem_store,
      newBeanCacheItem, fresh, bind, modify, gets, ret. simpl.
    rewrite !lookup_insert_eq. simpl.
    rewrite lookup_alter_eq, lookup_insert_eq. simpl.
    repeat split; done.
  - unfold getCacheItem. rewrite bind_gets, Hc. simpl.
    unfold cacheBeans, beanCacheItem_store,
      newBeanCacheItem, fresh, bind, modify, gets, ret. simpl.
    rewrite lookup_insert_eq, Hc. repeat split; done.
Qed.

Lemma C5_witness :
  beanCache (findCacheItem (TPtr Demo.C) Demo.wiredAB).2 !! TPtr Demo.C = Some 204
  ∧ beanCache (getCacheItem (TPtr Demo.C) Demo.wiredAB).2 = beanCache Demo.wiredAB.
Proof.
  pose proof (C5_findCacheItem_creates_getCacheItem_does_not
                (TPtr Demo.C) 200 Demo.wiredAB eq_refl) as [(_ & _ & H1 & _) (_ & _ & H2 & _)].
  split; [exact H1 | exact H2].
Defined.

(** ** Function beans: [wireFunctionBean] *)

Section FunctionBean.

Context (E : Env).
Variable wire : IBeanDefinition → bool → M unit.

Definition functionBeanOf (b : springBean) : option functionBean :=
  match b with
  | constructorBean fb _ | methodBean fb _ _ => Some fb
  | _ => None
  end.

Lemma springBean_functionBean_Some b fb s :
  functionBeanOf b = Some fb → springBean_functionBean b s = (Ok fb, s).
Proof. destruct b; simpl; intros [= <-]; done. Qed.

Lemma getBD_Some a d s : beans s !! a = Some d → getBD a s = (Ok d, s).
Proof. intros H. unfold getBD. rewrite bind_gets, H. done. Qed.

(** A second result that is a non-nil error fails the call with
    "function bean: ... return error: ...". *)
Lemma wireFunctionBean_returned_error fn bd s d fb in_ s1 val err :
  beans s !! ibd bd = Some d →
  functionBeanOf (bean d) = Some fb →
  arg_Get E wire (fb_arg fb) s = (Ok in_, s1) →
  fn in_ = [val; err] →
  Interface_isNil err = false →
  wireFunctionBean_ E wire (Some fn) bd s
  = (Panic (ConstructorError (Caller E d) err), s1).
Proof.
  intros Hd Hfb Harg Hout Herr.
  unfold wireFunctionBean_.
  rewrite (bind_Ok _ _ _ _ _ (getBD_Some _ _ _ Hd)).
  rewrite (bind_Ok _ _ _ _ _ (springBean_functionBean_Some _ _ _ Hfb)).
  rewrite (bind_Ok _ _ _ _ _ Harg).
  simpl. rewrite bind_ret. rewrite Hout. simpl. rewrite bind_ret.
  unfold bind at 1. unfold bind at 1. simpl. unfold ret at 1.
  rewrite Herr. simpl. done.
Qed.

(** A nil interface returned by a factory whose result type is an
    interface fails the call with "function bean: ... return nil". *)
Lemma wireFunctionBean_returned_nil_interface fn bd s d fb in_ s1 d1 fb1 i j :
  beans s !! ibd bd = Some d →
  functionBeanOf (bean d) = Some fb →
  arg_Get E wire (fb_arg fb) s = (Ok in_, s1) →
  fn in_ = [VNil (TInterface j)] →
  beans s1 !! ibd bd = Some d1 →
  functionBeanOf (bean d1) = Some fb1 →
  fb_rType fb1 = TInterface i →
  ∃ d', (wireFunctionBean_ E wire (Some fn) bd s).1 = Panic (NilBeanError (Caller E d')).
Proof.
  intros Hd Hfb Harg Hout Hd1 Hfb1 Hty.
  unfold wireFunctionBean_.
  rewrite (bind_Ok _ _ _ _ _ (getBD_Some _ _ _ Hd)).
  rewrite (bind_Ok _ _ _ _ _ (springBean_functionBean_Some _ _ _ Hfb)).
  rewrite (bind_Ok _ _ _ _ _ Harg).
  simpl. rewrite bind_ret. rewrite Hout. simpl. rewrite !bind_ret.
  rewrite (bind_Ok _ _ _ _ _ (getBD_Some _ _ _ Hd1)).
  rewrite (bind_Ok _ _ _ _ _ (springBean_functionBean_Some _ _ _ Hfb1)).
  unfold bind at 1. unfold bind at 1. unfold bind at 1. simpl.
  unfold rValue_Set, modify. simpl.
  match goal with
  | |- ∃ _, (_ ?s2).1 = _ =>
      assert (Hd2 : ∃ d2, beans s2 !! ibd bd = Some d2
                          ∧ functionBeanOf (bean d2)
                            = Some (FunctionBean (TInterface i) (VNil (TInterface i))
                                                 (fb_arg fb1)))
  end.
  { simpl. rewrite lookup_alter_eq, Hd1. simpl. eexists. split; [reflexivity|].
    destruct (bean d1) as [| fb' f | fb' p m |] eqn:Hb; simpl in *; try done;
      injection Hfb1 as ->; rewrite Hty; simpl; done. }
  destruct Hd2 as (d2 & Hd2 & Hfb2).
  rewrite (bind_Ok _ _ _ _ _ (getBD_Some _ _ _ Hd2)).
  rewrite (bind_Ok _ _ _ _ _ (springBean_functionBean_Some _ _ _ Hfb2)).
  simpl. eexists. reflexivity.
Qed.

End FunctionBean.

(** C3, at the input where the code departs from it: a constructor bean
    whose factory [func() *C] returns a nil pointer. No panic is raised:
    the nil pointer becomes the value of the bean, is wrapped as an object
    bean and wired, and the bean ends in status Wired. *)
Theorem C3_nil_pointer_passes_the_nil_check :
  let r := wireBeanDefinition Demo.env 5 (IBean 200) false Demo.registeredNil in
  r.1 = Ok tt
  ∧ beanValue r.2 200 = VNil (TPtr Demo.C)
  ∧ status <$> beans r.2 !! 200 = Some beanStatus_Wired
  ∧ (wireFunctionBean Demo.env 4 (Some Demo.nilFactory) (IBean 200)
       Demo.registeredNil).1 = Ok tt.
Proof. vm_compute. repeat split; reflexivity. Qed.

(** ** The invariant of the stores, and what an operation may change *)

Definition live (st : beanStatus) : Prop :=
  st ≠ beanStatus_Default ∧ st ≠ beanStatus_Deleted.

(** Every cached bean is live (neither in status Default nor deleted), the
    next free address is free in every store, and the cache map points to
    items of the store. *)
Record Inv (s : state) : Prop := mkInv {
  inv_cached : ∀ x, cached s x → ∃ d, beans s !! x = Some d ∧ live (status d);
  inv_beans : ∀ x, is_Some (beans s !! x) → x < next s;
  inv_items : ∀ c, is_Some (items s !! c) → c < next s;
  inv_arrays : ∀ a, is_Some (arrays s !! a) → a < next s;
  inv_cache : ∀ t c, beanCache s !! t = Some c → is_Some (items s !! c)
}.

(** What every operation leaves alone: slices, wired beans (but the beans
    in [X], which the running call is working on), and the fact that a
    bean has left status Default. *)
Record FrameNR (X : list addr) (s s' : state) : Prop := mkFrameNR {
  fr_next : next s ≤ next s';
  fr_arrays : ∀ a l, arrays s !! a = Some l → arrays s' !! a = Some l;
  fr_wired : ∀ x d, x ∉ X → beans s !! x = Some d →
                    status d = beanStatus_Wired → beans s' !! x = Some d;
  fr_nondefault : ∀ x d, beans s !! x = Some d →
                    status d ≠ beanStatus_Default →
                    ∃ d', beans s' !! x = Some d' ∧ status d' ≠ beanStatus_Default
}.

Section Frames.

Context (E : Env).

(** Once every registered bean has been resolved, the bean map and the
    cache stay as they are. *)
Definition FrameR (s s' : state) : Prop :=
  AllResolved E s →
  beanMap s' = beanMap s ∧ beanCache s' = beanCache s
  ∧ ∀ c l, items s !! c = Some l → items s' !! c = Some l.

Definition Gnr (X : list addr) (s s' : state) : Prop :=
  Inv s → Inv s' ∧ FrameNR X s s'.

Definition G (X : list addr) (s s' : state) : Prop :=
  Inv s → Inv s' ∧ FrameNR X s s' ∧ FrameR s s'.

(** The changes the bean assembly makes by itself: allocations, and
    updates of beans in [X] that keep the status or make it live. *)
Record Ext (X : list addr) (s s' : state) : Prop := mkExt {
  ext_next : next s ≤ next s';
  ext_arrays_old : ∀ a l, arrays s !! a = Some l → arrays s' !! a = Some l;
  ext_arrays_new : ∀ a, arrays s !! a = None → is_Some (arrays s' !! a) → a < next s';
  ext_beanMap : beanMap s' = beanMap s;
  ext_beanCache : beanCache s' = beanCache s;
  ext_items_old : ∀ c l, items s !! c = Some l → items s' !! c = Some l;
  ext_items_new : ∀ c l, items s !! c = None → items s' !! c = Some l →
                         l = [] ∧ c < next s';
  ext_beans_old : ∀ x d, beans s !! x = Some d → x ∉ X → beans s' !! x = Some d;
  ext_beans_X : ∀ x d, beans s !! x = Some d → x ∈ X →
                  ∃ d', beans s' !! x = Some d'
                        ∧ (status d' = status d ∨ live (status d'));
  ext_beans_new : ∀ x, beans s !! x = None → is_Some (beans s' !! x) → x < next s'
}.

Lemma FrameNR_refl X s : FrameNR X s s.
Proof. split; eauto. Qed.

Lemma FrameNR_trans X s1 s2 s3 :
  FrameNR X s1 s2 → FrameNR X s2 s3 → FrameNR X s1 s3.
Proof.
  intros [N1 A1 W1 D1] [N2 A2 W2 D2]. split.
  - lia.
  - eauto.
  - intros x d Hx Hd Hw. apply W2; [done| |done]. by apply W1.
  - intros x d Hd Hnd. destruct (D1 x d Hd Hnd) as (d' & Hd' & Hnd'). eauto.
Qed.

Lemma FrameNR_mono X Y s s' : (∀ x, x ∈ X → x ∈ Y) → FrameNR X s s' → FrameNR Y s s'.
Proof.
  intros HXY [N A W D]. split; eauto.
Qed.

Lemma AllResolved_frame X s s' :
  FrameNR X s s' → beanMap s' = beanMap s → AllResolved E s → AllResolved E s'.
Proof.
  intros [_ _ _ D] Hm Hr kb Hkb. rewrite Hm in Hkb.
  destruct (Hr kb Hkb) as (d & Hd & Hnd). eauto.
Qed.

Lemma G_refl X s : G X s s.
Proof. intros HI. split; [done|]. split; [apply FrameNR_refl|]. by intros _. Qed.

Lemma G_trans X s1 s2 s3 : G X s1 s2 → G X s2 s3 → G X s1 s3.
Proof.
  intros H12 H23 HI.
  destruct (H12 HI) as (HI2 & F12 & R12).
  destruct (H23 HI2) as (HI3 & F23 & R23).
  split; [done|]. split; [by eapply FrameNR_trans|].
  intros Hr. destruct (R12 Hr) as (Hm & Hc & Hi).
  assert (AllResolved E s2) as Hr2 by (by eapply AllResolved_frame).
  destruct (R23 Hr2) as (Hm' & Hc' & Hi').
  split; [congruence|]. split; [congruence|]. eauto.
Qed.

Lemma G_mono X Y s s' : (∀ x, x ∈ X → x ∈ Y) → G X s s' → G Y s s'.
Proof.
  intros HXY H HI. destruct (H HI) as (HI' & F & R).
  split; [done|]. split; [by eapply FrameNR_mono|done].
Qed.

Lemma Gnr_refl X s : Gnr X s s.
Proof. intros HI. split; [done|apply FrameNR_refl]. Qed.

Lemma Gnr_trans X s1 s2 s3 : Gnr X s1 s2 → Gnr X s2 s3 → Gnr X s1 s3.
Proof.
  intros H12 H23 HI.
  destruct (H12 HI) as (HI2 & F12).
  destruct (H23 HI2) as (HI3 & F23).
  split; [done|by eapply FrameNR_trans].
Qed.

Lemma G_Gnr X s s' : G X s s' → Gnr X s s'.
Proof. intros H HI. destruct (H HI) as (? & ? & _). done. Qed.

(** The changes of [Ext] keep the invariant and the frame. *)
Lemma G_of_Ext X s s' : Ext X s s' → G X s s'.
Proof.
  intros [N Ao An Hm Hc Io In Bo BX Bn] [IC IB II IA IK].
  split; [split|split; [split|]].
  - intros x (t & c & l & Ht & Hl & Hx).
    rewrite Hc in Ht.
    destruct (items s !! c) as [l0|] eqn:Hl0.
    + rewrite (Io _ _ Hl0) in Hl. injection Hl as <-.
      destruct (IC x) as (d & Hd & Hlive); [by exists t, c, l0|].
      destruct (decide (x ∈ X)) as [HX|HX].
      * destruct (BX x d Hd HX) as (d' & Hd' & [Hst|Hst]); exists d'.
        -- by rewrite Hst.
        -- done.
      * exists d. split; [by apply Bo|done].
    + destruct (In _ _ Hl0 Hl) as [-> _]. by apply elem_of_nil in Hx.
  - intros x Hx. destruct (beans s !! x) as [d|] eqn:Hd.
    + assert (x < next s) by (apply IB; eauto). lia.
    + by apply Bn.
  - intros c [l Hl]. destruct (items s !! c) as [l0|] eqn:Hl0.
    + assert (c < next s) by (apply II; eauto). lia.
    + by destruct (In _ _ Hl0 Hl).
  - intros a Ha. destruct (arrays s !! a) as [l0|] eqn:Hl0.
    + assert (a < next s) by (apply IA; eauto). lia.
    + by apply An.
  - intros t c Ht. rewrite Hc in Ht. destruct (IK t c Ht) as [l Hl]. eauto.
  - done.
  - done.
  - intros x d Hx Hd _. by apply Bo.
  - intros x d Hd Hnd. destruct (decide (x ∈ X)) as [HX|HX].
    + destruct (BX x d Hd HX) as (d' & Hd' & [Hst|[Hst _]]); exists d'.
      * by rewrite Hst.
      * done.
    + exists d. split; [by apply Bo|done].
  - intros _. done.
Qed.

Lemma Ext_refl X s : Ext X s s.
Proof.
  split; eauto; try (intros ? Hn [? Hs]; congruence);
    try (intros c l Hn Hs; congruence).
Qed.

(** A change outside the stores and the registry. *)
Lemma Ext_core X s s' :
  next s' = next s → beans s' = beans s → items s' = items s →
  arrays s' = arrays s → beanMap s' = beanMap s → beanCache s' = beanCache s →
  Ext X s s'.
Proof.
  intros Hn Hb Hi Ha Hm Hc.
  split; rewrite ?Hn, ?Hb, ?Hi, ?Ha, ?Hm, ?Hc; eauto;
    try (intros ? Hx [? Hs]; congruence);
    try (intros c l Hx Hs; congruence).
Qed.

End Frames.

(** ** Reasoning on monadic code, one step at a time *)

(** Every run of [m] relates the state it starts in to the state it ends
    in, whatever the outcome. *)
Definition steps {A} (R : state → state → Prop) (m : M A) : Prop :=
  ∀ s, R s (m s).2.

Section Steps.

Context (R : state → state → Prop) `{!Reflexive R, !Transitive R}.

Lemma steps_ret {A} (a : A) : steps R (ret a).
Proof. intros s. simpl. reflexivity. Qed.

Lemma steps_panic {A} e : steps R (@panic A e).
Proof. intros s. simpl. reflexivity. Qed.

Lemma steps_outOfFuel {A} : steps R (@outOfFuel A).
Proof. intros s. simpl. reflexivity. Qed.

Lemma steps_gets {A} (f : state → A) : steps R (gets f).
Proof. intros s. simpl. reflexivity. Qed.

Lemma steps_the {A} (o : option A) msg : steps R (the o msg).
Proof. destruct o; [apply steps_ret|apply steps_panic]. Qed.

Lemma steps_bind {A B} (m : M A) (f : A → M B) :
  steps R m → (∀ a, steps R (f a)) → steps R (bind m f).
Proof.
  intros Hm Hf s. unfold bind.
  specialize (Hm s). destruct (m s) as [[a|e|] s1]; simpl in *; try done.
  etransitivity; [exact Hm|apply Hf].
Qed.

Lemma steps_when b (m : M unit) : steps R m → steps R (when b m).
Proof. destruct b; [done|intros _; apply steps_ret]. Qed.

Lemma steps_forM_ {A} (l : list A) (f : A → M unit) :
  (∀ x, steps R (f x)) → steps R (forM_ l f).
Proof.
  intros Hf. induction l as [|x l IH]; simpl.
  - apply steps_ret.
  - apply steps_bind; [apply Hf|intros _; apply IH].
Qed.

Lemma steps_foldM {A B} (f : B → A → M B) (b : B) (l : list A) :
  (∀ b x, steps R (f b x)) → steps R (foldM f b l).
Proof.
  intros Hf. revert b. induction l as [|x l IH]; intros b; simpl.
  - apply steps_ret.
  - apply steps_bind; [apply Hf|intros b'; apply IH].
Qed.

Lemma steps_recovering {A} (m : M A) (h : error → M A) :
  steps R m → (∀ e, steps R (h e)) → steps R (recovering m h).
Proof.
  intros Hm Hh s. unfold recovering.
  specialize (Hm s). destruct (m s) as [[a|e|] s1]; simpl in *; try done.
  etransitivity; [exact Hm|apply Hh].
Qed.

End Steps.

Lemma steps_impl {A} (R R' : state → state → Prop) (m : M A) :
  (∀ s s', R s s' → R' s s') → steps R m → steps R' m.
Proof. intros HR Hm s. apply HR, Hm. Qed.

Create HintDb steps.

(** One step of a proof of [steps]: split a bind, a loop or a case
    distinction, or close a call by a known fact. *)
Ltac steps_step :=
  match goal with
  | |- steps ?R (ret _) => apply (steps_ret R)
  | |- steps ?R (panic _) => apply (steps_panic R)
  | |- steps ?R outOfFuel => apply (steps_outOfFuel R)
  | |- steps ?R (gets _) => apply (steps_gets R)
  | |- steps ?R (the _ _) => apply (steps_the R)
  | |- steps ?R (bind _ _) => apply (steps_bind R); [|intros ?]
  | |- steps ?R (when _ _) => apply (steps_when R)
  | |- steps ?R (forM_ _ _) => apply (steps_forM_ R); intros ?
  | |- steps ?R (foldM _ _ _) => apply (steps_foldM R); intros ? ?
  | |- steps _ (match ?x with _ => _ end) => destruct x
  | |- steps _ (if ?x then _ else _) => destruct x
  | |- steps _ _ => assumption
  | |- steps _ _ => solve [eauto with steps]
  end.

Ltac steps_auto := repeat steps_step.

Section Primitives.

Context (E : Env).

Global Instance G_Reflexive X : Reflexive (G E X).
Proof. intros s. apply G_refl. Qed.

Global Instance G_Transitive X : Transitive (G E X).
Proof. intros s1 s2 s3. apply G_trans. Qed.

Global Instance Gnr_Reflexive X : Reflexive (Gnr X).
Proof. intros s. apply Gnr_refl. Qed.

Global Instance Gnr_Transitive X : Transitive (Gnr X).
Proof. intros s1 s2 s3. apply Gnr_trans. Qed.

Lemma steps_G_nil {A} X (m : M A) : steps (G E []) m → steps (G E X) m.
Proof.
  apply steps_impl. intros s s'. apply G_mono. intros x Hx.
  by apply elem_of_nil in Hx.
Qed.

Lemma steps_modify_core X (f : state → state) :
  (∀ s, next (f s) = next s ∧ beans (f s) = beans s ∧ items (f s) = items s
        ∧ arrays (f s) = arrays s ∧ beanMap (f s) = beanMap s
        ∧ beanCache (f s) = beanCache s) →
  steps (G E X) (modify f).
Proof.
  intros Hf s. simpl. apply G_of_Ext.
  destruct (Hf s) as (? & ? & ? & ? & ? & ?). by apply Ext_core.
Qed.

Lemma steps_emit X e : steps (G E X) (emit e).
Proof. apply steps_modify_core. intros s. repeat split. Qed.

Lemma steps_set_cells X f : steps (G E X) (modify (set_cells f)).
Proof. apply steps_modify_core. intros s. repeat split. Qed.

Lemma steps_set_wiringStack X f : steps (G E X) (modify (set_wiringStack f)).
Proof. apply steps_modify_core. intros s. repeat split. Qed.

Lemma steps_set_watcher X n : steps (G E X) (modify (set_watcher n)).
Proof. apply steps_modify_core. intros s. repeat split. Qed.

Lemma steps_fresh X : steps (G E X) fresh.
Proof.
  intros s. simpl. apply G_of_Ext.
  split; simpl; eauto; try (intros ? Hn [? Hs]; congruence);
    try (intros c l Hn Hs; congruence).
Qed.

Lemma steps_newBD X d : steps (G E X) (newBD d).
Proof.
  intros s HI. refine (G_of_Ext E X _ _ _ HI).
  assert (beans s !! next s = None) as Hfresh.
  { destruct (beans s !! next s) eqn:Hn; [|done].
    assert (next s < next s) by (apply (inv_beans _ HI); eauto). lia. }
  split; simpl; eauto; try (intros ? Hn [? Hs]; congruence);
    try (intros c l Hn Hs; congruence).
  - intros x d' Hx _. rewrite lookup_insert_ne; [done|]. intros <-. congruence.
  - intros x d' Hx _. exists d'. split; [|by left].
    rewrite lookup_insert_ne; [done|]. intros <-. congruence.
  - intros x Hx [d' Hs]. destruct (decide (next s = x)) as [<-|Hne]; [lia|].
    rewrite lookup_insert_ne in Hs by done. congruence.
Qed.

(** An update of a bean in [X] that keeps its status or makes it live. *)
Lemma steps_alter_bean X (f : BeanDefinition → BeanDefinition) x :
  x ∈ X →
  (∀ d, status (f d) = status d ∨ live (status (f d))) →
  steps (G E X) (modify (set_beans (alter f x))).
Proof.
  intros HX Hf s. simpl. apply G_of_Ext.
  split; simpl; eauto; try (intros ? Hn [? Hs]; congruence);
    try (intros c l Hn Hs; congruence).
  - intros y d Hy HyX. rewrite lookup_alter_ne; [done|]. intros <-. done.
  - intros y d Hy _. destruct (decide (x = y)) as [<-|Hne].
    + rewrite lookup_alter_eq, Hy. simpl. eauto.
    + rewrite lookup_alter_ne by done. eauto.
  - intros y Hy [d Hs]. destruct (decide (x = y)) as [<-|Hne].
    + rewrite lookup_alter_eq, Hy in Hs. done.
    + rewrite lookup_alter_ne in Hs by done. congruence.
Qed.

Lemma steps_setStatus X x st : x ∈ X → live st → steps (G E X) (setStatus x st).
Proof. intros HX Hst. apply steps_alter_bean; [done|]. intros d. by right. Qed.

Lemma steps_rValue_Set X x v : x ∈ X → steps (G E X) (rValue_Set x v).
Proof. intros HX. apply steps_alter_bean; [done|]. intros d. by left. Qed.

Lemma steps_newBeanCacheItem X : steps (G E X) newBeanCacheItem.
Proof.
  intros s HI. refine (G_of_Ext E X _ _ _ HI).
  assert (items s !! next s = None) as Hfresh.
  { destruct (items s !! next s) eqn:Hn; [|done].
    assert (next s < next s) by (apply (inv_items _ HI); eauto). lia. }
  split; simpl; eauto; try (intros ? Hn [? Hs]; congruence).
  - intros c l Hc. rewrite lookup_insert_ne; [done|]. intros <-. congruence.
  - intros c l Hc Hs. destruct (decide (next s = c)) as [<-|Hne].
    + rewrite lookup_insert_eq in Hs. injection Hs as <-. split; [done|lia].
    + rewrite lookup_insert_ne in Hs by done. congruence.
Qed.

Lemma steps_getCacheItem X t : steps (G E X) (getCacheItem t).
Proof.
  unfold getCacheItem. steps_auto. apply steps_newBeanCacheItem.
Qed.

Lemma steps_newSlice X t elems : steps (G E X) (newSlice t elems).
Proof.
  intros s HI. refine (G_of_Ext E X _ _ _ HI).
  assert (arrays s !! next s = None) as Hfresh.
  { destruct (arrays s !! next s) eqn:Hn; [|done].
    assert (next s < next s) by (apply (inv_arrays _ HI); eauto). lia. }
  split; simpl; eauto; try (intros ? Hn [? Hs]; congruence);
    try (intros c l Hn Hs; congruence).
  - intros a l Ha. rewrite lookup_insert_ne; [done|]. intros <-. congruence.
  - intros a Ha [l Hs]. destruct (decide (next s = a)) as [<-|Hne]; [lia|].
    rewrite lookup_insert_ne in Hs by done. congruence.
Qed.

End Primitives.

#[global] Hint Resolve steps_emit steps_set_cells steps_set_wiringStack
  steps_set_watcher steps_fresh steps_newBD steps_newBeanCacheItem
  steps_getCacheItem steps_newSlice : steps.

Section AssemblyFrame.

Context (E : Env).

Lemma steps_getBD X a : steps (G E X) (getBD a).
Proof. unfold getBD. steps_auto. Qed.

Lemma steps_BD_Type X d : steps (G E X) (BD_Type d).
Proof. unfold BD_Type. steps_auto. Qed.

Lemma steps_beanCacheItem_beans X c : steps (G E X) (beanCacheItem_beans c).
Proof. unfold beanCacheItem_beans. steps_auto. Qed.

Lemma steps_notifyWatchers X bd ev : steps (G E X) (notifyWatchers bd ev).
Proof. unfold notifyWatchers. steps_auto. Qed.

Lemma steps_pushBack X bd : steps (G E X) (pushBack bd).
Proof. unfold pushBack. steps_auto. apply steps_notifyWatchers. Qed.

Lemma steps_popBack X : steps (G E X) popBack.
Proof. unfold popBack. steps_auto. apply steps_notifyWatchers. Qed.

Lemma steps_vLen X v : steps (G E X) (vLen v).
Proof. unfold vLen. steps_auto. Qed.

Lemma steps_vIndex X v i : steps (G E X) (vIndex v i).
Proof. unfold vIndex. steps_auto. Qed.

Lemma steps_vAddr X v : steps (G E X) (vAddr v).
Proof. unfold vAddr. steps_auto. Qed.

Lemma steps_vElem X v : steps (G E X) (vElem v).
Proof. unfold vElem. steps_auto. Qed.

Lemma steps_vField X ev i ft : steps (G E X) (vField ev i ft).
Proof. unfold vField. steps_auto. Qed.

Lemma steps_slotGet X v : steps (G E X) (slotGet v).
Proof. unfold slotGet. steps_auto. Qed.

Lemma steps_slotSet X v x : steps (G E X) (slotSet v x).
Proof. unfold slotSet. steps_auto. Qed.

Lemma steps_newVar X t : steps (G E X) (newVar t).
Proof. unfold newVar. steps_auto. Qed.

Lemma steps_Elem_Set X p val : steps (G E X) (Elem_Set p val).
Proof. unfold Elem_Set. steps_auto. Qed.

Lemma steps_springBean_functionBean X b : steps (G E X) (springBean_functionBean b).
Proof. unfold springBean_functionBean. steps_auto. Qed.

End AssemblyFrame.

#[global] Hint Resolve steps_getBD steps_BD_Type steps_beanCacheItem_beans
  steps_notifyWatchers steps_pushBack steps_popBack steps_vLen steps_vIndex
  steps_vAddr steps_vElem steps_vField steps_slotGet steps_slotSet steps_newVar
  steps_Elem_Set steps_springBean_functionBean : steps.

(** ** The bean assembly keeps the invariant *)

Section AssemblyG.

Context (E : Env).
Variable wire : IBeanDefinition → bool → M unit.
Variable findBean : Selector → M (option addr).
Hypothesis Hwire : ∀ bd o, steps (G E []) (wire bd o).
Hypothesis HfindBean : ∀ sel, steps (G E []) (findBean sel).

Lemma steps_wire X bd o : steps (G E X) (wire bd o).
Proof. apply steps_G_nil, Hwire. Qed.

Lemma steps_findBean X sel : steps (G E X) (findBean sel).
Proof. apply steps_G_nil, HfindBean. Qed.

Hint Resolve steps_wire steps_findBean : steps.

Lemma steps_getBeanValue_ X v beanId pv field :
  steps (G E X) (getBeanValue_ E wire v beanId pv field).
Proof. unfold getBeanValue_. steps_auto. Qed.

Lemma steps_wireElement X d di : steps (G E X) (wireElement wire d di).
Proof. unfold wireElement. steps_auto. Qed.

Lemma steps_collectElements X d size idx chunk :
  steps (G E X) (collectElements wire d size idx chunk).
Proof.
  revert chunk. induction idx as [|i idx IH]; intros chunk; simpl.
  - steps_auto.
  - steps_auto; first [apply steps_wireElement|apply IH].
Qed.

Lemma steps_collectBeans_ X v : steps (G E X) (collectBeans_ wire v).
Proof. unfold collectBeans_. steps_auto. apply steps_collectElements. Qed.

Hint Resolve steps_getBeanValue_ steps_collectBeans_ : steps.

Lemma steps_wireStructField_ X pv bv field beanId :
  steps (G E X) (wireStructField_ E wire pv bv field beanId).
Proof. unfold wireStructField_. steps_auto. Qed.

Hint Resolve steps_wireStructField_ : steps.

Lemma steps_wireObjectBean_ X bd o : steps (G E X) (wireObjectBean_ E wire bd o).
Proof. unfold wireObjectBean_. steps_auto. Qed.

Lemma steps_arg_Get X args : steps (G E X) (arg_Get E wire args).
Proof. unfold arg_Get. steps_auto. Qed.

Hint Resolve steps_arg_Get steps_rValue_Set : steps.

Lemma steps_wireFunctionBean_ X fnValue bd :
  ibd bd ∈ X → steps (G E X) (wireFunctionBean_ E wire fnValue bd).
Proof. intros HX. unfold wireFunctionBean_. steps_auto. Qed.

(** Dropping the exception for a bean that is not wired at the start. *)
Lemma G_strengthen x s s' :
  (∀ d, beans s !! x = Some d → status d ≠ beanStatus_Wired) →
  G E [x] s s' → G E [] s s'.
Proof.
  intros Hx H HI. destruct (H HI) as (HI' & [N A W D] & R).
  split; [done|]. split; [|done]. split; try done.
  intros y d _ Hd Hw. apply W; [|done|done].
  intros ->%list_elem_of_singleton. by apply (Hx d).
Qed.

Lemma steps_wireBeanDefinition_ bd o :
  steps (G E []) (wireBeanDefinition_ E wire findBean bd o).
Proof.
  intros s. unfold wireBeanDefinition_.
  destruct (beans s !! ibd bd) as [d|] eqn:Hd.
  2: { unfold getBD. unfold bind at 1. unfold bind at 1. unfold gets.
       rewrite Hd. simpl. reflexivity. }
  rewrite (bind_Ok _ _ _ _ _ (getBD_Some _ _ _ Hd)).
  destruct (decide (status d = beanStatus_Deleted)) as [|Hnd]; [reflexivity|].
  destruct (decide (status d = beanStatus_Wired)) as [|Hnw]; [reflexivity|].
  rewrite (bind_Ok _ _ _ _ _ (pushBack_pushed bd s)).
  assert (G E [ibd bd] s (pushed bd s)) as Hpush.
  { apply G_of_Ext, Ext_core; reflexivity. }
  destruct (decide (status d = beanStatus_Wiring)) as [|Hnwg].
  { apply (G_strengthen (ibd bd)); [intros d' Hd'; congruence|].
    destruct (negb (isObjectBean (bean d))); exact Hpush. }
  apply (G_strengthen (ibd bd)); [intros d' Hd'; congruence|].
  etransitivity; [exact Hpush|].
  match goal with
  | |- G _ _ _ (?m (pushed bd s)).2 =>
      assert (steps (G E [ibd bd]) m) as Hm; [|apply Hm]
  end.
  assert (ibd bd ∈ [ibd bd]) as HX by (by apply list_elem_of_singleton).
  steps_auto;
    try (apply steps_setStatus; [done|split; done]);
    try apply steps_wireObjectBean_;
    try (by apply steps_wireFunctionBean_).
Qed.

End AssemblyG.

(** ** Hoare triples: a postcondition for a result, and one for a panic
    or for running out of fuel *)

Definition hoare {A} (P : state → Prop) (m : M A)
    (Q : A → state → Prop) (Qx : state → Prop) : Prop :=
  ∀ s, P s → match m s with
             | (Ok a, s') => Q a s'
             | (_, s') => Qx s'
             end.

Section Hoare.

Context {A : Type}.
Implicit Types (P : state → Prop) (Qx : state → Prop).

Lemma hoare_ret P (a : A) (Q : A → state → Prop) Qx :
  (∀ s, P s → Q a s) → hoare P (ret a) Q Qx.
Proof. intros H s Hs. simpl. by apply H. Qed.

Lemma hoare_panic P e (Q : A → state → Prop) Qx :
  (∀ s, P s → Qx s) → hoare P (panic e) Q Qx.
Proof. intros H s Hs. simpl. by apply H. Qed.

Lemma hoare_outOfFuel P (Q : A → state → Prop) Qx :
  (∀ s, P s → Qx s) → hoare P outOfFuel Q Qx.
Proof. intros H s Hs. simpl. by apply H. Qed.

Lemma hoare_gets P (f : state → A) (Q : A → state → Prop) Qx :
  (∀ s, P s → Q (f s) s) → hoare P (gets f) Q Qx.
Proof. intros H s Hs. simpl. by apply H. Qed.

Lemma hoare_the P (o : option A) msg (Q : A → state → Prop) Qx :
  match o with
  | Some a => ∀ s, P s → Q a s
  | None => ∀ s, P s → Qx s
  end →
  hoare P (the o msg) Q Qx.
Proof. destruct o; intros H s Hs; simpl; by apply H. Qed.

Lemma hoare_bind {B} P (m : M B) (f : B → M A) (R : B → state → Prop)
    (Q : A → state → Prop) Qx :
  hoare P m R Qx → (∀ b, hoare (R b) (f b) Q Qx) → hoare P (bind m f) Q Qx.
Proof.
  intros Hm Hf s Hs. unfold bind. specialize (Hm s Hs).
  destruct (m s) as [[b|e|] s1]; try done. by apply Hf.
Qed.

Lemma hoare_conseq P P' (m : M A) (Q Q' : A → state → Prop) Qx Qx' :
  hoare P' m Q' Qx' →
  (∀ s, P s → P' s) → (∀ a s, Q' a s → Q a s) → (∀ s, Qx' s → Qx s) →
  hoare P m Q Qx.
Proof.
  intros Hm HP HQ HQx s Hs. specialize (Hm s (HP s Hs)).
  destruct (m s) as [[a|e|] s1]; eauto.
Qed.

Lemma hoare_weaken_pre P P' (m : M A) (Q : A → state → Prop) Qx :
  hoare P' m Q Qx → (∀ s, P s → P' s) → hoare P m Q Qx.
Proof. intros Hm HP s Hs. by apply Hm, HP. Qed.

Lemma hoare_pre P (m : M A) (Q : A → state → Prop) Qx :
  (∀ s, P s → hoare (λ s', s' = s) m Q Qx) → hoare P m Q Qx.
Proof. intros H s Hs. by apply (H s Hs s). Qed.

Lemma hoare_steps P (R : state → state → Prop) (m : M A) (Q : state → Prop) :
  steps R m → (∀ s s', P s → R s s' → Q s') → hoare P m (λ _, Q) Q.
Proof.
  intros Hm H s Hs. specialize (Hm s).
  destruct (m s) as [[a|e|] s1]; simpl in *; eauto.
Qed.

End Hoare.

Lemma hoare_bind_ret {A B} P (a : A) (f : A → M B) Q Qx :
  hoare P (f a) Q Qx → hoare P (bind (ret a) f) Q Qx.
Proof. intros H s Hs. exact (H s Hs). Qed.

Lemma hoare_modify P (f : state → state) (Q : unit → state → Prop) Qx :
  (∀ s, P s → Q tt (f s)) → hoare P (modify f) Q Qx.
Proof. intros H s Hs. simpl. by apply H. Qed.

Lemma hoare_forM_ {A} (I : state → Prop) (l : list A) (f : A → M unit) Qx :
  (∀ x, x ∈ l → hoare I (f x) (λ _, I) Qx) →
  hoare I (forM_ l f) (λ _, I) Qx.
Proof.
  induction l as [|x l IH]; intros Hf; simpl.
  - by apply hoare_ret.
  - eapply hoare_bind; [apply Hf; by left|].
    intros ?. apply IH. intros y Hy. apply Hf. by right.
Qed.

Lemma hoare_foldM {A B} (I : B → list A → state → Prop)
    (f : B → A → M B) (b : B) (l : list A) Qx :
  (∀ b x l', hoare (I b (x :: l')) (f b x) (λ b', I b' l') Qx) →
  hoare (I b l) (foldM f b l) (λ b', I b' []) Qx.
Proof.
  intros Hf. revert b. induction l as [|x l IH]; intros b; simpl.
  - by apply hoare_ret.
  - eapply hoare_bind; [apply Hf|]. intros b'. apply IH.
Qed.

(** ** [resolveBean] keeps the invariant *)

(** What [resolveBean] changes: only beans in status Default, and it puts
    only such beans into the cache. *)
Record RBframe (s s' : state) : Prop := mkRBframe {
  rb_keep : ∀ x d, beans s !! x = Some d → status d ≠ beanStatus_Default →
                   beans s' !! x = Some d;
  rb_cached : ∀ x, cached s' x → cached s x ∨ hasStatus s beanStatus_Default x;
  rb_none : ∀ x, beans s !! x = None → beans s' !! x = None;
  rb_next : next s ≤ next s';
  rb_arrays : arrays s' = arrays s
}.

Definition RB (s s' : state) : Prop := Inv s → Inv s' ∧ RBframe s s'.

(** The same relative to a start state [s0], leaving out the bean [bd]
    that the running call resolves. *)
Record Rel (bd : addr) (s0 s : state) : Prop := mkRel {
  rel_keep : ∀ x d, x ≠ bd → beans s0 !! x = Some d →
                    status d ≠ beanStatus_Default → beans s !! x = Some d;
  rel_cached : ∀ x, x ≠ bd → cached s x →
                    cached s0 x ∨ hasStatus s0 beanStatus_Default x;
  rel_none : ∀ x, beans s0 !! x = None → beans s !! x = None;
  rel_next : next s0 ≤ next s;
  rel_arrays : arrays s = arrays s0
}.

(** A step of the running call itself: it touches no bean but [bd]. *)
Record Own (bd : addr) (s s' : state) : Prop := mkOwn {
  own_beans : ∀ x, x ≠ bd → beans s' !! x = beans s !! x;
  own_none : ∀ x, beans s !! x = None → beans s' !! x = None;
  own_cached : ∀ x, x ≠ bd → cached s' x → cached s x;
  own_next : next s ≤ next s';
  own_arrays : arrays s' = arrays s
}.

Lemma RBframe_refl s : RBframe s s.
Proof. split; eauto. Qed.

Lemma hasStatus_Default_back s s' x :
  RBframe s s' → hasStatus s' beanStatus_Default x → hasStatus s beanStatus_Default x.
Proof.
  intros [K _ N _ _] (d' & Hd' & Hst).
  destruct (beans s !! x) as [d|] eqn:Hd.
  - destruct (decide (status d = beanStatus_Default)) as [|Hne]; [by exists d|].
    rewrite (K x d Hd Hne) in Hd'. congruence.
  - rewrite (N x Hd) in Hd'. done.
Qed.

Lemma RBframe_trans s1 s2 s3 : RBframe s1 s2 → RBframe s2 s3 → RBframe s1 s3.
Proof.
  intros H12 H23. split.
  - intros x d Hd Hnd. eapply rb_keep; [exact H23| |done]. by eapply rb_keep.
  - intros x Hx. destruct (rb_cached _ _ H23 x Hx) as [Hc|Hd].
    + by eapply rb_cached.
    + right. by eapply hasStatus_Default_back.
  - intros x Hx. eapply rb_none; [exact H23|]. by eapply rb_none.
  - pose proof (rb_next _ _ H12). pose proof (rb_next _ _ H23). lia.
  - rewrite (rb_arrays _ _ H23). apply (rb_arrays _ _ H12).
Qed.

Lemma RB_refl s : RB s s.
Proof. intros HI. split; [done|apply RBframe_refl]. Qed.

Lemma RB_trans s1 s2 s3 : RB s1 s2 → RB s2 s3 → RB s1 s3.
Proof.
  intros H12 H23 HI. destruct (H12 HI) as [HI2 F12].
  destruct (H23 HI2) as [HI3 F23]. split; [done|by eapply RBframe_trans].
Qed.

Global Instance RB_Reflexive : Reflexive RB.
Proof. intros s. apply RB_refl. Qed.

Global Instance RB_Transitive : Transitive RB.
Proof. intros s1 s2 s3. apply RB_trans. Qed.

Lemma RBframe_FrameNR s s' : RBframe s s' → FrameNR [] s s'.
Proof.
  intros [K C N Nx A]. split.
  - done.
  - intros a l. by rewrite A.
  - intros x d _ Hd Hw. apply K; [done|]. rewrite Hw. done.
  - intros x d Hd Hnd. exists d. split; [by apply K|done].
Qed.

Lemma RB_Gnr s s' : RB s s' → Gnr [] s s'.
Proof.
  intros H HI. destruct (H HI) as [HI' F]. split; [done|by apply RBframe_FrameNR].
Qed.

Lemma Rel_refl bd s : Rel bd s s.
Proof. split; eauto. Qed.

Lemma Rel_Own bd s0 s s' : Rel bd s0 s → Own bd s s' → Rel bd s0 s'.
Proof.
  intros [K C N Nx A] [B Bn Cc On Oa]. split.
  - intros x d Hx Hd Hnd. rewrite (B x Hx). by apply K.
  - intros x Hx Hc. apply C; [done|]. by apply Cc.
  - intros x Hx. apply Bn. by apply N.
  - lia.
  - congruence.
Qed.

Lemma Rel_RBframe bd s0 s s' : Rel bd s0 s → RBframe s s' → Rel bd s0 s'.
Proof.
  intros [K C N Nx A] HF. split.
  - intros x d Hx Hd Hnd. eapply rb_keep; [exact HF| |done]. by apply K.
  - intros x Hx Hc. destruct (rb_cached _ _ HF x Hc) as [Hc'|Hd].
    + by apply C.
    + right. destruct Hd as (d & Hd & Hst).
      destruct (beans s0 !! x) as [d0|] eqn:Hd0.
      * destruct (decide (status d0 = beanStatus_Default)) as [|Hne]; [by exists d0|].
        rewrite (K x d0 Hx Hd0 Hne) in Hd. congruence.
      * rewrite (N x Hd0) in Hd. done.
  - intros x Hx. eapply rb_none; [exact HF|]. by apply N.
  - pose proof (rb_next _ _ HF). lia.
  - rewrite (rb_arrays _ _ HF). done.
Qed.

(** From the relative form back to the frame, when [bd] started in
    status Default. *)
Lemma Rel_to_RBframe bd s0 s :
  hasStatus s0 beanStatus_Default bd → Rel bd s0 s → RBframe s0 s.
Proof.
  intros (d0 & Hd0 & Hst0) [K C N Nx A]. split; try done.
  - intros x d Hd Hnd. apply K; [|done|done]. intros ->. congruence.
  - intros x Hc. destruct (decide (x = bd)) as [->|Hne].
    + right. by exists d0.
    + by apply C.
Qed.

(** *** The steps of [resolveBean] *)

Lemma Own_alter_bean bd f s : Own bd s (set_beans (alter f bd) s).
Proof.
  split; simpl; try done.
  - intros x Hx. by rewrite lookup_alter_ne.
  - intros x Hx. destruct (decide (bd = x)) as [<-|Hne].
    + by rewrite lookup_alter_eq, Hx.
    + by rewrite lookup_alter_ne.
Qed.

Lemma Inv_alter_bean bd f s :
  Inv s →
  (∀ d, cached s bd → beans s !! bd = Some d → live (status (f d))) →
  Inv (set_beans (alter f bd) s).
Proof.
  intros [IC IB II IA IK] Hf. split; simpl; try done.
  - intros x Hx. destruct (IC x Hx) as (d & Hd & Hl).
    destruct (decide (bd = x)) as [<-|Hne].
    + exists (f d). rewrite lookup_alter_eq, Hd. split; [done|].
      apply Hf; [exact Hx|exact Hd].
    + exists d. by rewrite lookup_alter_ne.
  - intros x [d Hx]. apply IB. destruct (decide (bd = x)) as [<-|Hne].
    + rewrite lookup_alter_eq in Hx.
      match type of Hx with
      | _ <$> ?o = _ => destruct o eqn:Hb; [eauto|discriminate Hx]
      end.
    + rewrite lookup_alter_ne in Hx by done. eauto.
Qed.

Lemma hasStatus_alter bd st s :
  is_Some (beans s !! bd) →
  hasStatus (set_beans (alter (bd_set_status st) bd) s) st bd.
Proof.
  intros [d Hd]. exists (bd_set_status st d). simpl.
  by rewrite lookup_alter_eq, Hd.
Qed.

(** The state [findCacheItem] ends in. *)
Lemma findCacheItem_cases t s :
  (∃ c, beanCache s !! t = Some c ∧ findCacheItem t s = (Ok c, s))
  ∨ (beanCache s !! t = None ∧
     findCacheItem t s
     = (Ok (next s),
        set_beanCache <[t := next s]> (set_items <[next s := []]> (set_next S s)))).
Proof.
  unfold findCacheItem, bind, gets.
  destruct (beanCache s !! t) as [c|] eqn:Hc; [left; eauto | right].
  split; [done|]. reflexivity.
Qed.

Lemma cached_new_item t s x :
  cached (set_beanCache <[t := next s]> (set_items <[next s := []]> (set_next S s))) x →
  cached s x.
Proof.
  intros (t' & c & l & Ht & Hl & Hx). simpl in *.
  destruct (decide (next s = c)) as [<-|Hc].
  { rewrite lookup_insert_eq in Hl. injection Hl as <-. by apply elem_of_nil in Hx. }
  rewrite lookup_insert_ne in Hl by done.
  destruct (decide (t = t')) as [<-|Hne].
  { rewrite lookup_insert_eq in Ht. congruence. }
  rewrite lookup_insert_ne in Ht by done. by exists t', c, l.
Qed.

Lemma findCacheItem_step bd t s :
  Inv s →
  Inv (findCacheItem t s).2 ∧ Own bd s (findCacheItem t s).2
  ∧ beans (findCacheItem t s).2 = beans s
  ∧ (∀ x, cached (findCacheItem t s).2 x → cached s x).
Proof.
  intros HI.
  destruct (findCacheItem_cases t s) as [(c & Hc & ->)|[Hc ->]]; simpl.
  { split; [done|]. split; [|done]. split; eauto. }
  pose proof (cached_new_item t s) as Hcn.
  split; [|split; [|done]].
  - destruct HI as [IC IB II IA IK]. split; simpl.
    + intros x Hx. by apply IC, Hcn.
    + intros x Hx. specialize (IB x Hx). lia.
    + intros c [l Hl]. destruct (decide (next s = c)) as [<-|Hne]; [lia|].
      rewrite lookup_insert_ne in Hl by done.
      assert (c < next s) by (apply II; eauto). lia.
    + intros a Ha. specialize (IA a Ha). lia.
    + intros t' c Ht. destruct (decide (t = t')) as [<-|Hne].
      * rewrite lookup_insert_eq in Ht. injection Ht as <-.
        rewrite lookup_insert_eq. eauto.
      * rewrite lookup_insert_ne in Ht by done.
        destruct (IK t' c Ht) as [l Hl].
        assert (c < next s) by (apply II; eauto).
        rewrite lookup_insert_ne by lia. eauto.
  - split; simpl; eauto.
Qed.

Lemma cached_store c y s x :
  cached (set_items (alter (λ l, l ++ [y]) c) s) x → x = y ∨ cached s x.
Proof.
  intros (t & c' & l & Ht & Hl & Hx). simpl in *.
  destruct (decide (c = c')) as [<-|Hne].
  - rewrite lookup_alter_eq in Hl.
    destruct (items s !! c) as [l0|] eqn:Hl0; [|discriminate Hl].
    simpl in Hl. injection Hl as <-.
    apply elem_of_app in Hx as [Hx|Hx].
    + right. by exists t, c, l0.
    + left. by apply list_elem_of_singleton in Hx.
  - rewrite lookup_alter_ne in Hl by done. right. by exists t, c', l.
Qed.

Lemma store_step c t bd s :
  Inv s → (∃ d, beans s !! bd = Some d ∧ live (status d)) →
  Inv (beanCacheItem_store c t bd s).2 ∧ Own bd s (beanCacheItem_store c t bd s).2
  ∧ beans (beanCacheItem_store c t bd s).2 = beans s.
Proof.
  intros [IC IB II IA IK] Hbd. simpl. split; [|split; [|done]].
  - split; simpl; try done.
    + intros x [->|Hx]%cached_store; [done|by apply IC].
    + intros c' [l Hl]. apply II. destruct (decide (c = c')) as [<-|Hne].
      * rewrite lookup_alter_eq in Hl.
        match type of Hl with
        | _ <$> ?o = _ => destruct o eqn:Hc; [eauto|discriminate Hl]
        end.
      * rewrite lookup_alter_ne in Hl by done. eauto.
    + intros t' c' Ht. destruct (IK t' c' Ht) as [l Hl].
      destruct (decide (c = c')) as [<-|Hne].
      * rewrite lookup_alter_eq, Hl. simpl. eauto.
      * rewrite lookup_alter_ne by done. eauto.
  - split; simpl; eauto.
    intros x Hx [->|Hc]%cached_store; done.
Qed.

Lemma Own_core bd s s' :
  next s' = next s → beans s' = beans s → items s' = items s →
  arrays s' = arrays s → beanCache s' = beanCache s → Own bd s s'.
Proof.
  intros Hn Hb Hi Ha Hc. split; rewrite ?Hb, ?Ha; eauto; [|lia].
  intros x _ (t & c & l & Ht & Hl & Hx). exists t, c, l.
  by rewrite <- Hc, <- Hi.
Qed.

Lemma Inv_core s s' :
  next s' = next s → beans s' = beans s → items s' = items s →
  arrays s' = arrays s → beanCache s' = beanCache s → Inv s → Inv s'.
Proof.
  intros Hn Hb Hi Ha Hc [IC IB II IA IK].
  split; rewrite ?Hn, ?Hb, ?Hi, ?Ha, ?Hc; try done.
  intros x (t & c & l & Ht & Hl & Hx). apply IC. exists t, c, l.
  by rewrite <- Hc, <- Hi.
Qed.

Section ResolveBeanInv.

Context (E : Env).

Lemma status_ord_Default st :
  ¬ status_ord beanStatus_Default < status_ord st → st = beanStatus_Default.
Proof. destruct st; simpl; intros H; try done; exfalso; apply H; lia. Qed.

(** On a bean that has left status Default, [resolveBean] does nothing. *)
Lemma resolveBean_noop n bd s d :
  beans s !! bd = Some d → status d ≠ beanStatus_Default →
  resolveBean E (S n) bd s = (Ok tt, s).
Proof.
  intros Hd Hst. simpl. rewrite (bind_Ok _ _ _ _ _ (getBD_Some _ _ _ Hd)).
  destruct (decide _) as [|Hn]; [done|].
  by apply status_ord_Default in Hn.
Qed.

Section Call.

(** One call [resolveBean bd] from the state [s0], in which [bd] has
    status Default. *)
Variables (s0 : state) (bd : addr).
Hypothesis Hbd0 : hasStatus s0 beanStatus_Default bd.

(** Before [bd] is stored into the cache. *)
Definition IA (s : state) : Prop :=
  Inv s ∧ hasStatus s beanStatus_Resolving bd ∧ ¬ cached s bd ∧ Rel bd s0 s.

(** After it. *)
Definition IB (s : state) : Prop :=
  Inv s ∧ hasStatus s beanStatus_Resolving bd ∧ Rel bd s0 s.

Definition RBPost (s : state) : Prop := Inv s ∧ RBframe s0 s.

Lemma IA_IB s : IA s → IB s.
Proof. intros (? & ? & ? & ?). done. Qed.

Lemma IB_Post s : IB s → RBPost s.
Proof. intros (? & ? & ?). split; [done|by eapply Rel_to_RBframe]. Qed.

Lemma IA_Post s : IA s → RBPost s.
Proof. intros H. by apply IB_Post, IA_IB. Qed.

Lemma IA_start : Inv s0 → IA (setStatus bd beanStatus_Resolving s0).2.
Proof.
  intros HI. destruct Hbd0 as (d & Hd & Hst). simpl.
  assert (¬ cached s0 bd) as Hnc.
  { intros Hc. destruct (inv_cached _ HI _ Hc) as (d' & Hd' & [Hl _]). congruence. }
  split; [|split; [|split]].
  - apply Inv_alter_bean; [done|]. intros d' Hc. done.
  - apply hasStatus_alter. eauto.
  - exact Hnc.
  - eapply Rel_Own; [apply Rel_refl|apply Own_alter_bean].
Qed.

Lemma IA_RB s s' : IA s → RB s s' → IA s'.
Proof.
  intros (HI & (d & Hd & Hst) & Hnc & HR) H.
  destruct (H HI) as [HI' HF].
  split; [done|]. split; [|split].
  - exists d. split; [|done]. eapply rb_keep; [exact HF|done|]. rewrite Hst. done.
  - intros Hc. destruct (rb_cached _ _ HF _ Hc) as [Hc'|(d' & Hd' & Hst')]; [done|].
    congruence.
  - by eapply Rel_RBframe.
Qed.

Lemma hoare_IA_delete :
  hoare IA (deleteBeanDefinition bd) (λ _, RBPost) RBPost.
Proof.
  unfold deleteBeanDefinition.
  eapply hoare_bind with (R := λ _, IA).
  { unfold getBD. eapply hoare_bind with (R := λ _, IA).
    - by apply hoare_gets.
    - intros o. apply hoare_the. destruct o; [done|]. apply IA_Post. }
  intros d. eapply hoare_bind with (R := λ _, IA).
  { apply hoare_the. destruct (springBean_Type (bean d)); [done|]. apply IA_Post. }
  intros t. eapply hoare_bind with (R := λ _, RBPost).
  - apply hoare_modify. intros s (HI & Hs & Hnc & HR). split.
    + apply Inv_alter_bean; [done|]. intros d' Hc. done.
    + eapply Rel_to_RBframe; [done|].
      eapply Rel_Own; [exact HR|apply Own_alter_bean].
  - intros ?. apply hoare_modify. intros s [HI HF]. split.
    + revert HI. by apply Inv_core.
    + eapply RBframe_trans; [exact HF|].
      split; simpl; eauto.
Qed.

Lemma hoare_IA_findCacheItem t :
  hoare IA (findCacheItem t) (λ _, IA) RBPost.
Proof.
  intros s HIA. pose proof HIA as (HI & (d & Hd & Hst) & Hnc & HR).
  destruct (findCacheItem_step bd t s HI) as (HI' & HO & Hb & Hc).
  destruct (findCacheItem_cases t s) as [(c & _ & Heq)|[_ Heq]];
    rewrite Heq in *; simpl in *.
  - done.
  - split; [done|]. split; [by exists d|]. split; [|by eapply Rel_Own].
    intros Hx. by apply Hnc, Hc.
Qed.

Lemma hoare_IB_findCacheItem t :
  hoare IB (findCacheItem t) (λ _, IB) RBPost.
Proof.
  intros s HIB. pose proof HIB as (HI & (d & Hd & Hst) & HR).
  destruct (findCacheItem_step bd t s HI) as (HI' & HO & Hb & Hc).
  destruct (findCacheItem_cases t s) as [(c & _ & Heq)|[_ Heq]];
    rewrite Heq in *; simpl in *.
  - done.
  - split; [done|]. split; [by exists d|by eapply Rel_Own].
Qed.

Lemma hoare_IB_store c t :
  hoare IB (beanCacheItem_store c t bd) (λ _, IB) RBPost.
Proof.
  apply hoare_modify. intros s (HI & (d & Hd & Hst) & HR).
  destruct (store_step c t bd s HI) as (HI' & HO & Hb).
  { exists d. split; [done|]. rewrite Hst. split; done. }
  simpl in *. split; [done|]. split; [by exists d|by eapply Rel_Own].
Qed.

Lemma hoare_IB_resolved :
  hoare IB (setStatus bd beanStatus_Resolved) (λ _, RBPost) RBPost.
Proof.
  apply hoare_modify. intros s (HI & Hs & HR). split.
  - apply Inv_alter_bean; [done|]. intros d' _ _. simpl. split; done.
  - eapply Rel_to_RBframe; [done|].
    eapply Rel_Own; [exact HR|apply Own_alter_bean].
Qed.

End Call.

Lemma resolveBean_RB n : ∀ bd, steps RB (resolveBean E n bd).
Proof.
  induction n as [|n IH]; intros bd s; [apply RB_refl|].
  simpl.
  destruct (beans s !! bd) as [d|] eqn:Hd.
  2: { unfold getBD. unfold bind at 1. unfold bind at 1. unfold gets.
       rewrite Hd. simpl. reflexivity. }
  rewrite (bind_Ok _ _ _ _ _ (getBD_Some _ _ _ Hd)).
  destruct (decide _) as [|Hn]; [reflexivity|].
  apply status_ord_Default in Hn.
  assert (hasStatus s beanStatus_Default bd) as Hbd0 by (by exists d).
  intros HI.
  match goal with
  | |- Inv (?m s).2 ∧ _ =>
      assert (hoare (λ s', s' = s) m (λ _, RBPost s) (RBPost s)) as Hm
  end.
  2: { specialize (Hm s eq_refl). simpl in Hm.
       match goal with
       | |- Inv (?m s).2 ∧ _ => destruct (m s) as [[[]|e|] s']; exact Hm
       end. }
  eapply hoare_bind with (R := λ _, IA s bd).
  { apply hoare_modify. intros s' ->. by apply IA_start. }
  intros _.
  eapply hoare_bind with (R := λ deleted s', if deleted : bool then RBPost s s' else IA s bd s').
  { destruct (bean d) as [| | fb parent method |]; try (by apply hoare_ret).
    eapply hoare_bind with (R := λ _, IA s bd).
    { eapply hoare_conseq; [apply (hoare_steps (IA s bd) RB _ (IA s bd) (IH parent))| | |].
      - intros s1 s2 H1 H2. by eapply IA_RB.
      - done.
      - done.
      - intros s1. by apply IA_Post. }
    intros _. eapply hoare_bind with (R := λ _, IA s bd).
    { unfold getBD. eapply hoare_bind with (R := λ _, IA s bd).
      - by apply hoare_gets.
      - intros o. apply hoare_the. destruct o; [done|]. by apply IA_Post. }
    intros p. destruct (decide _).
    - eapply hoare_bind with (R := λ _, RBPost s); [by apply hoare_IA_delete|].
      intros _. by apply hoare_ret.
    - by apply hoare_ret. }
  intros [|]; [by apply hoare_ret|].
  eapply hoare_bind with (R := λ _, IA s bd); [by apply hoare_gets|].
  intros ok. destruct (negb ok); [by apply hoare_IA_delete|].
  eapply hoare_bind with (R := λ _, IA s bd).
  { apply hoare_the. destruct (springBean_Type (bean d)); [done|]. by apply IA_Post. }
  intros t.
  eapply hoare_bind with (R := λ _, IA s bd); [by apply hoare_IA_findCacheItem|].
  intros item.
  eapply hoare_bind with (R := λ _, IB s bd).
  { eapply hoare_conseq; [apply (hoare_IB_store s bd item t)| | |]; try done.
    apply IA_IB. }
  intros _.
  eapply hoare_bind with (R := λ _, IB s bd).
  { apply hoare_forM_. intros t' _. destruct (negb _).
    - apply hoare_panic. by apply IB_Post.
    - eapply hoare_bind with (R := λ _, IB s bd); [by apply hoare_IB_findCacheItem|].
      intros m. by apply hoare_IB_store. }
  intros _. by apply hoare_IB_resolved.
Qed.

Lemma resolveBean_Gnr n bd : steps (Gnr []) (resolveBean E n bd).
Proof. eapply steps_impl; [apply RB_Gnr|apply resolveBean_RB]. Qed.

End ResolveBeanInv.

(** ** [FindBean] and the whole bean assembly *)

(** A run that ends in the state it starts in. *)
Definition keeps {A} (s : state) (m : M A) : Prop := (m s).2 = s.

Lemma keeps_bind {A B} s (m : M A) (f : A → M B) :
  keeps s m → (∀ a, keeps s (f a)) → keeps s (bind m f).
Proof.
  unfold keeps, bind. intros Hm Hf.
  destruct (m s) as [[a|e|] s1]; simpl in *; subst; try done.
Qed.

Lemma keeps_foldM {A B} s (f : B → A → M B) (b : B) (l : list A) :
  (∀ b x, x ∈ l → keeps s (f b x)) → keeps s (foldM f b l).
Proof.
  revert b. induction l as [|x l IH]; intros b Hf; simpl; [done|].
  apply keeps_bind; [apply Hf; by left|].
  intros b'. apply IH. intros b'' y Hy. apply Hf. by right.
Qed.

Section FindBeanG.

Context (E : Env).

Lemma steps_G_Gnr {A} X (m : M A) : steps (G E X) m → steps (Gnr X) m.
Proof. apply steps_impl. intros s s'. apply G_Gnr. Qed.

Lemma finder_Gnr n fn : steps (Gnr []) (finder E n fn).
Proof.
  unfold finder. steps_auto; try (apply steps_G_Gnr; solve [eauto with steps]).
  apply resolveBean_Gnr.
Qed.

Lemma finder_keeps n fn s : AllResolved E s → keeps s (finder E n fn).
Proof.
  intros Hr. unfold finder, keeps. rewrite bind_gets.
  apply keeps_foldM. intros acc kb Hkb.
  destruct (Hr kb Hkb) as (d & Hd & Hst).
  unfold keeps. rewrite (bind_Ok _ _ _ _ _ (getBD_Some _ _ _ Hd)).
  destruct (fn d); [|done].
  destruct (decide _); [done|].
  destruct n as [|n]; [done|].
  rewrite (bind_Ok _ _ _ _ _ (resolveBean_noop E n _ _ _ Hd Hst)).
  rewrite (bind_Ok _ _ _ _ _ (getBD_Some _ _ _ Hd)).
  destruct (decide _); done.
Qed.

Lemma FindBean_Gnr n sel : steps (Gnr []) (FindBean E n sel).
Proof.
  unfold FindBean, checkAutoWired, selectorType.
  steps_auto; apply finder_Gnr.
Qed.

Lemma FindBean_keeps n sel s : AllResolved E s → keeps s (FindBean E n sel).
Proof.
  intros Hr. unfold FindBean.
  apply keeps_bind.
  { unfold checkAutoWired. apply keeps_bind; [done|]. intros []; done. }
  intros _. apply keeps_bind.
  - destruct sel; try done.
    + destruct (ParseBeanId E s0) as [[tn bn] nl]. by apply finder_keeps.
    + apply keeps_bind; [done|]. intros t. by apply finder_keeps.
    + apply keeps_bind; [by destruct t as [| | | |[]| |]|].
      intros t'. by apply finder_keeps.
  - intros [|b [|b' l]]; done.
Qed.

Lemma FindBean_G n sel : steps (G E []) (FindBean E n sel).
Proof.
  intros s HI. destruct (FindBean_Gnr n sel s HI) as [HI' HF].
  split; [done|]. split; [done|].
  intros Hr. pose proof (FindBean_keeps n sel s Hr) as Hk.
  unfold keeps in Hk. rewrite Hk. repeat split; auto.
Qed.

(** The bean assembly keeps the invariant, leaves wired beans and slices
    as they are and, once all registered beans are resolved, the bean map
    and the cache too. *)
Lemma wireBeanDefinition_G n : ∀ bd o, steps (G E []) (wireBeanDefinition E n bd o).
Proof.
  induction n as [|n IH]; intros bd o; simpl.
  - apply (steps_outOfFuel (G E [])).
  - apply steps_wireBeanDefinition_; [exact IH|]. intros sel. apply FindBean_G.
Qed.

Lemma getBeanValue_G n v beanId pv field :
  steps (G E []) (getBeanValue E n v beanId pv field).
Proof. apply steps_getBeanValue_, wireBeanDefinition_G. Qed.

Lemma collectBeans_G n v : steps (G E []) (collectBeans E n v).
Proof. apply steps_collectBeans_, wireBeanDefinition_G. Qed.

End FindBeanG.

(** ** Every call of the context keeps the invariant *)

Definition RInv (s s' : state) : Prop := Inv s → Inv s'.

Global Instance RInv_Reflexive : Reflexive RInv.
Proof. intros s H. done. Qed.

Global Instance RInv_Transitive : Transitive RInv.
Proof. intros s1 s2 s3 H12 H23 H. by apply H23, H12. Qed.

Lemma Inv_alter_same_status bd f s :
  (∀ d, status (f d) = status d) → Inv s → Inv (set_beans (alter f bd) s).
Proof.
  intros Hf HI. apply Inv_alter_bean; [done|].
  intros d Hc Hd. rewrite Hf.
  destruct (inv_cached _ HI _ Hc) as (d' & Hd' & Hl). congruence.
Qed.

Lemma Inv_new : Inv NewDefaultSpringContext.
Proof.
  split; simpl.
  - intros x (t & c & l & Ht & _). discriminate Ht.
  - intros x [d Hd]. discriminate Hd.
  - intros x [d Hd]. discriminate Hd.
  - intros x [d Hd]. discriminate Hd.
  - intros t c Ht. discriminate Ht.
Qed.

Section ContextInv.

Context (E : Env).

Lemma rinv_G {A} (m : M A) : steps (G E []) m → steps RInv m.
Proof. apply steps_impl. intros s s' H HI. by destruct (H HI). Qed.

Lemma rinv_Gnr {A} (m : M A) : steps (Gnr []) m → steps RInv m.
Proof. apply steps_impl. intros s s' H HI. by destruct (H HI). Qed.

Lemma rinv_modify (f : state → state) :
  (∀ s, Inv s → Inv (f s)) → steps RInv (modify f).
Proof. intros H s. exact (H s). Qed.

Lemma rinv_core (f : state → state) :
  (∀ s, next (f s) = next s ∧ beans (f s) = beans s ∧ items (f s) = items s
        ∧ arrays (f s) = arrays s ∧ beanCache (f s) = beanCache s) →
  steps RInv (modify f).
Proof.
  intros Hf. apply rinv_modify. intros s.
  destruct (Hf s) as (? & ? & ? & ? & ?). by apply Inv_core.
Qed.

(** Close a goal of [steps RInv] by a fact on the bean assembly. *)
Ltac rinv :=
  steps_auto;
  try (apply rinv_G; solve [eauto with steps]);
  try (apply rinv_core; intros ?; repeat split; reflexivity).

Lemma rinv_registerBeanDefinition bd : steps RInv (registerBeanDefinition E bd).
Proof. unfold registerBeanDefinition, checkRegistration. rinv. Qed.

Lemma rinv_newFunctionBean out args : steps RInv (newFunctionBean out args).
Proof. unfold newFunctionBean. rinv. Qed.

Lemma rinv_eventNotify e : steps RInv (eventNotify e).
Proof. unfold eventNotify. rinv. Qed.

Lemma rinv_newDefaultBeanAssembly w : steps RInv (newDefaultBeanAssembly w).
Proof. unfold newDefaultBeanAssembly. rinv. Qed.

Lemma rinv_checkAutoWired : steps RInv checkAutoWired.
Proof. unfold checkAutoWired. rinv. Qed.

Lemma rinv_finalizeMethodBean bd : steps RInv (finalizeMethodBean E bd).
Proof.
  unfold finalizeMethodBean, selectorType. rinv;
    try apply rinv_newFunctionBean;
    try apply rinv_registerBeanDefinition;
    try (apply rinv_modify; intros s; by apply Inv_alter_same_status).
Qed.

Lemma rinv_wiringStack_path : steps RInv (wiringStack_path E).
Proof. unfold wiringStack_path. rinv. Qed.

Lemma rinv_AutoWireBeans n w : steps RInv (AutoWireBeans E n w).
Proof.
  unfold AutoWireBeans. rinv;
    try apply rinv_finalizeMethodBean;
    try apply rinv_eventNotify;
    try apply rinv_newDefaultBeanAssembly;
    try (apply rinv_Gnr, resolveBean_Gnr).
  apply (steps_recovering RInv).
  - rinv; try apply rinv_eventNotify.
    apply rinv_G, wireBeanDefinition_G.
  - intros e. rinv. apply rinv_wiringStack_path.
Qed.

Lemma rinv_call c : steps RInv (λ s, (Ok tt, call E c s)).
Proof.
  intros s. simpl.
  destruct c as [nm bn|nm fn out tags|nm sel method tags|bd p ds es i d
                |b|b|b|fields|elems|n w|n i w|n beanId i w|n sel|n i w|n bn w|];
    simpl.
  - enough (steps RInv (RegisterNameBean E nm bn)) as H by exact (H s).
    unfold RegisterNameBean. rinv. apply rinv_registerBeanDefinition.
  - enough (steps RInv (RegisterNameBeanFn E nm fn out tags)) as H by exact (H s).
    unfold RegisterNameBeanFn. rinv;
      first [apply rinv_newFunctionBean|apply rinv_registerBeanDefinition].
  - enough (steps RInv (RegisterNameMethodBean nm sel method tags)) as H by exact (H s).
    unfold RegisterNameMethodBean, checkRegistration. rinv.
  - intros HI. by apply Inv_alter_same_status.
  - unfold RInv. by apply Inv_core.
  - unfold RInv. by apply Inv_core.
  - unfold RInv. by apply Inv_core.
  - enough (steps RInv (New fields)) as H by exact (H s).
    unfold New. rinv.
  - apply (rinv_G _ (steps_newSlice E [] (TBasic "") elems)).
  - apply rinv_AutoWireBeans.
  - enough (steps RInv (GetBean E n i w)) as H by exact (H s).
    unfold GetBean, GetBeanByName, ptrSlot. rinv;
      first [apply rinv_checkAutoWired|apply rinv_newDefaultBeanAssembly
            |apply rinv_G, getBeanValue_G].
  - enough (steps RInv (GetBeanByName E n beanId i w)) as H by exact (H s).
    unfold GetBeanByName, ptrSlot. rinv;
      first [apply rinv_checkAutoWired|apply rinv_newDefaultBeanAssembly
            |apply rinv_G, getBeanValue_G].
  - apply (rinv_Gnr _ (FindBean_Gnr E n sel)).
  - enough (steps RInv (CollectBeans E n i w)) as H by exact (H s).
    unfold CollectBeans, ptrSlot. rinv;
      first [apply rinv_checkAutoWired|apply rinv_newDefaultBeanAssembly
            |apply rinv_G, collectBeans_G].
  - enough (steps RInv (WireBean E n bn w)) as H by exact (H s).
    unfold WireBean. rinv;
      first [apply rinv_checkAutoWired|apply rinv_newDefaultBeanAssembly
            |apply rinv_G, wireBeanDefinition_G].
  - enough (steps RInv (Close E)) as H by exact (H s).
    unfold Close. rinv; apply rinv_eventNotify.
Qed.

Lemma reachable_Inv s : reachable E s → Inv s.
Proof.
  induction 1 as [|s c _ IH]; [apply Inv_new|].
  by apply (rinv_call c s).
Qed.

End ContextInv.

(** C8: in every state of the context that a program can reach, no bean
    in the cache is deleted (nor still in status Default): [resolveBean]
    deletes a bean only before putting it into the cache, and nothing
    else deletes a bean. *)
Theorem C8_cache_holds_no_deleted_bean (E : Env) s x :
  reachable E s →
  cached s x →
  ∃ d, beans s !! x = Some d
       ∧ status d ≠ beanStatus_Deleted
       ∧ status d ≠ beanStatus_Default.
Proof.
  intros Hr Hc.
  destruct (inv_cached _ (reachable_Inv E s Hr) x Hc) as (d & Hd & Hnd & Hdel).
  eauto.
Qed.

Lemma C8_witness :
  ∃ d, beans Demo.reachedAB !! 2 = Some d
       ∧ status d ≠ beanStatus_Deleted
       ∧ status d ≠ beanStatus_Default.
Proof.
  apply (C8_cache_holds_no_deleted_bean Demo.env Demo.reachedAB 2).
  - unfold Demo.reachedAB. repeat apply reachable_call. apply reachable_new.
  - exists (TPtr Demo.A), 4, [2]. split; [reflexivity|]. split; [reflexivity|].
    by left.
Defined.

(** ** Collecting: [collectBeans] *)

Lemma hoare_pure_pre {A} (P : state → Prop) (φ : Prop) (m : M A) Q Qx :
  (φ → hoare P m Q Qx) → hoare (λ s, P s ∧ φ) m Q Qx.
Proof. intros H s [HP Hφ]. by apply H. Qed.

Lemma length_concat_sum {A} (ls : list (list A)) :
  length (concat ls) = sum_list (length <$> ls).
Proof.
  induction ls as [|l ls IH]; [done|].
  simpl. rewrite length_app, IH. done.
Qed.

Lemma concat_nonempty {A} (ls : list (list A)) l :
  l ∈ ls → l ≠ [] → concat ls ≠ [].
Proof.
  intros Hin Hne Hc. apply Hne.
  induction ls as [|l' ls IH]; [by apply elem_of_nil in Hin|].
  simpl in Hc. apply app_eq_nil in Hc as [H1 H2].
  apply elem_of_cons in Hin as [->|Hin]; [done|by apply IH].
Qed.

Section CollectBeans.

Context (E : Env) (s0 : state).
Hypothesis HI0 : Inv s0.
Hypothesis HR0 : AllResolved E s0.
Variable wire : IBeanDefinition → bool → M unit.
Hypothesis Hwire : ∀ bd o, steps (G E []) (wire bd o).

(** What holds of every state on the way, relative to the start [s0]. *)
Definition K (s : state) : Prop :=
  Inv s ∧ FrameNR [] s0 s ∧ beanMap s = beanMap s0 ∧ beanCache s = beanCache s0
  ∧ ∀ c l, items s0 !! c = Some l → items s !! c = Some l.

Lemma K_start : K s0.
Proof. split; [done|]. split; [apply FrameNR_refl|]. done. Qed.

Lemma K_AllResolved s : K s → AllResolved E s.
Proof. intros (_ & HF & Hm & _). by eapply AllResolved_frame. Qed.

Lemma K_step s s' : K s → G E [] s s' → K s'.
Proof.
  intros HK H. pose proof (K_AllResolved s HK) as Hr.
  destruct HK as (HI & HF & Hm & Hc & Hi).
  destruct (H HI) as (HI' & HF' & HR'). destruct (HR' Hr) as (Hm' & Hc' & Hi').
  split; [done|]. split; [by eapply FrameNR_trans|].
  split; [congruence|]. split; [congruence|]. eauto.
Qed.

Lemma K_wired s d dd :
  K s → beans s0 !! d = Some dd → status dd = beanStatus_Wired →
  beans s !! d = Some dd.
Proof.
  intros (_ & HF & _) Hd Hst. eapply fr_wired; [exact HF| |done|done].
  intros Hx. by apply elem_of_nil in Hx.
Qed.

Lemma K_cacheBeans s t : K s → cacheBeans s t = cacheBeans s0 t.
Proof.
  intros (_ & _ & _ & Hc & Hi). unfold cacheBeans. rewrite Hc.
  destruct (beanCache s0 !! t) as [c|] eqn:Ht; [|done].
  destruct (inv_cache _ HI0 t c Ht) as [l Hl]. by rewrite Hl, (Hi c l Hl).
Qed.

Lemma hoare_K {A} (m : M A) (X : Prop) :
  steps (G E []) m → X → hoare K m (λ _, K) (λ _, X).
Proof.
  intros Hm HX s HK. pose proof (K_step s _ HK (Hm s)) as HK'.
  destruct (m s) as [[a|e|] s']; done.
Qed.

Lemma hoare_getCacheItem t (X : Prop) :
  hoare K (getCacheItem t)
        (λ c s, K s ∧ default [] (items s !! c) = cacheBeans s0 t) (λ _, X).
Proof.
  intros s HK.
  destruct (getCacheItem_spec t s) as (c & s1 & Heq & Hb & _).
  pose proof (K_step s _ HK (steps_getCacheItem E [] t s)) as HK'.
  rewrite Heq in *. simpl in *. split; [done|].
  rewrite Hb. by apply K_cacheBeans.
Qed.

Lemma hoare_getBD_wired d dd (X : Prop) :
  beans s0 !! d = Some dd → status dd = beanStatus_Wired →
  hoare K (getBD d) (λ r s, K s ∧ r = dd) (λ _, X).
Proof.
  intros Hd Hst s HK.
  rewrite (getBD_Some _ _ _ (K_wired s d dd HK Hd Hst)). done.
Qed.

(** Reading the slice of a wired bean. *)
Lemma sliceElems_read d dd l s :
  K s → beans s0 !! d = Some dd → sliceElems s0 d = Some l →
  vLen (springBean_Value (bean dd)) s = (Ok (length l), s)
  ∧ ∀ i di, l !! i = Some di →
            vIndex (springBean_Value (bean dd)) i s = (Ok di, s).
Proof.
  intros (_ & HF & _) Hd Hl. unfold sliceElems in Hl. rewrite Hd in Hl.
  destruct (springBean_Value (bean dd)) as [|[]|[] a| |]; try done.
  - injection Hl as <-. split; [done|]. intros i di Hi. done.
  - pose proof (fr_arrays _ _ _ HF a l Hl) as Ha.
    split.
    + unfold vLen. rewrite bind_gets, Ha. done.
    + intros i di Hi. unfold vIndex. rewrite bind_gets, Ha. simpl.
      rewrite bind_ret. by rewrite Hi.
Qed.

Lemma hoare_collectElements d dd l (X : Prop) :
  beans s0 !! d = Some dd → status dd = beanStatus_Wired →
  sliceElems s0 d = Some l → (l ≠ [] → X) →
  ∀ k i chunk, i + k = S (length l) → length chunk = length l →
    hoare K (collectElements wire d (length l) (seq i k) chunk)
          (λ r s, K s ∧ r = take i chunk ++ drop i l) (λ _, X).
Proof.
  intros Hd Hst Hl HX. induction k as [|k IH]; intros i chunk Hik Hlen; simpl.
  { apply hoare_ret. intros s HK. split; [done|].
    rewrite take_ge by lia. rewrite drop_ge by lia. by rewrite app_nil_r. }
  eapply hoare_bind; [by apply hoare_getBD_wired|].
  intros r. apply hoare_pure_pre. intros ->.
  eapply hoare_bind with (R := λ len s, K s ∧ len = length l).
  { intros s HK. destruct (sliceElems_read d dd l s HK Hd Hl) as [-> _]. done. }
  intros len. apply hoare_pure_pre. intros ->.
  destruct (decide (i < length l)) as [Hi|Hi].
  - destruct (lookup_lt_is_Some_2 l i Hi) as [di Hdi].
    eapply hoare_bind; [by apply hoare_getBD_wired|].
    intros r. apply hoare_pure_pre. intros ->.
    eapply hoare_bind with (R := λ x s, K s ∧ x = di).
    { intros s HK. destruct (sliceElems_read d dd l s HK Hd Hl) as [_ Hidx].
      rewrite (Hidx i di Hdi). done. }
    intros x. apply hoare_pure_pre. intros ->.
    eapply hoare_bind with (R := λ _, K).
    { apply hoare_K; [by apply steps_wireElement|].
      apply HX. intros ->. simpl in Hi. lia. }
    intros _.
    eapply hoare_conseq; [apply (IH (S i) (<[i := di]> chunk))| | |];
      try done; try lia.
    + by rewrite length_insert.
    + intros r s [HK ->]. split; [done|].
      rewrite (take_S_r _ _ di).
      2: { apply list_lookup_insert_eq. lia. }
      rewrite take_insert_ge by lia.
      rewrite (drop_S l di i Hdi). by rewrite <- app_assoc.
  - apply hoare_ret. intros s HK. split; [done|].
    rewrite take_ge by lia. rewrite drop_ge by lia. by rewrite app_nil_r.
Qed.


Context (v : slot) (et : rtype) (chunks : list (list value)).
Hypothesis Het : rElem (slot_type v) = Some et.
Hypothesis Hwired :
  Forall (hasStatus s0 beanStatus_Wired)
         (cacheBeans s0 (slot_type v) ++ cacheBeans s0 et).
Hypothesis Hchunks :
  Forall2 (λ d l, sliceElems s0 d = Some l) (cacheBeans s0 (slot_type v)) chunks.

Let result : list value := concat chunks ++ map (beanValue s0) (cacheBeans s0 et).
Let X : Prop := result ≠ [].

(** After some of the slice beans. *)
Definition I1 (acc : list value) (rest : list addr) (s : state) : Prop :=
  K s
  ∧ ∃ cs_done cs_rest,
      chunks = cs_done ++ cs_rest ∧ acc = concat cs_done
      ∧ Forall2 (λ d l, sliceElems s0 d = Some l) rest cs_rest
      ∧ Forall (hasStatus s0 beanStatus_Wired) rest.

(** After some of the beans of the element type. *)
Definition I2 (acc : list value) (rest : list addr) (s : state) : Prop :=
  K s
  ∧ ∃ done, cacheBeans s0 et = done ++ rest
            ∧ acc = concat chunks ++ map (beanValue s0) done
            ∧ Forall (hasStatus s0 beanStatus_Wired) rest.

Lemma collect_slice_step acc d rest :
  hoare (I1 acc (d :: rest))
    (dd <- getBD d ;;
     n0 <- vLen (springBean_Value (bean dd)) ;;
     chunk <- collectElements wire d n0 (seq 0 (S n0)) (replicate n0 (zeroValue et)) ;;
     ret (acc ++ chunk))
    (λ acc', I1 acc' rest) (λ _, X).
Proof.
  intros s (HK & cs_done & cs_rest & Hcs & Hacc & Hf2 & Hw).
  apply Forall2_cons_inv_l in Hf2 as (l & cs_rest' & Hl & Hf2 & ->).
  apply Forall_cons in Hw as [(dd & Hd & Hst) Hw].
  assert (l ≠ [] → X) as HX.
  { intros Hne Hr. unfold result in Hr. apply app_eq_nil in Hr as [Hr _].
    revert Hr. eapply concat_nonempty; [|exact Hne].
    rewrite Hcs. apply elem_of_app. right. by left. }
  revert s HK.
  change (hoare (K)
    (dd <- getBD d ;;
     n0 <- vLen (springBean_Value (bean dd)) ;;
     chunk <- collectElements wire d n0 (seq 0 (S n0)) (replicate n0 (zeroValue et)) ;;
     ret (acc ++ chunk))
    (λ acc', I1 acc' rest) (λ _, X)).
  eapply hoare_bind; [by apply hoare_getBD_wired|].
  intros r. apply hoare_pure_pre. intros ->.
  eapply hoare_bind with (R := λ len s, K s ∧ len = length l).
  { intros s HK. destruct (sliceElems_read d dd l s HK Hd Hl) as [-> _]. done. }
  intros len. apply hoare_pure_pre. intros ->.
  eapply hoare_bind.
  { apply (hoare_collectElements d dd l X Hd Hst Hl HX (S (length l)) 0);
      [done|by rewrite length_replicate]. }
  intros chunk. apply hoare_ret. intros s [HK ->]. split; [done|].
  exists (cs_done ++ [l]), cs_rest'. simpl. rewrite drop_0.
  split; [by rewrite Hcs, <- app_assoc|].
  split; [|done].
  rewrite concat_app. simpl. by rewrite app_nil_r, Hacc.
Qed.

Lemma collect_single_step acc d rest :
  hoare (I2 acc (d :: rest))
    (wire (IBean d) false ;;
     dd <- getBD d ;;
     ret (acc ++ [springBean_Value (bean dd)]))
    (λ acc', I2 acc' rest) (λ _, X).
Proof.
  intros s (HK & done & Hds & Hacc & Hw).
  apply Forall_cons in Hw as [(dd & Hd & Hst) Hw].
  assert X as HX.
  { intros Hr. unfold result in Hr. apply app_eq_nil in Hr as [_ Hr].
    rewrite Hds in Hr. rewrite map_app in Hr.
    apply app_eq_nil in Hr as [_ Hr]. done. }
  revert s HK.
  change (hoare (K)
    (wire (IBean d) false ;;
     dd <- getBD d ;;
     ret (acc ++ [springBean_Value (bean dd)]))
    (λ acc', I2 acc' rest) (λ _, X)).
  eapply hoare_bind with (R := λ _, K).
  { apply hoare_K; [apply Hwire|done]. }
  intros _. eapply hoare_bind; [by apply hoare_getBD_wired|].
  intros r. apply hoare_pure_pre. intros ->.
  apply hoare_ret. intros s HK. split; [done|].
  exists (done ++ [d]). split; [by rewrite Hds, <- app_assoc|].
  split; [|done].
  rewrite map_app, app_assoc, Hacc. simpl. unfold beanValue. by rewrite Hd.
Qed.

Lemma collectBeans_spec :
  hoare (λ s, s = s0) (collectBeans_ wire v)
    (λ b s', b = bool_decide (result ≠ [])
             ∧ (b = true →
                ∃ a, arrays s' !! a = Some result
                     ∧ (is_Some (slotValue s' v) →
                        slotValue s' v = Some (VRef (slot_type v) a))))
    (λ _, X).
Proof.
  eapply hoare_weaken_pre with (P' := K); [|intros s ->; by apply K_start].
  unfold collectBeans_.
  eapply hoare_bind; [apply hoare_getCacheItem|].
  intros m.
  eapply hoare_bind with (R := λ ds s, K s ∧ ds = cacheBeans s0 (slot_type v)).
  { apply hoare_gets. intros s [HK Hm]. done. }
  intros ds. apply hoare_pure_pre. intros ->.
  rewrite Het. apply (hoare_bind_ret _ et).
  apply Forall_app in Hwired as [Hw1 Hw2].
  eapply hoare_bind with (R := λ ev, I1 ev []).
  { eapply hoare_weaken_pre.
    - apply (hoare_foldM I1). intros acc d rest. apply collect_slice_step.
    - intros s HK. split; [done|]. exists [], chunks. repeat split; done. }
  intros ev1.
  eapply hoare_weaken_pre with (P' := λ s, K s ∧ ev1 = concat chunks).
  2: { intros s (HK & cs_done & cs_rest & Hcs & Hacc & Hf2 & _).
       apply Forall2_nil_inv_l in Hf2 as ->. rewrite app_nil_r in Hcs.
       split; [done|congruence]. }
  apply hoare_pure_pre. intros ->.
  eapply hoare_bind; [apply hoare_getCacheItem|].
  intros m2.
  eapply hoare_bind with (R := λ ds s, K s ∧ ds = cacheBeans s0 et).
  { apply hoare_gets. intros s [HK Hm]. done. }
  intros ds. apply hoare_pure_pre. intros ->.
  eapply hoare_bind with (R := λ ev, I2 ev []).
  { eapply hoare_weaken_pre.
    - apply (hoare_foldM I2). intros acc d rest. apply collect_single_step.
    - intros s HK. split; [done|]. exists []. rewrite app_nil_r. repeat split; done. }
  intros ev.
  eapply hoare_weaken_pre with (P' := λ s, K s ∧ ev = result).
  2: { intros s (HK & done & Hds & Hacc & _). rewrite app_nil_r in Hds.
       split; [done|]. unfold result. congruence. }
  apply hoare_pure_pre. intros ->.
  destruct (decide (0 < length result)) as [Hlen|Hlen].
  - assert (result ≠ []) as Hne by (intros Hr; rewrite Hr in Hlen; simpl in Hlen; lia).
    intros s HK. unfold bind, gets, newSlice, fresh, slotSet, modify, ret. simpl.
    destruct (allAccess s); simpl.
    + split; [by rewrite bool_decide_eq_true_2|]. intros _.
      exists (next s). simpl. rewrite lookup_insert_eq. split; [done|].
      unfold slotValue. simpl. rewrite lookup_alter_eq.
      destruct (cells s !! slot_addr v) as [c|]; simpl; [|by intros [? ?]].
      intros [x Hx]. apply lookup_lt_Some in Hx. rewrite length_insert in Hx.
      by apply list_lookup_insert_eq.
    + destruct (slot_canset v) eqn:Hcs; simpl; [|done].
      split; [by rewrite bool_decide_eq_true_2|]. intros _.
      exists (next s). simpl. rewrite lookup_insert_eq. split; [done|].
      unfold slotValue. simpl. rewrite lookup_alter_eq.
      destruct (cells s !! slot_addr v) as [c|]; simpl; [|by intros [? ?]].
      intros [x Hx]. apply lookup_lt_Some in Hx. rewrite length_insert in Hx.
      by apply list_lookup_insert_eq.
  - apply hoare_ret. intros s HK.
    assert (result = []) as Hr by (destruct result; [done|simpl in Hlen; lia]).
    split; [|done]. rewrite bool_decide_eq_false_2; [done|]. intros H. by apply H.
Qed.

End CollectBeans.


Lemma reachedC_reachable : reachable Demo.env Demo.reachedC.
Proof. unfold Demo.reachedC. repeat apply reachable_call. apply reachable_new. Qed.


(** ** The order in which [AutoWireBeans] wires the beans *)

#[global] Instance string_le_total : Total string_le.
Proof.
  intros a b. unfold string_le. destruct (String.leb_total a b); auto.
Qed.

Section InsertAll.

Context {K : Type} `{Countable K} {A B : Type} (f1 : A → K) (f2 : A → B).

Local Abbreviation insertAll := (foldl (λ (m : gmap K B) kv, <[f1 kv := f2 kv]> m)).

Lemma insertAll_lookup_Some l m0 i k :
  insertAll m0 l !! i = Some k →
  (∃ kv, kv ∈ l ∧ f1 kv = i ∧ f2 kv = k) ∨ m0 !! i = Some k.
Proof.
  revert m0. induction l as [|x l IH]; intros m0 Hl; simpl in Hl; [by right|].
  destruct (IH _ Hl) as [(kv & Hkv & ?)|Hx].
  - left. exists kv. split; [by right|done].
  - destruct (decide (f1 x = i)) as [Hi|Hi].
    + rewrite <- Hi, lookup_insert_eq in Hx. left. exists x.
      split; [by left|]. split; congruence.
    + rewrite lookup_insert_ne in Hx by done. by right.
Qed.

Lemma insertAll_lookup_notin l m0 i :
  i ∉ f1 <$> l → insertAll m0 l !! i = m0 !! i.
Proof.
  revert m0. induction l as [|x l IH]; intros m0 Hi; simpl; [done|].
  rewrite fmap_cons, not_elem_of_cons in Hi. destruct Hi as [Hx Hi].
  rewrite IH by done. by rewrite lookup_insert_ne.
Qed.

Lemma insertAll_lookup_in l m0 kv :
  NoDup (f1 <$> l) → kv ∈ l → insertAll m0 l !! f1 kv = Some (f2 kv).
Proof.
  revert m0. induction l as [|x l IH]; intros m0 Hnd Hkv.
  { by apply elem_of_nil in Hkv. }
  rewrite fmap_cons in Hnd. apply NoDup_cons in Hnd as [Hx Hnd]. simpl.
  apply elem_of_cons in Hkv as [->|Hkv].
  - rewrite insertAll_lookup_notin by done. by rewrite lookup_insert_eq.
  - by apply IH.
Qed.

Lemma insertAll_to_list l :
  NoDup (f1 <$> l) →
  map_to_list (insertAll ∅ l) ≡ₚ (λ kv, (f1 kv, f2 kv)) <$> l.
Proof.
  intros Hnd. apply NoDup_Permutation.
  - apply NoDup_map_to_list.
  - apply (NoDup_fmap_1 fst). by rewrite <- list_fmap_compose.
  - intros [i k]. rewrite elem_of_map_to_list, list_elem_of_fmap. split.
    + intros Hl. apply insertAll_lookup_Some in Hl as [(kv & ? & <- & <-)|Hl].
      * by exists kv.
      * by rewrite lookup_empty in Hl.
    + intros (kv & [= -> ->] & Hkv). by apply insertAll_lookup_in.
Qed.

End InsertAll.

Lemma omap_omap {A B C} (g : A → option B) (h : B → option C) (l : list A) :
  omap h (omap g l) = omap (λ a, g a ≫= h) l.
Proof.
  induction l as [|a l IH]; simpl; [done|].
  destruct (g a) as [b|]; simpl; [|exact IH].
  destruct (h b); simpl; [f_equal|]; exact IH.
Qed.

Lemma omap_id_on {A} (g : A → option A) (l : list A) :
  (∀ a, a ∈ l → g a = Some a) → omap g l = l.
Proof.
  induction l as [|a l IH]; intros Hg; simpl; [done|].
  rewrite (Hg a) by left. f_equal. apply IH. intros b Hb. apply Hg. by right.
Qed.

Lemma omap_fmap_Some {A B C} (g : B → option C) (f : A → B) (r : A → C)
    (l : list A) :
  (∀ a, a ∈ l → g (f a) = Some (r a)) → omap g (f <$> l) = r <$> l.
Proof.
  induction l as [|a l IH]; intros Hg; simpl; [done|].
  rewrite (Hg a) by left. f_equal. apply IH. intros b Hb. apply Hg. by right.
Qed.

Section AutoWireOrder.

Context (E : Env) (s : state).

Hypothesis Hvalid : mapRange_valid E.
Hypothesis Hstore :
  ∀ key bd, beanMap s !! key = Some bd → is_Some (beans s !! bd).

(** The BeanId of the bean of an entry of the bean map. *)
Local Definition entryId (kv : beanKey * addr) : string :=
  default EmptyString (BeanId E <$> beans s !! kv.2).

Lemma mapRange_elem kv :
  kv ∈ mapRange E (beanMap s) ↔ beanMap s !! kv.1 = Some kv.2.
Proof. rewrite (Hvalid (beanMap s)). destruct kv. apply elem_of_map_to_list. Qed.

Lemma entryId_Some kv :
  kv ∈ mapRange E (beanMap s) →
  BeanId E <$> beans s !! kv.2 = Some (entryId kv).
Proof.
  intros Hkv. apply mapRange_elem, Hstore in Hkv as [d Hd].
  unfold entryId. by rewrite Hd.
Qed.

Lemma beanKeyMap_insertAll :
  beanKeyMap E s
  = foldl (λ (m : gmap string beanKey) kv, <[entryId kv := kv.1]> m) ∅
      (mapRange E (beanMap s)).
Proof.
  unfold beanKeyMap.
  assert (∀ kv, kv ∈ mapRange E (beanMap s) → is_Some (beans s !! kv.2)) as Hl.
  { intros kv Hkv. by apply mapRange_elem, Hstore in Hkv. }
  revert Hl. generalize (mapRange E (beanMap s)) (∅ : gmap string beanKey).
  induction l as [|kv l IH]; intros m0 Hl; simpl; [done|].
  destruct (Hl kv) as [d Hd]; [by left|].
  rewrite IH by (intros; apply Hl; by right).
  unfold entryId. by rewrite Hd.
Qed.

(** Every key of [beanKeyMap] is the BeanId of an entry of the bean map. *)
Lemma beanKeyMap_lookup beanId key :
  beanKeyMap E s !! beanId = Some key →
  ∃ bd, beanMap s !! key = Some bd ∧
        BeanId E <$> beans s !! bd = Some beanId.
Proof.
  rewrite beanKeyMap_insertAll. intros Hl.
  apply insertAll_lookup_Some in Hl as [([k bd] & Hkv & <- & <-)|Hl].
  - exists bd. split; [by apply mapRange_elem in Hkv|].
    exact (entryId_Some (k, bd) Hkv).
  - by rewrite lookup_empty in Hl.
Qed.

Lemma sorted_ids_elem beanId :
  beanId ∈ merge_sort string_le (map_to_list (beanKeyMap E s)).*1 →
  ∃ key, beanKeyMap E s !! beanId = Some key.
Proof.
  rewrite merge_sort_Permutation, list_elem_of_fmap.
  intros ([i key] & -> & Hi). exists key. by apply elem_of_map_to_list.
Qed.

Lemma autoWireOrder_beanIds :
  Sort s = true →
  beanIds E s (autoWireOrder E s)
  = merge_sort string_le (map_to_list (beanKeyMap E s)).*1.
Proof.
  intros HS. unfold beanIds, autoWireOrder. rewrite HS. cbv zeta.
  rewrite omap_omap. apply omap_id_on. intros beanId Hid.
  apply sorted_ids_elem in Hid as [key Hkey]. rewrite Hkey. simpl.
  apply beanKeyMap_lookup in Hkey as (bd & -> & Hbd). exact Hbd.
Qed.

Lemma autoWireOrder_length :
  Sort s = true →
  length (autoWireOrder E s)
  = length (merge_sort string_le (map_to_list (beanKeyMap E s)).*1).
Proof.
  intros HS. unfold autoWireOrder. rewrite HS. cbv zeta.
  generalize (sorted_ids_elem).
  generalize (merge_sort string_le (map_to_list (beanKeyMap E s)).*1).
  induction l as [|beanId l IH]; intros Hl; simpl; [done|].
  destruct (Hl beanId) as [key Hkey]; [by left|]. rewrite Hkey. simpl.
  apply beanKeyMap_lookup in Hkey as (bd & -> & _). simpl.
  f_equal. apply IH. intros i Hi. apply Hl. by right.
Qed.

Lemma autoWireOrder_unsorted :
  Sort s = false → autoWireOrder E s ≡ₚ (map_to_list (beanMap s)).*2.
Proof.
  intros HS. unfold autoWireOrder. rewrite HS. by rewrite (Hvalid (beanMap s)).
Qed.

(** No two entries of the bean map have the same BeanId. *)
Definition distinctBeanIds : Prop :=
  ∀ key1 bd1 key2 bd2 beanId,
    beanMap s !! key1 = Some bd1 → beanMap s !! key2 = Some bd2 →
    BeanId E <$> beans s !! bd1 = Some beanId →
    BeanId E <$> beans s !! bd2 = Some beanId →
    key1 = key2.

Lemma autoWireOrder_sorted_Permutation :
  Sort s = true → distinctBeanIds →
  autoWireOrder E s ≡ₚ (map_to_list (beanMap s)).*2.
Proof.
  intros HS Hinj.
  assert (NoDup (entryId <$> mapRange E (beanMap s))) as Hnd.
  { apply NoDup_fmap_2_strong.
    - intros [k1 b1] [k2 b2] H1 H2 Heq.
      pose proof (entryId_Some _ H1) as E1.
      pose proof (entryId_Some _ H2) as E2. rewrite <- Heq in E2.
      apply mapRange_elem in H1, H2. simpl in *.
      pose proof (Hinj _ _ _ _ _ H1 H2 E1 E2) as ->. congruence.
    - rewrite (Hvalid (beanMap s)). apply NoDup_map_to_list. }
  unfold autoWireOrder. rewrite HS. cbv zeta.
  rewrite merge_sort_Permutation, beanKeyMap_insertAll.
  rewrite (insertAll_to_list entryId fst _ Hnd).
  rewrite <- list_fmap_compose.
  rewrite (omap_fmap_Some _ _ snd).
  - by rewrite (Hvalid (beanMap s)).
  - intros kv Hkv. simpl.
    rewrite (insertAll_lookup_in entryId fst _ _ _ Hnd Hkv). simpl.
    by apply mapRange_elem.
Qed.

End AutoWireOrder.

(** C6 as stated, for the unsorted branch: beans registered one after the
    other into an empty context are wired in the order of their
    registration, whatever order Go's range over the bean map takes. *)
Definition C6_wires_in_registration_order : Prop :=
  ∀ E, mapRange_valid E →
    ∀ l s bds s',
      beanMap s = ∅ → Sort s = false →
      registerAll E l s = (Ok bds, s') →
      autoWireOrder E s' = bds.




(** * Further properties of the context and of the bean assembly *)

(** ** Registration: [registerBeanDefinition] and the [Register...] calls *)

Lemma newBD_eq d s :
  newBD d s = (Ok (next s), set_beans <[next s := d]> (set_next S s)).
Proof. reflexivity. Qed.

Section Registration.

Context (E : Env).

(** [registerBeanDefinition] on a bean of the store, by cases. *)
Lemma registerBeanDefinition_cases bd d t s :
  beans s !! bd = Some d →
  springBean_Type (bean d) = Some t →
  registerBeanDefinition E bd s =
    if autoWired s then (Panic RegistrationFrozenError, s)
    else match beanMap s !! (t, name d) with
         | Some _ => (Panic (DuplicateBeanError (BeanId E d)), s)
         | None => (Ok tt, set_beanMap <[(t, name d) := bd]> s)
         end.
Proof.
  intros Hd Ht.
  cbv [registerBeanDefinition checkRegistration getBD BD_Type bind gets the
       ret panic modify].
  destruct (autoWired s); [done|]. rewrite Hd, Ht.
  destruct (lookup _ (beanMap s)); reflexivity.
Qed.

Lemma registerBeanDefinition_frozen bd s :
  autoWired s = true →
  registerBeanDefinition E bd s = (Panic RegistrationFrozenError, s).
Proof.
  intros Haw. cbv [registerBeanDefinition checkRegistration bind gets].
  by rewrite Haw.
Qed.

Lemma RegisterNameBean_cases nm v t s :
  vType v = Some t →
  let d := newBeanDefinition (objectBean v) nm in
  let s1 := set_beans <[next s := d]> (set_next S s) in
  RegisterNameBean E nm v s =
    if autoWired s then (Panic RegistrationFrozenError, s1)
    else match beanMap s !! (t, name d) with
         | Some _ => (Panic (DuplicateBeanError (BeanId E d)), s1)
         | None => (Ok (next s), set_beanMap <[(t, name d) := next s]> s1)
         end.
Proof.
  intros Ht d s1. unfold RegisterNameBean.
  rewrite (bind_Ok _ _ _ _ _ (newBD_eq _ _)). fold d s1.
  unfold bind.
  rewrite (registerBeanDefinition_cases (next s) d t s1);
    [|simpl; by rewrite lookup_insert_eq|done].
  simpl. destruct (autoWired s); [done|].
  destruct (lookup _ (beanMap s)); reflexivity.
Qed.

Lemma RegisterNameBean_new nm v t s :
  vType v = Some t →
  let d := newBeanDefinition (objectBean v) nm in
  autoWired s = false →
  beanMap s !! (t, name d) = None →
  RegisterNameBean E nm v s
  = (Ok (next s),
     set_beanMap <[(t, name d) := next s]>
       (set_beans <[next s := d]> (set_next S s))).
Proof.
  intros Ht d Haw Hk. rewrite (RegisterNameBean_cases nm v t s Ht).
  cbv zeta. fold d. by rewrite Haw, Hk.
Qed.

Lemma RegisterNameBean_duplicate nm v t s :
  vType v = Some t →
  let d := newBeanDefinition (objectBean v) nm in
  autoWired s = false →
  is_Some (beanMap s !! (t, name d)) →
  RegisterNameBean E nm v s
  = (Panic (DuplicateBeanError (BeanId E d)),
     set_beans <[next s := d]> (set_next S s)).
Proof.
  intros Ht d Haw [x Hk]. rewrite (RegisterNameBean_cases nm v t s Ht).
  cbv zeta. fold d. by rewrite Haw, Hk.
Qed.

End Registration.

(** X1: a bean registered under a type and a name that the bean map does
    not hold yet gets a new bean definition, which the bean map then holds
    under that type and name; registering a second bean of the same type
    under the same name panics with "duplicate registration" and leaves
    the bean map as the first registration made it. *)
Theorem RegisterNameBean_twice (E : Env) nm v v' t s :
  autoWired s = false →
  vType v = Some t → vType v' = Some t →
  let key : beanKey := (t, name (newBeanDefinition (objectBean v) nm)) in
  beanMap s !! key = None →
  let r1 := RegisterNameBean E nm v s in
  let r2 := RegisterNameBean E nm v' r1.2 in
  r1.1 = Ok (next s)
  ∧ beanMap r1.2 = <[key := next s]> (beanMap s)
  ∧ beans r1.2 !! next s = Some (newBeanDefinition (objectBean v) nm)
  ∧ r2.1 = Panic (DuplicateBeanError
                    (BeanId E (newBeanDefinition (objectBean v') nm)))
  ∧ beanMap r2.2 = beanMap r1.2.
Proof.
  intros Haw Ht Ht' key Hk r1 r2.
  assert (name (newBeanDefinition (objectBean v') nm)
          = name (newBeanDefinition (objectBean v) nm)) as Hname.
  { simpl. by rewrite Ht, Ht'. }
  pose proof (RegisterNameBean_new E nm v t s Ht Haw Hk) as H1.
  cbv zeta in H1. fold r1 in H1.
  assert (r2 = (Panic (DuplicateBeanError
                         (BeanId E (newBeanDefinition (objectBean v') nm))),
                set_beans <[next r1.2 := newBeanDefinition (objectBean v') nm]>
                  (set_next S r1.2))) as H2.
  { apply (RegisterNameBean_duplicate E nm v' t r1.2 Ht').
    - by rewrite H1.
    - rewrite Hname, H1. simpl. rewrite lookup_insert_eq. eauto. }
  rewrite H2, H1. simpl.
  split; [done|]. split; [done|]. split; [by rewrite lookup_insert_eq|]. done.
Qed.

Lemma RegisterNameBean_twice_witness :
  (RegisterNameBean Demo.env "c" Demo.pC
     (RegisterNameBean Demo.env "c" Demo.pC Demo.heap0).2).1
  = Panic (DuplicateBeanError "*C:c").
Proof.
  apply (RegisterNameBean_twice Demo.env "c" Demo.pC Demo.pC (TPtr Demo.C)
           Demo.heap0); reflexivity.
Defined.

(** X2: once [AutoWireBeans] has set the flag, every registration call
    panics with "bean registration have been frozen"; neither the bean
    map nor the list of method beans changes. *)
Theorem registration_is_frozen (E : Env) s :
  autoWired s = true →
  (∀ nm v,
     let r := RegisterNameBean E nm v s in
     r.1 = Panic RegistrationFrozenError
     ∧ beanMap r.2 = beanMap s ∧ methodBeans r.2 = methodBeans s)
  ∧ (∀ nm fn out tags,
     let r := RegisterNameBeanFn E nm fn out tags s in
     r.1 = Panic RegistrationFrozenError
     ∧ beanMap r.2 = beanMap s ∧ methodBeans r.2 = methodBeans s)
  ∧ (∀ nm sel method tags,
     RegisterNameMethodBean nm sel method tags s
     = (Panic RegistrationFrozenError, s)).
Proof.
  intros Haw. split; [|split].
  - intros nm v r. subst r. unfold RegisterNameBean.
    rewrite (bind_Ok _ _ _ _ _ (newBD_eq _ _)). unfold bind.
    by rewrite registerBeanDefinition_frozen.
  - intros nm fn out tags r. subst r. unfold RegisterNameBeanFn.
    assert (∃ fb s0, newFunctionBean out tags s = (Ok fb, s0)
                     ∧ autoWired s0 = true ∧ beanMap s0 = beanMap s
                     ∧ methodBeans s0 = methodBeans s)
      as (fb & s0 & Hfb & Haw0 & Hm0 & Hmb0).
    { unfold newFunctionBean. destruct (IsRefType (rKind out)).
      - eexists _, _. split; [reflexivity|]. done.
      - eexists _, _. split; [reflexivity|]. done. }
    rewrite (bind_Ok _ _ _ _ _ Hfb).
    rewrite (bind_Ok _ _ _ _ _ (newBD_eq _ _)). unfold bind.
    by rewrite registerBeanDefinition_frozen.
  - intros nm sel method tags.
    cbv [RegisterNameMethodBean checkRegistration bind gets].
    by rewrite Haw.
Qed.

Lemma registration_is_frozen_witness :
  (RegisterNameBean Demo.env "c" Demo.pC Demo.wiredAB).1
  = Panic RegistrationFrozenError.
Proof.
  destruct (registration_is_frozen Demo.env Demo.wiredAB eq_refl) as [H _].
  exact (proj1 (H "c" Demo.pC)).
Defined.

(** X3: a method bean is only noted at its registration: a nil or empty
    selector panics with "selector can't be nil or empty"; otherwise the
    new definition is appended to the list of method beans, and the bean
    map does not hold it before [AutoWireBeans]. *)
Theorem RegisterNameMethodBean_defers_registration nm sel method tags s :
  autoWired s = false →
  let r := RegisterNameMethodBean nm sel method tags s in
  (sel = SelNil ∨ sel = SelString "" → r = (Panic SelectorEmptyError, s))
  ∧ (sel ≠ SelNil → sel ≠ SelString "" →
     r.1 = Ok (next s)
     ∧ methodBeans r.2 = methodBeans s ++ [next s]
     ∧ beanMap r.2 = beanMap s
     ∧ (bean <$> beans r.2 !! next s) = Some (fakeMethodBean sel method tags)).
Proof.
  intros Haw r. subst r.
  cbv [RegisterNameMethodBean checkRegistration bind gets]. rewrite Haw.
  split.
  - intros [->| ->]; reflexivity.
  - intros H1 H2.
    destruct sel as [|o| |]; [done| | |].
    + destruct o; [done|]. simpl. by rewrite lookup_insert_eq.
    + simpl. by rewrite lookup_insert_eq.
    + simpl. by rewrite lookup_insert_eq.
Qed.

Lemma RegisterNameMethodBean_defers_registration_witness :
  RegisterNameMethodBean "m" SelNil "Get" [] Demo.heap0
  = (Panic SelectorEmptyError, Demo.heap0).
Proof.
  apply (RegisterNameMethodBean_defers_registration "m" SelNil "Get" []
           Demo.heap0); [reflexivity|by left].
Defined.

(** ** The calls that need a wired context *)

(** X4: before [AutoWireBeans] has run, every lookup call panics with
    "should call after ctx.AutoWireBeans()" and changes nothing. *)
Theorem lookups_need_AutoWireBeans (E : Env) s :
  autoWired s = false →
  (∀ n i w, GetBean E n i w s = (Panic NotYetWiredError, s))
  ∧ (∀ n beanId i w, GetBeanByName E n beanId i w s = (Panic NotYetWiredError, s))
  ∧ (∀ n sel, FindBean E n sel s = (Panic NotYetWiredError, s))
  ∧ (∀ n beanId, FindBeanByName E n beanId s = (Panic NotYetWiredError, s))
  ∧ (∀ n i w, CollectBeans E n i w s = (Panic NotYetWiredError, s))
  ∧ (∀ n b w, WireBean E n b w s = (Panic NotYetWiredError, s)).
Proof.
  intros Haw.
  assert (checkAutoWired s = (Panic NotYetWiredError, s)) as Hc.
  { cbv [checkAutoWired bind gets]. by rewrite Haw. }
  repeat split; intros;
    unfold GetBean, FindBeanByName, GetBeanByName, FindBean, CollectBeans, WireBean;
    apply (bind_Panic _ _ _ _ _ Hc).
Qed.

Lemma lookups_need_AutoWireBeans_witness :
  GetBean Demo.env 5 (VRef (TPtr (TPtr Demo.A)) 110) 0 Demo.registeredAB
  = (Panic NotYetWiredError, Demo.registeredAB).
Proof.
  apply (lookups_need_AutoWireBeans Demo.env Demo.registeredAB). reflexivity.
Defined.

(** X5: the target of [GetBeanByName] must be a pointer, and the target
    of [CollectBeans] a pointer to a slice: anything else panics with
    "i must be pointer", or "i must be slice ptr", before a bean assembly
    is made; the state does not change. *)
Theorem lookup_targets_must_be_pointers (E : Env) n i t w s :
  autoWired s = true →
  vType i = Some t →
  (rKind t ≠ KPtr →
   ∀ beanId, GetBeanByName E n beanId i w s
             = (Panic (NotPointerError "i must be pointer"), s))
  ∧ ((∀ e, t ≠ TPtr (TSlice e)) →
     CollectBeans E n i w s = (Panic (NotPointerError "i must be slice ptr"), s)).
Proof.
  intros Haw Ht.
  assert (checkAutoWired s = (Ok tt, s)) as Hc.
  { cbv [checkAutoWired bind gets]. by rewrite Haw. }
  split.
  - intros Hk beanId. unfold GetBeanByName.
    rewrite (bind_Ok _ _ _ _ _ Hc), Ht. unfold the at 1. rewrite bind_ret.
    by rewrite bool_decide_eq_false_2.
  - intros Hs. unfold CollectBeans.
    rewrite (bind_Ok _ _ _ _ _ Hc), Ht. unfold the at 1. rewrite bind_ret.
    destruct t as [| | | |[]| |]; try done. by destruct (Hs elem).
Qed.

Lemma lookup_targets_must_be_pointers_witness :
  CollectBeans Demo.env 5 (VRef (TPtr (TPtr Demo.C)) 112) 0 Demo.wiredAB
  = (Panic (NotPointerError "i must be slice ptr"), Demo.wiredAB).
Proof.
  apply (lookup_targets_must_be_pointers Demo.env 5 (VRef (TPtr (TPtr Demo.C)) 112)
           (TPtr (TPtr Demo.C)) 0 Demo.wiredAB); [reflexivity|reflexivity|].
  intros e. discriminate.
Defined.

(** ** The wiring stack *)

Lemma string_app_nil_r (a : string) : a +:+ "" = a.
Proof.
  induction a as [|c a IH]; [done|].
  change (String c (a +:+ "") = String c a). by rewrite IH.
Qed.

Lemma string_app_assoc' (a b c : string) : (a +:+ b) +:+ c = a +:+ (b +:+ c).
Proof.
  induction a as [|x a IH]; [done|].
  change (String x ((a +:+ b) +:+ c) = String x (a +:+ (b +:+ c))).
  by rewrite IH.
Qed.

Lemma string_init_snoc (a : string) c : string_init (a +:+ String c "") = a.
Proof.
  induction a as [|x a IH]; [done|].
  change (string_init (String x (a +:+ String c "")) = String x a).
  rewrite <- IH at 2. by destruct a.
Qed.

Lemma string_concat_lines {A} (g : A → string) nl (l : list A) :
  l ≠ [] →
  ∃ a, string_concat (map (λ w, g w +:+ String nl "") l) = a +:+ String nl "".
Proof.
  induction l as [|w l IH]; [done|]. intros _.
  destruct l as [|w' l].
  - exists (g w). simpl. by rewrite string_app_nil_r.
  - destruct IH as [a Ha]; [done|].
    exists ((g w +:+ String nl "") +:+ a).
    change (string_concat (map (λ w0, g w0 +:+ String nl "") (w :: w' :: l)))
      with ((g w +:+ String nl "")
            +:+ string_concat (map (λ w0, g w0 +:+ String nl "") (w' :: l))).
    by rewrite Ha, !string_app_assoc'.
Qed.

(** X6: the wiring stack is a stack: a pop after a push leaves it as it
    was, and every watcher has been told the push and then the pop of that
    very bean, in the order of the watchers; a pop of the empty stack
    panics. *)
Theorem wiringStack_push_pop bd s :
  (pushBack bd ;; popBack) s
  = (Ok tt,
     set_trace (λ t, t ++ (map (λ w, EvWatch w bd WiringEvent_Push) (seq 0 (watcher s))
                           ++ map (λ w, EvWatch w bd WiringEvent_Pop) (seq 0 (watcher s))))
               s)
  ∧ (wiringStack s = [] →
     popBack s = (Panic (RuntimePanic "nil pointer dereference"), s)).
Proof.
  split.
  - rewrite (bind_Ok _ _ _ _ _ (pushBack_pushed bd s)).
    unfold popBack. rewrite bind_gets. simpl.
    rewrite last_snoc. unfold the at 1. rewrite bind_ret, bind_modify.
    unfold notifyWatchers. rewrite bind_gets. simpl.
    rewrite forM_emit. f_equal.
    destruct s. unfold pushed, set_trace, set_wiringStack. simpl.
    by rewrite removelast_last, <- app_assoc.
  - intros Hs. unfold popBack. rewrite bind_gets, Hs. reflexivity.
Qed.

Lemma wiringStack_push_pop_witness :
  popBack Demo.heap0 = (Panic (RuntimePanic "nil pointer dereference"), Demo.heap0).
Proof. exact (proj2 (wiringStack_push_pop (IBean 200) Demo.heap0) eq_refl). Defined.

(** X7: [path] writes one line ["=> description ↩"] for every frame of
    the wiring stack, bottom first, and drops the line break of the last
    line; on the empty stack the slice expression [path[:len(path)-1]]
    is out of range and [path] panics. *)
Theorem wiringStack_path_lines (E : Env) s :
  let line w := "=> " +:+ IBeanDefinition_Description E s w +:+ " ↩" +:+ newline in
  (wiringStack s = [] →
   wiringStack_path E s
   = (Panic (RuntimePanic "slice bounds out of range [:-1]"), s))
  ∧ (wiringStack s ≠ [] →
     ∃ p, wiringStack_path E s = (Ok p, s)
          ∧ p +:+ newline = string_concat (map line (wiringStack s))).
Proof.
  intros line. unfold wiringStack_path. rewrite bind_gets. unfold id.
  fold line. split.
  - intros ->. reflexivity.
  - intros Hne.
    destruct (string_concat_lines
                (λ w, "=> " +:+ IBeanDefinition_Description E s w +:+ " ↩")
                (ascii_of_nat 10) (wiringStack s) Hne) as [a Ha].
    assert (string_concat (map line (wiringStack s)) = a +:+ newline) as Hl.
    { unfold newline. rewrite <- Ha. f_equal. apply map_ext. intros w.
      unfold line, newline. by rewrite !string_app_assoc'. }
    rewrite Hl. rewrite bool_decide_eq_false_2 by (by destruct a).
    eexists. split; [reflexivity|]. unfold newline. by rewrite string_init_snoc.
Qed.

Lemma wiringStack_path_lines_witness :
  ∃ p, wiringStack_path Demo.env Demo.reachedAB = (Ok p, Demo.reachedAB).
Proof.
  destruct (proj2 (wiringStack_path_lines Demo.env Demo.reachedAB)) as (p & Hp & _).
  - vm_compute. discriminate.
  - by exists p.
Defined.

(** ** [Close] and [GetBeanDefinitions] *)

Section CloseTrace.

Context (E : Env).

Lemma eventNotify_eq e s :
  eventNotify e s
  = (Ok tt, set_trace (λ t, t ++ (if hasEventNotify s then [EvNotify e] else [])) s).
Proof.
  unfold eventNotify. rewrite bind_gets.
  destruct (hasEventNotify s); simpl; [done|]. by rewrite set_trace_nil.
Qed.

(** The destroy callback of an entry of the bean map, when it has one. *)
Definition destroyEvent (s : state) (kv : beanKey * addr) : option event :=
  d ← beans s !! kv.2;
  if destroy d then Some (EvDestroy kv.2 (springBean_Value (bean d))) else None.

Lemma Close_loop (l : list (beanKey * addr)) s0 s :
  beans s = beans s0 →
  Forall (λ kv, is_Some (beans s0 !! kv.2)) l →
  forM_ l (λ kv, d <- getBD kv.2 ;;
                 when (destroy d) (emit (EvDestroy kv.2 (springBean_Value (bean d))))) s
  = (Ok tt, set_trace (λ t, t ++ omap (destroyEvent s0) l) s).
Proof.
  intros Hb Hl. revert s Hb.
  induction Hl as [|kv l [d Hd] _ IH]; intros s Hb; simpl.
  { by rewrite set_trace_nil. }
  assert (beans s !! kv.2 = Some d) as Hd' by (by rewrite Hb).
  unfold bind at 1. rewrite (bind_Ok _ _ _ _ _ (getBD_Some _ _ _ Hd')).
  unfold destroyEvent at 1. rewrite Hd. simpl.
  destruct (destroy d); simpl.
  - rewrite IH by done. by rewrite set_trace_app.
  - by rewrite IH.
Qed.

End CloseTrace.

(** X8: [Close] changes nothing but what the collaborators see: the
    close-start notification, the destroy callback of every bean of the
    bean map that has one - once each, in the order of the range, wired
    or not -, the cancellation of the context, and the close-end
    notification. *)
Theorem Close_calls_every_destroy_once (E : Env) s :
  Forall (λ kv, is_Some (beans s !! kv.2)) (mapRange E (beanMap s)) →
  let notify e := if hasEventNotify s then [EvNotify e] else [] in
  Close E s
  = (Ok tt,
     set_trace (λ t, t ++ notify ContextEvent_CloseStart
                       ++ omap (destroyEvent s) (mapRange E (beanMap s))
                       ++ [EvCancel]
                       ++ notify ContextEvent_CloseEnd) s).
Proof.
  intros Hl notify. unfold Close.
  rewrite (bind_Ok _ _ _ _ _ (eventNotify_eq _ _)).
  rewrite bind_gets. simpl.
  match goal with
  | |- bind _ _ ?s1 = _ =>
      rewrite (bind_Ok _ _ _ _ _
                 (Close_loop (mapRange E (beanMap s)) s s1 eq_refl Hl))
  end.
  unfold emit at 1. rewrite bind_modify, eventNotify_eq. f_equal.
  subst notify. destruct s. unfold set_trace. simpl.
  by rewrite <- !app_assoc.
Qed.

Lemma Close_calls_every_destroy_once_witness :
  trace (Close Demo.env Demo.wiredAB).2 = trace Demo.wiredAB ++ [EvCancel].
Proof.
  rewrite (Close_calls_every_destroy_once Demo.env Demo.wiredAB).
  - reflexivity.
  - vm_compute. repeat constructor; eexists; reflexivity.
Defined.

Section RegisterAll.

Context (E : Env).

Lemma registerBeanDefinition_notype bd d s s2 :
  beans s !! bd = Some d →
  springBean_Type (bean d) = None →
  registerBeanDefinition E bd s ≠ (Ok tt, s2).
Proof.
  intros Hd Ht.
  cbv [registerBeanDefinition checkRegistration getBD BD_Type bind gets the
       ret panic modify].
  destruct (autoWired s); [done|]. by rewrite Hd, Ht.
Qed.

Lemma RegisterNameBean_Ok_inv nm v s bd s1 :
  RegisterNameBean E nm v s = (Ok bd, s1) →
  bd = next s
  ∧ ∃ k, beanMap s !! k = None ∧ beanMap s1 = <[k := bd]> (beanMap s).
Proof.
  destruct (vType v) as [t|] eqn:Ht.
  - rewrite (RegisterNameBean_cases E nm v t s Ht). cbv zeta.
    destruct (autoWired s); [done|].
    destruct (lookup _ (beanMap s)) eqn:Hk; [done|].
    intros [= <- <-]. split; [done|]. eexists. split; [exact Hk|done].
  - unfold RegisterNameBean. rewrite (bind_Ok _ _ _ _ _ (newBD_eq _ _)).
    unfold bind.
    match goal with
    | |- context [registerBeanDefinition E ?b ?s1] =>
        pose proof (registerBeanDefinition_notype b
                      (newBeanDefinition (objectBean v) nm) s1) as Hn;
        destruct (registerBeanDefinition E b s1) as [[[]|e|] s2]; try done
    end.
    exfalso. apply (Hn s2); [simpl; by rewrite lookup_insert_eq|exact Ht|done].
Qed.

Lemma registerAll_values (l : list (string * value)) acc s bds s' :
  foldM (λ acc nv, bd <- RegisterNameBean E nv.1 nv.2 ;; ret (acc ++ [bd])) acc l s
  = (Ok bds, s') →
  ∃ new, bds = acc ++ new ∧ length new = length l
         ∧ (map_to_list (beanMap s')).*2 ≡ₚ (map_to_list (beanMap s)).*2 ++ new.
Proof.
  revert acc s. induction l as [|[nm v] l IH]; intros acc s H; simpl in H.
  { injection H as <- <-. exists []. by rewrite !app_nil_r. }
  unfold bind at 1 in H. unfold bind at 1 in H.
  destruct (RegisterNameBean E nm v s) as [[bd|e|] s1] eqn:Hr; try done.
  apply RegisterNameBean_Ok_inv in Hr as (-> & k & Hk & Hm).
  change (foldM (λ acc nv, bd <- RegisterNameBean E nv.1 nv.2 ;; ret (acc ++ [bd]))
            (acc ++ [next s]) l s1 = (Ok bds, s')) in H.
  destruct (IH _ _ H) as (new & -> & Hlen & Hp).
  exists (next s :: new). split; [by rewrite <- app_assoc|].
  split; [simpl; by rewrite Hlen|].
  rewrite Hp, Hm, (map_to_list_insert _ _ _ Hk). simpl.
  by rewrite Permutation_middle.
Qed.

End RegisterAll.

(** X9: [GetBeanDefinitions] after a series of registrations that all
    succeeded returns the beans the bean map held before together with
    the new bean definitions, each once, in the order of Go's range;
    it changes nothing. *)
Theorem GetBeanDefinitions_after_registrations (E : Env) l s bds s' :
  mapRange_valid E →
  registerAll E l s = (Ok bds, s') →
  ∃ r, GetBeanDefinitions E s' = (Ok r, s')
       ∧ r ≡ₚ (map_to_list (beanMap s)).*2 ++ bds
       ∧ length bds = length l.
Proof.
  intros Hv H. unfold registerAll in H.
  apply registerAll_values in H as (new & -> & Hlen & Hp). simpl.
  eexists. split; [reflexivity|]. split; [|done].
  simpl. by rewrite (Hv (beanMap s')).
Qed.

Lemma GetBeanDefinitions_after_registrations_witness :
  ∃ r, GetBeanDefinitions Demo.env Demo.registeredBA = (Ok r, Demo.registeredBA)
       ∧ r ≡ₚ [200; 201].
Proof.
  destruct (GetBeanDefinitions_after_registrations Demo.env
              [(EmptyString, Demo.pB); (EmptyString, Demo.pA)]
              Demo.heap0 [200; 201] Demo.registeredBA) as (r & Hr & Hp & _).
  - intros m. reflexivity.
  - unfold Demo.registeredBA, Demo.run.
    rewrite (surjective_pairing (registerAll _ _ _)) at 1.
    f_equal; vm_compute; reflexivity.
  - exists r. split; [exact Hr|exact Hp].
Defined.

(** ** Wiring a bean: [wireBeanDefinition] *)

Lemma bind_Ok_inv {A B} (m : M A) (f : A → M B) s b s' :
  bind m f s = (Ok b, s') → ∃ a s1, m s = (Ok a, s1) ∧ f a s1 = (Ok b, s').
Proof.
  unfold bind. destruct (m s) as [[a|e|] s1]; try done. eauto.
Qed.

Lemma getBD_Ok_inv a d s s' :
  getBD a s = (Ok d, s') → s' = s ∧ beans s !! a = Some d.
Proof.
  unfold getBD. rewrite bind_gets.
  destruct (beans s !! a); simpl; [|done]. by intros [= -> ->].
Qed.

(** A run that leaves the bean definitions as they are. *)
Definition sameBeans (s s' : state) : Prop := beans s' = beans s.

Global Instance sameBeans_Reflexive : Reflexive sameBeans.
Proof. intros s. reflexivity. Qed.

Global Instance sameBeans_Transitive : Transitive sameBeans.
Proof. intros s1 s2 s3 H1 H2. unfold sameBeans in *. congruence. Qed.

Lemma steps_modify {R : state → state → Prop} (f : state → state) :
  (∀ s, R s (f s)) → steps R (modify f).
Proof. intros H s. apply H. Qed.

Lemma sameBeans_popBack : steps sameBeans popBack.
Proof.
  unfold popBack, notifyWatchers, emit.
  steps_auto; by apply steps_modify.
Qed.

Section WireOnce.

Context (E : Env).

Lemma wireBeanDefinition_Wired n bd o s d :
  beans s !! ibd bd = Some d →
  status d = beanStatus_Wired →
  wireBeanDefinition E (S n) bd o s = (Ok tt, s).
Proof.
  intros Hd Hst. simpl. unfold wireBeanDefinition_.
  rewrite (bind_Ok _ _ _ _ _ (getBD_Some _ _ _ Hd)). rewrite Hst. done.
Qed.

Lemma wireBeanDefinition_Ok_wired n bd o s s' d :
  beans s !! ibd bd = Some d →
  status d ≠ beanStatus_Wiring →
  wireBeanDefinition E (S n) bd o s = (Ok tt, s') →
  hasStatus s' beanStatus_Wired (ibd bd).
Proof.
  intros Hd Hst. simpl. unfold wireBeanDefinition_.
  rewrite (bind_Ok _ _ _ _ _ (getBD_Some _ _ _ Hd)).
  destruct (decide (status d = beanStatus_Deleted)); [done|].
  destruct (decide (status d = beanStatus_Wired)) as [Hw|Hnw].
  { intros [= <-]. by exists d. }
  rewrite (bind_Ok _ _ _ _ _ (pushBack_pushed bd s)).
  destruct (decide (status d = beanStatus_Wiring)); [done|].
  intros H.
  apply bind_Ok_inv in H as (_ & s1 & _ & H).
  apply bind_Ok_inv in H as (_ & s2 & _ & H).
  apply bind_Ok_inv in H as (d2 & s3 & _ & H).
  apply bind_Ok_inv in H as (_ & s4 & _ & H).
  apply bind_Ok_inv in H as (d4 & s5 & _ & H).
  apply bind_Ok_inv in H as (_ & s6 & _ & H).
  apply bind_Ok_inv in H as (d6 & s7 & Hget & H).
  apply getBD_Ok_inv in Hget as [-> Hd6].
  apply bind_Ok_inv in H as ([] & s8 & Hinit & H).
  apply bind_Ok_inv in H as ([] & s9 & Hpop & H).
  injection H as <-.
  assert (beans s8 = beans s6) as H8.
  { destruct (init d6); simpl in Hinit; by injection Hinit as <-. }
  pose proof (sameBeans_popBack s8) as H9. rewrite Hpop in H9.
  unfold sameBeans in H9. simpl in H9.
  exists (bd_set_status beanStatus_Wired d6). split; [|done].
  simpl. by rewrite lookup_alter_eq, H9, H8, Hd6.
Qed.

End WireOnce.

(** X10: wiring is idempotent. When [wireBeanDefinition] returns on a
    bean that was not itself being wired, the bean is in status Wired,
    and from then on a call on that bean returns at once: no push on the
    wiring stack, no watcher told, nothing changed. *)
Theorem wireBeanDefinition_idempotent (E : Env) n bd o s s' d :
  beans s !! ibd bd = Some d →
  status d ≠ beanStatus_Wiring →
  wireBeanDefinition E (S n) bd o s = (Ok tt, s') →
  hasStatus s' beanStatus_Wired (ibd bd)
  ∧ ∀ m o', wireBeanDefinition E (S m) bd o' s' = (Ok tt, s').
Proof.
  intros Hd Hst H.
  destruct (wireBeanDefinition_Ok_wired E n bd o s s' d Hd Hst H) as (d' & Hd' & Hw).
  split; [by exists d'|].
  intros m o'. by apply (wireBeanDefinition_Wired E m bd o' s' d').
Qed.

Lemma wireBeanDefinition_idempotent_witness :
  let s := (RegisterNameBean Demo.env "c" Demo.pC Demo.heap0).2 in
  hasStatus (wireBeanDefinition Demo.env 5 (IBean 200) false s).2
            beanStatus_Wired 200.
Proof.
  intros s.
  destruct (wireBeanDefinition Demo.env 5 (IBean 200) false s) as [o s'] eqn:Heq.
  assert (o = Ok tt) as ->.
  { apply (f_equal fst) in Heq. vm_compute in Heq. congruence. }
  apply (wireBeanDefinition_idempotent Demo.env 4 (IBean 200) false
           s s' (newBeanDefinition (objectBean Demo.pC) "c")).
  - reflexivity.
  - discriminate.
  - exact Heq.
Defined.

(** ** Looking a bean up: [GetBeanByName] *)

Lemma slotValue_alter a i t b x s :
  is_Some (slotValue s (Slot a i t b)) →
  slotValue (set_cells (alter (λ c, <[i := x]> c) a) s) (Slot a i t b) = Some x.
Proof.
  unfold slotValue, set_cells. cbn [cells slot_addr slot_idx].
  intros [x0 H]. rewrite lookup_alter_eq.
  destruct (cells s !! a) as [c|]; [|done]. cbn in *.
  apply list_lookup_insert_eq. by eapply lookup_lt_Some.
Qed.

(** X11: [GetBeanByName] with a target variable of a reference type,
    when exactly one cached bean matches and that bean is wired, returns
    true and stores the value of the bean into the variable; the bean
    definitions, the bean map and what the collaborators have seen are as
    before. *)
Theorem GetBeanByName_fills_the_target (E : Env) n beanId t a w s p d :
  autoWired s = true →
  IsRefType (rKind t) = true →
  candidates E s t (withNullable beanId) VInvalid = [p] →
  beans s !! p = Some d →
  status d = beanStatus_Wired →
  is_Some (slotValue s (Slot a 0 t true)) →
  let r := GetBeanByName E (S n) beanId (VRef (TPtr t) a) w s in
  r.1 = Ok true
  ∧ slotValue r.2 (Slot a 0 t true) = Some (springBean_Value (bean d))
  ∧ beans r.2 = beans s
  ∧ beanMap r.2 = beanMap s
  ∧ trace r.2 = trace s.
Proof.
  intros Haw Href Hc Hd Hst Hx0 r.
  set (s2 := set_watcher (if decide (w = 0) then 1 else w)
               (set_wiringStack (λ _, []) s)).
  set (v := Slot a 0 t true).
  assert (r = (Ok true,
               set_cells (alter (λ c, <[0 := springBean_Value (bean d)]> c) a) s2))
    as ->.
  { subst r. unfold GetBeanByName.
    assert (checkAutoWired s = (Ok tt, s)) as Hck.
    { cbv [checkAutoWired bind gets]. by rewrite Haw. }
    rewrite (bind_Ok _ _ _ _ _ Hck). simpl vType. unfold the at 1.
    rewrite bind_ret. simpl.
    erewrite bind_Ok by reflexivity. rewrite bind_ret.
    fold s2. fold v.
    assert (candidates E s2 (slot_type v) (withNullable beanId) VInvalid = [p]) as Hc2
      by exact Hc.
    pose proof (candidates_cached E s2 (slot_type v) (withNullable beanId) VInvalid)
      as Hs2.
    rewrite Hc2 in Hs2. specialize (Hs2 ltac:(done)).
    rewrite getBeanValue_unfold by done. cbv zeta. rewrite Hc2, Hs2.
    assert (selectBean E (S n) v p s2
            = (Ok true,
               set_cells (alter (λ c, <[0 := springBean_Value (bean d)]> c) a) s2))
      as Hsel.
    { unfold selectBean.
      rewrite (bind_Ok _ _ _ _ _
                 (wireBeanDefinition_Wired E n (IBean p) false s2 d Hd Hst)).
      rewrite bind_gets.
      rewrite (bind_Ok _ _ _ _ _ (getBD_Some p d s2 Hd)).
      unfold slotSet, ValuePatchIf. destruct (allAccess s2); reflexivity. }
    destruct (filter _ [p]) as [|q l] eqn:Hf.
    - simpl. by rewrite Hsel.
    - assert (q = p ∧ l = []) as [-> ->].
      { destruct (decide (isPrimary (beans s2) p)) as [Hp|Hp].
        - rewrite filter_cons_True in Hf by done. simpl in Hf.
          by injection Hf as <- <-.
        - rewrite filter_cons_False in Hf by done. done. }
      simpl. by rewrite Hsel. }
  cbn [fst snd]. split; [done|]. split; [|done].
  by apply (slotValue_alter a 0 t true _ s2).
Qed.

Lemma GetBeanByName_fills_the_target_witness :
  slotValue (GetBeanByName Demo.env 1 "" (VRef (TPtr (TPtr Demo.A)) 110) 0
               Demo.wiredAB).2
            (Slot 110 0 (TPtr Demo.A) true)
  = Some Demo.pA.
Proof.
  refine (proj1 (proj2 (GetBeanByName_fills_the_target Demo.env 0 ""
            (TPtr Demo.A) 110 0 Demo.wiredAB 200
            (bd_set_status beanStatus_Wired
               (newBeanDefinition (objectBean Demo.pA) ""))
            _ _ _ _ _ _))); try reflexivity.
  eexists; reflexivity.
Defined.

(** ** What wiring and lookups leave alone *)

(** The notifications the context has sent, in order. *)
Definition notifications (s : state) : list ContextEvent :=
  omap (λ e, match e with EvNotify c => Some c | _ => None end) (trace s).

(** Two versions of a bean definition that differ at most in the status
    and in the provider. *)
Definition sameConfig (d d' : BeanDefinition) : Prop :=
  name d' = name d ∧ primary d' = primary d ∧ dependsOn d' = dependsOn d
  ∧ exports d' = exports d ∧ init d' = init d ∧ destroy d' = destroy d
  ∧ file d' = file d ∧ line d' = line d.

Lemma sameConfig_refl d : sameConfig d d.
Proof. by repeat split. Qed.

Lemma sameConfig_trans d1 d2 d3 :
  sameConfig d1 d2 → sameConfig d2 d3 → sameConfig d1 d3.
Proof. unfold sameConfig. intros H1 H2. intuition congruence. Qed.

(** What the bean assembly, [resolveBean] and [FindBean] never do: they
    set no flag of the context, add nothing to the bean map or to the
    list of method beans, send no notification, take nothing back from
    the events, and change of an existing bean definition neither the
    name nor the configuration. *)
Record Quiet (s s' : state) : Prop := mkQuiet {
  q_autoWired : autoWired s' = autoWired s;
  q_allAccess : allAccess s' = allAccess s;
  q_hasEventNotify : hasEventNotify s' = hasEventNotify s;
  q_Sort : Sort s' = Sort s;
  q_methodBeans : methodBeans s' = methodBeans s;
  q_beanMap : ∀ k x, beanMap s' !! k = Some x → beanMap s !! k = Some x;
  q_trace : trace s `prefix_of` trace s';
  q_notifications : notifications s' = notifications s;
  q_next : next s ≤ next s';
  q_config : ∀ x d, x < next s → beans s !! x = Some d →
                    ∃ d', beans s' !! x = Some d' ∧ sameConfig d d'
}.

Global Instance Quiet_Reflexive : Reflexive Quiet.
Proof.
  intros s. split; try done. intros x d _ Hd. exists d. split; [done|].
  apply sameConfig_refl.
Qed.

Global Instance Quiet_Transitive : Transitive Quiet.
Proof.
  intros s1 s2 s3 [A1 B1 C1 D1 M1 K1 T1 N1 X1 G1] [A2 B2 C2 D2 M2 K2 T2 N2 X2 G2].
  split; try congruence.
  - eauto.
  - by etransitivity.
  - lia.
  - intros x d Hx Hd. destruct (G1 x d Hx Hd) as (d2 & Hd2 & Hc2).
    destruct (G2 x d2 ltac:(lia) Hd2) as (d3 & Hd3 & Hc3).
    exists d3. split; [done|]. by eapply sameConfig_trans.
Qed.

(** A change of the stores other than the bean definitions. *)
Lemma Quiet_core s s' :
  autoWired s' = autoWired s → allAccess s' = allAccess s →
  hasEventNotify s' = hasEventNotify s → Sort s' = Sort s →
  methodBeans s' = methodBeans s → beanMap s' = beanMap s →
  trace s' = trace s → next s ≤ next s' → beans s' = beans s →
  Quiet s s'.
Proof.
  intros A B C D M K T N G. split; try done.
  - intros k x. by rewrite K.
  - by rewrite T.
  - unfold notifications. by rewrite T.
  - intros x d _ Hd. exists d. rewrite G. split; [done|apply sameConfig_refl].
Qed.

Lemma Quiet_alter_bean (f : BeanDefinition → BeanDefinition) x s :
  (∀ d, sameConfig d (f d)) → Quiet s (set_beans (alter f x) s).
Proof.
  intros Hf. split; try done. simpl.
  intros y d _ Hd. destruct (decide (x = y)) as [<-|Hne].
  - exists (f d). by rewrite lookup_alter_eq, Hd.
  - exists d. rewrite lookup_alter_ne by done. split; [done|apply sameConfig_refl].
Qed.

Section QuietPrimitives.

Lemma quiet_fresh : steps Quiet fresh.
Proof. intros s. apply Quiet_core; simpl; try done. lia. Qed.

Lemma quiet_set_cells f : steps Quiet (modify (set_cells f)).
Proof. intros s. by apply Quiet_core. Qed.

Lemma quiet_set_items f : steps Quiet (modify (set_items f)).
Proof. intros s. by apply Quiet_core. Qed.

Lemma quiet_set_arrays f : steps Quiet (modify (set_arrays f)).
Proof. intros s. by apply Quiet_core. Qed.

Lemma quiet_set_beanCache f : steps Quiet (modify (set_beanCache f)).
Proof. intros s. by apply Quiet_core. Qed.

Lemma quiet_set_wiringStack f : steps Quiet (modify (set_wiringStack f)).
Proof. intros s. by apply Quiet_core. Qed.

Lemma quiet_set_watcher n : steps Quiet (modify (set_watcher n)).
Proof. intros s. by apply Quiet_core. Qed.

Lemma quiet_beanMap_delete k : steps Quiet (modify (set_beanMap (delete k))).
Proof.
  intros s. split; try done; simpl.
  - intros k' x Hx. apply lookup_delete_Some in Hx as [_ Hx]. done.
  - intros x d _ Hd. exists d. split; [done|apply sameConfig_refl].
Qed.

Lemma quiet_emit e :
  match e with EvNotify _ => False | _ => True end → steps Quiet (emit e).
Proof.
  intros He s. split; try done; simpl.
  - by apply prefix_app_r.
  - unfold notifications. simpl. rewrite omap_app. simpl.
    destruct e; try done; by rewrite app_nil_r.
  - intros x d _ Hd. exists d. split; [done|apply sameConfig_refl].
Qed.

Lemma quiet_newBD d : steps Quiet (newBD d).
Proof.
  intros s. rewrite newBD_eq. split; try done; simpl; [lia|].
  intros x d0 Hx Hd. exists d0. split; [|apply sameConfig_refl].
  rewrite lookup_insert_ne by lia. done.
Qed.

Lemma quiet_setStatus x st : steps Quiet (setStatus x st).
Proof. intros s. apply Quiet_alter_bean. intros d. by repeat split. Qed.

Lemma quiet_rValue_Set x v : steps Quiet (rValue_Set x v).
Proof. intros s. apply Quiet_alter_bean. intros d. by repeat split. Qed.

End QuietPrimitives.

#[global] Hint Resolve quiet_fresh quiet_set_cells quiet_set_items quiet_set_arrays
  quiet_set_beanCache quiet_set_wiringStack quiet_set_watcher quiet_beanMap_delete
  quiet_newBD quiet_setStatus quiet_rValue_Set : steps.
#[global] Hint Extern 1 (steps Quiet (emit _)) => (apply quiet_emit; exact I) : steps.

Section QuietAssembly.

Context (E : Env).

Lemma quiet_getBD a : steps Quiet (getBD a).
Proof. unfold getBD. steps_auto. Qed.

Lemma quiet_BD_Type d : steps Quiet (BD_Type d).
Proof. unfold BD_Type. steps_auto. Qed.

Lemma quiet_beanCacheItem_beans c : steps Quiet (beanCacheItem_beans c).
Proof. unfold beanCacheItem_beans. steps_auto. Qed.

Lemma quiet_beanCacheItem_store c t bd : steps Quiet (beanCacheItem_store c t bd).
Proof. unfold beanCacheItem_store. steps_auto. Qed.

Lemma quiet_notifyWatchers bd ev : steps Quiet (notifyWatchers bd ev).
Proof. unfold notifyWatchers. steps_auto. Qed.

Hint Resolve quiet_getBD quiet_BD_Type quiet_beanCacheItem_beans
  quiet_beanCacheItem_store quiet_notifyWatchers : steps.

Lemma quiet_pushBack bd : steps Quiet (pushBack bd).
Proof. unfold pushBack. steps_auto. Qed.

Lemma quiet_popBack : steps Quiet popBack.
Proof. unfold popBack. steps_auto. Qed.

Lemma quiet_vLen v : steps Quiet (vLen v).
Proof. unfold vLen. steps_auto. Qed.

Lemma quiet_vIndex v i : steps Quiet (vIndex v i).
Proof. unfold vIndex. steps_auto. Qed.

Lemma quiet_vAddr v : steps Quiet (vAddr v).
Proof. unfold vAddr. steps_auto. Qed.

Lemma quiet_vElem v : steps Quiet (vElem v).
Proof. unfold vElem. steps_auto. Qed.

Lemma quiet_vField ev i ft : steps Quiet (vField ev i ft).
Proof. unfold vField. steps_auto. Qed.

Lemma quiet_slotGet v : steps Quiet (slotGet v).
Proof. unfold slotGet. steps_auto. Qed.

Lemma quiet_slotSet v x : steps Quiet (slotSet v x).
Proof. unfold slotSet. steps_auto. Qed.

Lemma quiet_newVar t : steps Quiet (newVar t).
Proof. unfold newVar. steps_auto. Qed.

Lemma quiet_newSlice t elems : steps Quiet (newSlice t elems).
Proof. unfold newSlice. steps_auto. Qed.

Lemma quiet_Elem_Set p val : steps Quiet (Elem_Set p val).
Proof. unfold Elem_Set. steps_auto. Qed.

Lemma quiet_springBean_functionBean b : steps Quiet (springBean_functionBean b).
Proof. unfold springBean_functionBean. steps_auto. Qed.

Lemma quiet_newBeanCacheItem : steps Quiet newBeanCacheItem.
Proof. unfold newBeanCacheItem. steps_auto. Qed.

Hint Resolve quiet_newBeanCacheItem : steps.

Lemma quiet_getCacheItem t : steps Quiet (getCacheItem t).
Proof. unfold getCacheItem. steps_auto. Qed.

Lemma quiet_findCacheItem t : steps Quiet (findCacheItem t).
Proof. unfold findCacheItem. steps_auto. Qed.

Lemma quiet_checkAutoWired : steps Quiet checkAutoWired.
Proof. unfold checkAutoWired. steps_auto. Qed.

Lemma quiet_selectorType sel : steps Quiet (selectorType sel).
Proof. unfold selectorType. steps_auto. Qed.

Hint Resolve quiet_pushBack quiet_popBack quiet_vLen quiet_vIndex quiet_vAddr
  quiet_vElem quiet_vField quiet_slotGet quiet_slotSet quiet_newVar quiet_newSlice
  quiet_Elem_Set quiet_springBean_functionBean quiet_getCacheItem
  quiet_findCacheItem quiet_checkAutoWired quiet_selectorType : steps.

Lemma quiet_deleteBeanDefinition bd : steps Quiet (deleteBeanDefinition bd).
Proof. unfold deleteBeanDefinition. steps_auto. Qed.

Hint Resolve quiet_deleteBeanDefinition : steps.

Lemma quiet_resolveBean n : ∀ bd, steps Quiet (resolveBean E n bd).
Proof.
  induction n as [|n IH]; intros bd; simpl; steps_auto.
Qed.

Hint Resolve quiet_resolveBean : steps.

Lemma quiet_finder n fn : steps Quiet (finder E n fn).
Proof. unfold finder. steps_auto. Qed.

Hint Resolve quiet_finder : steps.

Lemma quiet_FindBean n sel : steps Quiet (FindBean E n sel).
Proof. unfold FindBean. steps_auto. Qed.

Section Open.

Variable wire : IBeanDefinition → bool → M unit.
Variable findBean : Selector → M (option addr).
Hypothesis Hwire : ∀ bd o, steps Quiet (wire bd o).
Hypothesis HfindBean : ∀ sel, steps Quiet (findBean sel).

Hint Resolve Hwire HfindBean : steps.

Lemma quiet_getBeanValue_ v beanId pv field :
  steps Quiet (getBeanValue_ E wire v beanId pv field).
Proof. unfold getBeanValue_. steps_auto. Qed.

Lemma quiet_wireElement d di : steps Quiet (wireElement wire d di).
Proof. unfold wireElement. steps_auto. Qed.

Hint Resolve quiet_getBeanValue_ quiet_wireElement : steps.

Lemma quiet_collectElements d size idx chunk :
  steps Quiet (collectElements wire d size idx chunk).
Proof.
  revert chunk. induction idx as [|i idx IH]; intros chunk; simpl; steps_auto.
Qed.

Hint Resolve quiet_collectElements : steps.

Lemma quiet_collectBeans_ v : steps Quiet (collectBeans_ wire v).
Proof. unfold collectBeans_. steps_auto. Qed.

Hint Resolve quiet_collectBeans_ : steps.

Lemma quiet_wireStructField_ pv bv field beanId :
  steps Quiet (wireStructField_ E wire pv bv field beanId).
Proof. unfold wireStructField_. steps_auto. Qed.

Hint Resolve quiet_wireStructField_ : steps.

Lemma quiet_wireObjectBean_ bd o : steps Quiet (wireObjectBean_ E wire bd o).
Proof. unfold wireObjectBean_. steps_auto. Qed.

Lemma quiet_arg_Get args : steps Quiet (arg_Get E wire args).
Proof. unfold arg_Get. steps_auto. Qed.

Hint Resolve quiet_wireObjectBean_ quiet_arg_Get : steps.

Lemma quiet_wireFunctionBean_ fnValue bd :
  steps Quiet (wireFunctionBean_ E wire fnValue bd).
Proof. unfold wireFunctionBean_. steps_auto. Qed.

Hint Resolve quiet_wireFunctionBean_ : steps.

Lemma quiet_wireBeanDefinition_ bd o :
  steps Quiet (wireBeanDefinition_ E wire findBean bd o).
Proof. unfold wireBeanDefinition_. steps_auto. Qed.

End Open.

Lemma quiet_wireBeanDefinition n : ∀ bd o, steps Quiet (wireBeanDefinition E n bd o).
Proof.
  induction n as [|n IH]; intros bd o; simpl.
  - apply (steps_outOfFuel Quiet).
  - apply quiet_wireBeanDefinition_; [exact IH|]. intros sel. apply quiet_FindBean.
Qed.

Lemma quiet_getBeanValue n v beanId pv field :
  steps Quiet (getBeanValue E n v beanId pv field).
Proof. apply quiet_getBeanValue_, quiet_wireBeanDefinition. Qed.

Lemma quiet_collectBeans n v : steps Quiet (collectBeans E n v).
Proof. apply quiet_collectBeans_, quiet_wireBeanDefinition. Qed.

End QuietAssembly.

Section QuietCalls.

Context (E : Env).

Lemma quiet_newDefaultBeanAssembly w : steps Quiet (newDefaultBeanAssembly w).
Proof. unfold newDefaultBeanAssembly. steps_auto. Qed.

Lemma quiet_GetBeanByName n beanId i w : steps Quiet (GetBeanByName E n beanId i w).
Proof.
  unfold GetBeanByName, ptrSlot.
  steps_auto;
    first [apply quiet_checkAutoWired|apply quiet_newDefaultBeanAssembly
          |apply quiet_getBeanValue].
Qed.

Lemma quiet_CollectBeans n i w : steps Quiet (CollectBeans E n i w).
Proof.
  unfold CollectBeans, ptrSlot.
  steps_auto;
    first [apply quiet_checkAutoWired|apply quiet_newDefaultBeanAssembly
          |apply quiet_collectBeans].
Qed.

Lemma quiet_WireBean n b w : steps Quiet (WireBean E n b w).
Proof.
  unfold WireBean.
  steps_auto;
    first [apply quiet_checkAutoWired|apply quiet_newDefaultBeanAssembly
          |apply quiet_wireBeanDefinition].
Qed.

End QuietCalls.

(** The calls of the context that look beans up or wire an outside
    object. *)
Definition isLookup (c : Call) : bool :=
  match c with
  | CallGetBean _ _ _ | CallGetBeanByName _ _ _ _ | CallFindBean _ _
  | CallCollectBeans _ _ _ | CallWireBean _ _ _ => true
  | _ => false
  end.

Lemma quiet_lookup (E : Env) c s : isLookup c = true → Quiet s (call E c s).
Proof.
  destruct c; try done; intros _; simpl.
  - apply (quiet_GetBeanByName E).
  - apply (quiet_GetBeanByName E).
  - apply (quiet_FindBean E).
  - apply (quiet_CollectBeans E).
  - apply (quiet_WireBean E).
Qed.

(** X12: a lookup ([GetBean], [GetBeanByName], [FindBean],
    [CollectBeans]) or [WireBean], whether it returns or panics, sets no
    flag of the context, adds no bean to the bean map and no method bean,
    sends no notification, only adds to what the collaborators have seen,
    and leaves every bean definition in place with its name and its
    configuration: only the status and the value of a bean can change. *)
Theorem lookups_keep_the_configuration (E : Env) c s :
  isLookup c = true →
  Inv s →
  let s' := call E c s in
  autoWired s' = autoWired s ∧ allAccess s' = allAccess s
  ∧ Sort s' = Sort s ∧ methodBeans s' = methodBeans s
  ∧ (∀ k x, beanMap s' !! k = Some x → beanMap s !! k = Some x)
  ∧ notifications s' = notifications s
  ∧ trace s `prefix_of` trace s'
  ∧ (∀ x d, beans s !! x = Some d →
            ∃ d', beans s' !! x = Some d' ∧ sameConfig d d').
Proof.
  intros Hc HI s'. destruct (quiet_lookup E c s Hc) as [A B C D M K T N X G].
  fold s' in A, B, C, D, M, K, T, N, X, G.
  repeat split; try done.
  intros x d Hd. apply G; [|done]. apply (inv_beans _ HI). eauto.
Qed.

Lemma lookups_keep_the_configuration_witness :
  notifications (call Demo.env (CallGetBean 5 (VRef (TPtr (TPtr Demo.A)) 2) 0)
                   Demo.reachedAB)
  = notifications Demo.reachedAB.
Proof.
  destruct (lookups_keep_the_configuration Demo.env
              (CallGetBean 5 (VRef (TPtr (TPtr Demo.A)) 2) 0) Demo.reachedAB)
    as (_ & _ & _ & _ & _ & H & _).
  - reflexivity.
  - apply (reachable_Inv Demo.env). unfold Demo.reachedAB.
    repeat apply reachable_call. apply reachable_new.
  - exact H.
Defined.

(** What a wired context keeps: the flag, the method beans, and a bean
    map that can only lose entries. *)
Definition Frozen (s s' : state) : Prop :=
  autoWired s' = autoWired s ∧ methodBeans s' = methodBeans s
  ∧ ∀ k x, beanMap s' !! k = Some x → beanMap s !! k = Some x.

Global Instance Frozen_Reflexive : Reflexive Frozen.
Proof. intros s. by repeat split. Qed.

Global Instance Frozen_Transitive : Transitive Frozen.
Proof.
  intros s1 s2 s3 (A1 & M1 & K1) (A2 & M2 & K2).
  split; [congruence|]. split; [congruence|]. eauto.
Qed.

Lemma Quiet_Frozen s s' : Quiet s s' → Frozen s s'.
Proof. intros [A B C D M K T N X G]. done. Qed.

Lemma Frozen_core s s' :
  autoWired s' = autoWired s → methodBeans s' = methodBeans s →
  beanMap s' = beanMap s → Frozen s s'.
Proof. intros A M K. split; [done|]. split; [done|]. intros k x. by rewrite K. Qed.

Section FrozenCalls.

Context (E : Env).

Lemma frozen_emit e : steps Frozen (emit e).
Proof. intros s. by apply Frozen_core. Qed.

Lemma frozen_Close : steps Frozen (Close E).
Proof.
  unfold Close, eventNotify, getBD.
  steps_auto; apply frozen_emit.
Qed.

Lemma frozen_call c s : autoWired s = true → Frozen s (call E c s).
Proof.
  intros Haw.
  destruct (isLookup c) eqn:Hl; [by apply Quiet_Frozen, quiet_lookup|].
  destruct c as [nm bn|nm fn out tags|nm sel method tags|bd p ds es i d
                |b|b|b|fields|elems|n w|n i w|n beanId i w|n sel|n i w|n bn w|];
    try done; simpl.
  - unfold RegisterNameBean. rewrite (bind_Ok _ _ _ _ _ (newBD_eq _ _)).
    unfold bind. rewrite registerBeanDefinition_frozen by done.
    by apply Frozen_core.
  - unfold RegisterNameBeanFn.
    assert (∃ fb s0, newFunctionBean out tags s = (Ok fb, s0)
                     ∧ Frozen s s0) as (fb & s0 & Hfb & HF).
    { unfold newFunctionBean. destruct (IsRefType (rKind out)).
      - eexists _, _. split; [reflexivity|]. reflexivity.
      - eexists _, _. split; [reflexivity|]. by apply Frozen_core. }
    rewrite (bind_Ok _ _ _ _ _ Hfb).
    rewrite (bind_Ok _ _ _ _ _ (newBD_eq _ _)).
    unfold bind. rewrite registerBeanDefinition_frozen.
    + etransitivity; [exact HF|]. by apply Frozen_core.
    + simpl. destruct HF as (-> & _). done.
  - cbv [RegisterNameMethodBean checkRegistration bind gets]. rewrite Haw.
    reflexivity.
  - unfold AutoWireBeans. rewrite bind_gets, Haw. reflexivity.
  - apply frozen_Close.
Qed.

End FrozenCalls.

(** X13: the freeze is for good. Once the flag of [AutoWireBeans] is
    set, no call of the context resets it, registers a bean or a method
    bean, or runs [AutoWireBeans] again: the flag stays set, the list of
    method beans stays as it is, and the bean map can only lose
    entries. *)
Theorem wired_context_stays_frozen (E : Env) c s :
  autoWired s = true →
  let s' := call E c s in
  autoWired s' = true
  ∧ methodBeans s' = methodBeans s
  ∧ (∀ k x, beanMap s' !! k = Some x → beanMap s !! k = Some x)
  ∧ ∀ n w, AutoWireBeans E n w s' = (Panic AlreadyWiredError, s').
Proof.
  intros Haw s'. destruct (frozen_call E c s Haw) as (A & M & K).
  fold s' in A, M, K.
  split; [congruence|]. split; [done|]. split; [done|].
  intros n w. unfold AutoWireBeans. rewrite bind_gets, A, Haw. reflexivity.
Qed.

Lemma wired_context_stays_frozen_witness :
  autoWired (call Demo.env (CallRegisterNameBean "c" Demo.pC) Demo.wiredAB) = true.
Proof.
  apply (wired_context_stays_frozen Demo.env (CallRegisterNameBean "c" Demo.pC)
           Demo.wiredAB).
  reflexivity.
Defined.

(** ** A wired bean is final *)

Section FinalCalls.

Context (E : Env).

Lemma G_checkAutoWired : steps (G E []) checkAutoWired.
Proof. unfold checkAutoWired. steps_auto. Qed.

Lemma G_newDefaultBeanAssembly w : steps (G E []) (newDefaultBeanAssembly w).
Proof. unfold newDefaultBeanAssembly. steps_auto. Qed.

Lemma G_GetBeanByName n beanId i w : steps (G E []) (GetBeanByName E n beanId i w).
Proof.
  unfold GetBeanByName, ptrSlot.
  steps_auto;
    first [apply G_checkAutoWired|apply G_newDefaultBeanAssembly
          |apply getBeanValue_G].
Qed.

Lemma G_CollectBeans n i w : steps (G E []) (CollectBeans E n i w).
Proof.
  unfold CollectBeans, ptrSlot.
  steps_auto;
    first [apply G_checkAutoWired|apply G_newDefaultBeanAssembly
          |apply collectBeans_G].
Qed.

Lemma G_WireBean n b w : steps (G E []) (WireBean E n b w).
Proof.
  unfold WireBean.
  steps_auto;
    first [apply G_checkAutoWired|apply G_newDefaultBeanAssembly
          |apply wireBeanDefinition_G].
Qed.

Lemma G_lookup c s : isLookup c = true → G E [] s (call E c s).
Proof.
  destruct c; try done; intros _; simpl.
  - apply G_GetBeanByName.
  - apply G_GetBeanByName.
  - apply FindBean_G.
  - apply G_CollectBeans.
  - apply G_WireBean.
Qed.

End FinalCalls.

(** X14: beans are singletons. A lookup or [WireBean], whether it
    returns or panics, leaves every bean definition that is in status
    Wired exactly as it is - provider, value, status and configuration -
    and every slice as it is: a wired bean is never wired again and
    hands out the same value to every lookup. *)
Theorem wired_beans_are_final (E : Env) c s :
  isLookup c = true →
  Inv s →
  (∀ x d, beans s !! x = Some d → status d = beanStatus_Wired →
          beans (call E c s) !! x = Some d)
  ∧ (∀ a l, arrays s !! a = Some l → arrays (call E c s) !! a = Some l).
Proof.
  intros Hc HI. destruct (G_lookup E c s Hc HI) as (_ & [N A W D] & _).
  split.
  - intros x d Hd Hw. apply W; [|done|done]. intros Hx. by apply elem_of_nil in Hx.
  - exact A.
Qed.

Lemma wired_beans_are_final_witness :
  beans (call Demo.env (CallGetBean 5 (VRef (TPtr (TPtr Demo.A)) 2) 0)
           Demo.reachedAB) !! 3
  = Some (bd_set_status beanStatus_Wired
            (newBeanDefinition (objectBean (VRef (TPtr Demo.B) 1)) "")).
Proof.
  apply (wired_beans_are_final Demo.env
           (CallGetBean 5 (VRef (TPtr (TPtr Demo.A)) 2) 0) Demo.reachedAB).
  - reflexivity.
  - apply (reachable_Inv Demo.env). unfold Demo.reachedAB.
    repeat apply reachable_call. apply reachable_new.
  - reflexivity.
  - reflexivity.
Defined.

(** ** Resolution: [resolveBean] *)

Section ResolveOne.

Context (E : Env).

(** Putting a live bean into the cache item of a type, as [resolveBean]
    does for the type of the bean and for every exported type. *)
Lemma cacheBeans_put t bd s :
  Inv s →
  (∃ d, beans s !! bd = Some d ∧ live (status d)) →
  ∃ s', (item <- findCacheItem t ;; beanCacheItem_store item t bd) s = (Ok tt, s')
        ∧ Inv s' ∧ beans s' = beans s ∧ beanMap s' = beanMap s
        ∧ bd ∈ cacheBeans s' t
        ∧ ∀ t' x, x ∈ cacheBeans s t' → x ∈ cacheBeans s' t'.
Proof.
  intros HI Hbd.
  destruct (findCacheItem_step bd t s HI) as (HI1 & _ & Hb1 & _).
  assert (∃ d, beans (findCacheItem t s).2 !! bd = Some d ∧ live (status d)) as Hbd1
    by (by rewrite Hb1).
  destruct (findCacheItem_cases t s) as [(c & Hc & Heq)|[Hc Heq]].
  - rewrite (bind_Ok _ _ _ _ _ Heq). eexists. split; [reflexivity|].
    destruct (store_step c t bd s HI Hbd) as (HI' & _ & _).
    split; [exact HI'|]. split; [done|]. split; [done|].
    destruct (inv_cache _ HI t c Hc) as [l Hl].
    split.
    + unfold cacheBeans. simpl. rewrite Hc, lookup_alter_eq, Hl. simpl.
      apply elem_of_app. right. by left.
    + intros t' x. unfold cacheBeans. simpl.
      destruct (beanCache s !! t') as [c'|]; [|done].
      destruct (decide (c = c')) as [<-|Hne].
      * rewrite lookup_alter_eq, Hl. simpl. intros Hx. apply elem_of_app. by left.
      * by rewrite lookup_alter_ne.
  - rewrite (bind_Ok _ _ _ _ _ Heq). eexists. split; [reflexivity|].
    rewrite Heq in HI1, Hbd1. simpl in HI1, Hbd1.
    destruct (store_step (next s) t bd _ HI1 Hbd1) as (HI' & _ & _).
    split; [exact HI'|]. split; [done|]. split; [done|].
    split.
    + unfold cacheBeans. simpl. rewrite !lookup_insert_eq, lookup_alter_eq.
      rewrite lookup_insert_eq. simpl. by left.
    + intros t' x. unfold cacheBeans. simpl.
      destruct (decide (t = t')) as [<-|Hne].
      { rewrite Hc. intros Hx. by apply elem_of_nil in Hx. }
      rewrite lookup_insert_ne by done.
      destruct (beanCache s !! t') as [c'|] eqn:Hc'; [|done].
      destruct (inv_cache _ HI t' c' Hc') as [l Hl].
      assert (c' < next s) by (apply (inv_items _ HI); eauto).
      rewrite lookup_alter_ne, lookup_insert_ne by lia. done.
Qed.

(** The loop of [resolveBean] over the exported types. *)
Lemma resolveBean_exports t d bd (ts : list rtype) s :
  Inv s →
  (∃ d', beans s !! bd = Some d' ∧ live (status d')) →
  Forall (λ t', Implements E t t' = true) ts →
  ∃ s', forM_ ts (λ t',
          if negb (Implements E t t')
          then panic (ExportMismatchError (Description E d) t')
          else m <- findCacheItem t' ;; beanCacheItem_store m t' bd) s
        = (Ok tt, s')
        ∧ Inv s' ∧ beans s' = beans s ∧ beanMap s' = beanMap s
        ∧ (∀ t', t' ∈ ts → bd ∈ cacheBeans s' t')
        ∧ ∀ t' x, x ∈ cacheBeans s t' → x ∈ cacheBeans s' t'.
Proof.
  intros HI Hbd Hts. revert s HI Hbd.
  induction Hts as [|t' ts Ht' _ IH]; intros s HI Hbd; simpl.
  { exists s. split; [done|]. split; [done|]. split; [done|]. split; [done|].
    split; [|done]. intros t' Hx. by apply elem_of_nil in Hx. }
  rewrite Ht'. simpl.
  destruct (cacheBeans_put t' bd s HI Hbd) as (s1 & H1 & HI1 & Hb1 & Hm1 & Hin1 & Hmono1).
  unfold bind at 1. rewrite H1.
  destruct (IH s1 HI1) as (s2 & H2 & HI2 & Hb2 & Hm2 & Hin2 & Hmono2).
  { by rewrite Hb1. }
  exists s2. split; [exact H2|]. split; [done|].
  split; [congruence|]. split; [congruence|]. split.
  - intros t0 [->|Hx]%elem_of_cons; [by apply Hmono2|by apply Hin2].
  - intros t0 x Hx. by apply Hmono2, Hmono1.
Qed.

Lemma resolveBean_export_mismatch t d bd (l1 : list rtype) t' l2 s :
  Inv s →
  (∃ d', beans s !! bd = Some d' ∧ live (status d')) →
  Forall (λ t', Implements E t t' = true) l1 →
  Implements E t t' = false →
  (forM_ (l1 ++ t' :: l2) (λ t',
     if negb (Implements E t t')
     then panic (ExportMismatchError (Description E d) t')
     else m <- findCacheItem t' ;; beanCacheItem_store m t' bd) s).1
  = Panic (ExportMismatchError (Description E d) t').
Proof.
  intros HI Hbd Hl1 Ht'. revert s HI Hbd.
  induction Hl1 as [|t0 l1 Ht0 _ IH]; intros s HI Hbd; simpl.
  { rewrite Ht'. reflexivity. }
  rewrite Ht0. simpl.
  destruct (cacheBeans_put t0 bd s HI Hbd) as (s1 & H1 & HI1 & Hb1 & _).
  unfold bind at 1. rewrite H1. apply IH; [done|by rewrite Hb1].
Qed.

End ResolveOne.

Section ResolveBeanCases.

Context (E : Env).

(** The state in which [resolveBean] asks for the condition of a bean
    that is in status Default. *)
Definition resolving (bd : addr) (s : state) : state :=
  set_beans (alter (bd_set_status beanStatus_Resolving) bd) s.

Definition isMethodBean (b : springBean) : bool :=
  match b with methodBean _ _ _ => true | _ => false end.

Lemma resolveBean_Default n bd s d :
  beans s !! bd = Some d →
  status d = beanStatus_Default →
  isMethodBean (bean d) = false →
  resolveBean E (S n) bd s
  = (if negb (Matches E (resolving bd s) bd) then deleteBeanDefinition bd else
     t <- BD_Type d ;;
     item <- findCacheItem t ;;
     beanCacheItem_store item t bd ;;
     forM_ (exports d) (λ t',
       if negb (Implements E t t')
       then panic (ExportMismatchError (Description E d) t')
       else m <- findCacheItem t' ;; beanCacheItem_store m t' bd) ;;
     setStatus bd beanStatus_Resolved) (resolving bd s).
Proof.
  intros Hd Hst Hm. simpl.
  rewrite (bind_Ok _ _ _ _ _ (getBD_Some _ _ _ Hd)).
  destruct (decide _) as [Hlt|_]; [rewrite Hst in Hlt; simpl in Hlt; lia|].
  unfold setStatus at 1. rewrite bind_modify. fold (resolving bd s).
  destruct (bean d); try done; by rewrite bind_ret.
Qed.

Lemma resolving_lookup bd s d :
  beans s !! bd = Some d →
  beans (resolving bd s) !! bd = Some (bd_set_status beanStatus_Resolving d).
Proof. intros Hd. simpl. by rewrite lookup_alter_eq, Hd. Qed.

Lemma Inv_resolving bd s d :
  Inv s → beans s !! bd = Some d → status d = beanStatus_Default →
  Inv (resolving bd s).
Proof.
  intros HI Hd Hst. apply Inv_alter_bean; [done|].
  intros d' Hc _. destruct (inv_cached _ HI _ Hc) as (d0 & Hd0 & [Hl _]).
  congruence.
Qed.

End ResolveBeanCases.

(** X15: [resolveBean] on a bean in status Default (not a method bean)
    whose condition does not hold drops the bean: it returns, the bean is
    in status Deleted, its entry is gone from the bean map, nothing is
    put into the cache and no other bean definition changes. *)
Theorem resolveBean_drops_a_bean_whose_condition_fails (E : Env) n bd s d t :
  beans s !! bd = Some d →
  status d = beanStatus_Default →
  isMethodBean (bean d) = false →
  springBean_Type (bean d) = Some t →
  Matches E (resolving bd s) bd = false →
  let r := resolveBean E (S n) bd s in
  r.1 = Ok tt
  ∧ beans r.2 !! bd = Some (bd_set_status beanStatus_Deleted d)
  ∧ beanMap r.2 = delete (t, name d) (beanMap s)
  ∧ beanCache r.2 = beanCache s ∧ items r.2 = items s
  ∧ ∀ x, x ≠ bd → beans r.2 !! x = beans s !! x.
Proof.
  intros Hd Hst Hm Ht Hc r.
  assert (r = (Ok tt,
               set_beanMap (delete (t, name d))
                 (set_beans (alter (bd_set_status beanStatus_Deleted) bd)
                    (resolving bd s)))) as ->.
  { subst r. rewrite (resolveBean_Default E n bd s d Hd Hst Hm). rewrite Hc.
    change (negb false) with true. cbv iota. unfold deleteBeanDefinition.
    rewrite (bind_Ok _ _ _ _ _ (getBD_Some _ _ _ (resolving_lookup bd s d Hd))).
    unfold BD_Type. simpl bean. rewrite Ht. unfold the at 1. rewrite bind_ret.
    unfold setStatus. rewrite bind_modify. reflexivity. }
  cbn [fst snd]. simpl.
  split; [done|]. split; [|split; [done|split; [done|split; [done|]]]].
  - rewrite !lookup_alter_eq, Hd. simpl. by destruct d.
  - intros x Hx. by rewrite !lookup_alter_ne.
Qed.

Lemma resolveBean_drops_a_bean_whose_condition_fails_witness :
  let E := mkEnv Demo.fieldsOf (λ _ _, false) (λ _ _, None) (λ _ _, None)
             (λ _ _ _, None) (λ _ _, false) map_to_list rtype_String
             (λ s, (EmptyString, s)) (λ d, name d) (λ d, name d)
             (λ _, EmptyString) (λ d, file d) in
  beanMap (resolveBean E 1 200 Demo.registeredAB).2
  = delete (TPtr Demo.A, "*A") (beanMap Demo.registeredAB).
Proof.
  intros E.
  apply (resolveBean_drops_a_bean_whose_condition_fails E 0 200 Demo.registeredAB
           (newBeanDefinition (objectBean Demo.pA) "") (TPtr Demo.A));
    reflexivity.
Defined.

(** X16: [resolveBean] on a bean in status Default (not a method bean)
    whose condition holds puts the bean into the cache under its own type
    and under every exported type, keeps what the cache held, leaves the
    bean map alone and ends with the bean in status Resolved; a second
    call then does nothing. When an exported type is not implemented, it
    panics with "... not implement ... interface" at the first such
    type. *)
Theorem resolveBean_caches_a_bean_whose_condition_holds (E : Env) n bd s d t :
  Inv s →
  beans s !! bd = Some d →
  status d = beanStatus_Default →
  isMethodBean (bean d) = false →
  springBean_Type (bean d) = Some t →
  Matches E (resolving bd s) bd = true →
  let r := resolveBean E (S n) bd s in
  (Forall (λ t', Implements E t t' = true) (exports d) →
   r.1 = Ok tt
   ∧ beans r.2 !! bd = Some (bd_set_status beanStatus_Resolved d)
   ∧ bd ∈ cacheBeans r.2 t
   ∧ (∀ t', t' ∈ exports d → bd ∈ cacheBeans r.2 t')
   ∧ (∀ t' x, x ∈ cacheBeans s t' → x ∈ cacheBeans r.2 t')
   ∧ beanMap r.2 = beanMap s
   ∧ resolveBean E (S n) bd r.2 = (Ok tt, r.2))
  ∧ (∀ l1 t' l2,
       exports d = l1 ++ t' :: l2 →
       Forall (λ t', Implements E t t' = true) l1 →
       Implements E t t' = false →
       r.1 = Panic (ExportMismatchError (Description E d) t')).
Proof.
  intros HI Hd Hst Hm Ht Hc r.
  assert (r = (item <- findCacheItem t ;;
               beanCacheItem_store item t bd ;;
               forM_ (exports d) (λ t',
                 if negb (Implements E t t')
                 then panic (ExportMismatchError (Description E d) t')
                 else m <- findCacheItem t' ;; beanCacheItem_store m t' bd) ;;
               setStatus bd beanStatus_Resolved) (resolving bd s)) as Hr.
  { subst r. rewrite (resolveBean_Default E n bd s d Hd Hst Hm). rewrite Hc.
    change (negb true) with false. cbv iota.
    unfold BD_Type. rewrite Ht. unfold the at 1. by rewrite bind_ret. }
  pose proof (Inv_resolving bd s d HI Hd Hst) as HI1.
  assert (∃ d', beans (resolving bd s) !! bd = Some d' ∧ live (status d')) as Hl1.
  { eexists. split; [by apply resolving_lookup|]. simpl. split; done. }
  destruct (cacheBeans_put t bd _ HI1 Hl1) as (s2 & H2 & HI2 & Hb2 & Hm2 & Hin2 & Hmono2).
  assert (∃ d', beans s2 !! bd = Some d' ∧ live (status d')) as Hl2 by (by rewrite Hb2).
  assert (∀ k : M unit,
            bind (findCacheItem t)
              (λ item, bind (beanCacheItem_store item t bd) (λ _, k))
              (resolving bd s) = k s2) as Hput.
  { intros k. unfold bind in *.
    destruct (findCacheItem t (resolving bd s)) as [[item|e|] s1']; try done.
    destruct (beanCacheItem_store item t bd s1') as [[[]|e|] s2']; try done.
    by injection H2 as ->. }
  rewrite Hput in Hr. split.
  - intros Hex.
    destruct (resolveBean_exports E t d bd (exports d) s2 HI2 Hl2 Hex)
      as (s3 & H3 & HI3 & Hb3 & Hm3 & Hin3 & Hmono3).
    rewrite (bind_Ok _ _ _ _ _ H3) in Hr. unfold setStatus in Hr. simpl in Hr.
    rewrite Hr. cbn [fst snd].
    assert (beans (set_beans (alter (bd_set_status beanStatus_Resolved) bd) s3) !! bd
            = Some (bd_set_status beanStatus_Resolved d)) as Hfin.
    { simpl. rewrite lookup_alter_eq, Hb3, Hb2. simpl.
      rewrite lookup_alter_eq, Hd. simpl. by destruct d. }
    split; [done|]. split; [exact Hfin|]. split; [by apply Hmono3|].
    split; [exact Hin3|]. split; [intros t' x Hx; by apply Hmono3, Hmono2|].
    split; [simpl; by rewrite Hm3, Hm2|].
    by apply (resolveBean_noop E n bd _ _ Hfin).
  - intros l1 t' l2 Hex Hl1' Ht'. rewrite Hr, Hex.
    pose proof (resolveBean_export_mismatch E t d bd l1 t' l2 s2 HI2 Hl2 Hl1' Ht') as Hp.
    unfold bind at 1.
    match type of Hp with
    | (?m s2).1 = _ => destruct (m s2) as [[[]|e|] s3]; simpl in *; done
    end.
Qed.

Lemma Inv_call (E : Env) c s : Inv s → Inv (call E c s).
Proof. exact (rinv_call E c s). Qed.

Lemma Inv_heap0 : Inv Demo.heap0.
Proof.
  split; simpl.
  - intros x (t & c & l & Ht & _). discriminate Ht.
  - intros x [d Hd]. discriminate Hd.
  - intros x [d Hd]. discriminate Hd.
  - intros x [d Hd]. discriminate Hd.
  - intros t c Ht. discriminate Ht.
Qed.

Lemma resolveBean_caches_a_bean_whose_condition_holds_witness :
  200 ∈ cacheBeans (resolveBean Demo.env 1 200 Demo.registeredAB).2 (TPtr Demo.A).
Proof.
  refine (proj1 (proj2 (proj2 (proj1
    (resolveBean_caches_a_bean_whose_condition_holds Demo.env 0 200
       Demo.registeredAB (newBeanDefinition (objectBean Demo.pA) "") (TPtr Demo.A)
       _ _ _ _ _ _) _)))); try reflexivity.
  - assert (Demo.registeredAB
            = call Demo.env (CallRegisterNameBean "" Demo.pB)
                (call Demo.env (CallRegisterNameBean "" Demo.pA) Demo.heap0)) as ->
      by (vm_compute; reflexivity).
    apply Inv_call, Inv_call, Inv_heap0.
  - constructor.
Defined.

(** ** [FindBean] *)

(** A run that changes of a bean definition nothing but the status. *)
Definition OnlyStatus (s s' : state) : Prop :=
  ∀ x d, beans s !! x = Some d → ∃ st, beans s' !! x = Some (bd_set_status st d).

Lemma bd_set_status_id d : bd_set_status (status d) d = d.
Proof. by destruct d. Qed.

Lemma bd_set_status_twice st st' d :
  bd_set_status st' (bd_set_status st d) = bd_set_status st' d.
Proof. by destruct d. Qed.

Global Instance OnlyStatus_Reflexive : Reflexive OnlyStatus.
Proof. intros s x d Hd. exists (status d). by rewrite bd_set_status_id. Qed.

Global Instance OnlyStatus_Transitive : Transitive OnlyStatus.
Proof.
  intros s1 s2 s3 H1 H2 x d Hd.
  destruct (H1 x d Hd) as (st & Hst). destruct (H2 x _ Hst) as (st' & Hst').
  exists st'. by rewrite Hst', bd_set_status_twice.
Qed.

Lemma OnlyStatus_core s s' : beans s' = beans s → OnlyStatus s s'.
Proof. intros Hb x d Hd. exists (status d). by rewrite Hb, bd_set_status_id. Qed.

Section OnlyStatusResolve.

Context (E : Env).

Lemma onlyStatus_modify f :
  (∀ s, beans (f s) = beans s) → steps OnlyStatus (modify f).
Proof. intros Hf s. apply OnlyStatus_core. exact (Hf s). Qed.

Lemma onlyStatus_setStatus x st : steps OnlyStatus (setStatus x st).
Proof.
  intros s y d Hd. simpl. destruct (decide (x = y)) as [<-|Hne].
  - exists st. by rewrite lookup_alter_eq, Hd.
  - exists (status d). by rewrite lookup_alter_ne, bd_set_status_id.
Qed.

Lemma onlyStatus_fresh : steps OnlyStatus fresh.
Proof. intros s. by apply OnlyStatus_core. Qed.

Hint Resolve onlyStatus_setStatus onlyStatus_fresh : steps.
Hint Extern 1 (steps OnlyStatus (modify _)) =>
  (apply onlyStatus_modify; intros ?; reflexivity) : steps.

Lemma onlyStatus_resolveBean n : ∀ bd, steps OnlyStatus (resolveBean E n bd).
Proof.
  induction n as [|n IH]; intros bd; simpl;
    unfold deleteBeanDefinition, findCacheItem, newBeanCacheItem,
      beanCacheItem_store, getBD, BD_Type;
    steps_auto.
Qed.

End OnlyStatusResolve.

(** The status of a bean that lookups may hand out. *)
Definition usable (st : beanStatus) : Prop :=
  st ≠ beanStatus_Default ∧ st ≠ beanStatus_Resolving ∧ st ≠ beanStatus_Deleted.

Lemma hoare_drop_x {A} (P : state → Prop) (m : M A) Q Qx :
  hoare P m Q Qx → hoare P m Q (λ _, True).
Proof.
  intros H. eapply hoare_conseq; [exact H| | |]; done.
Qed.

Section ResolveSettles.

Context (E : Env).

Lemma hoare_delete_Deleted s0 bd :
  hoare (IA s0 bd) (deleteBeanDefinition bd)
        (λ _ s, hasStatus s beanStatus_Deleted bd) (λ _, True).
Proof.
  intros s (HI & (d & Hd & Hst) & _). unfold deleteBeanDefinition.
  rewrite (bind_Ok _ _ _ _ _ (getBD_Some _ _ _ Hd)).
  unfold BD_Type. destruct (springBean_Type (bean d)) as [t|]; [|done].
  unfold the. rewrite bind_ret. unfold setStatus. rewrite bind_modify. simpl.
  exists (bd_set_status beanStatus_Deleted d). split; [|done].
  simpl. by rewrite lookup_alter_eq, Hd.
Qed.

(** When [resolveBean] returns from a bean that was in status Default,
    the bean is resolved or deleted. *)
Lemma resolveBean_settles n bd s s' :
  Inv s → hasStatus s beanStatus_Default bd →
  resolveBean E n bd s = (Ok tt, s') →
  hasStatus s' beanStatus_Resolved bd ∨ hasStatus s' beanStatus_Deleted bd.
Proof.
  intros HI Hbd0 Hrun. destruct n as [|n]; [done|].
  pose proof Hbd0 as (d & Hd & Hst).
  simpl in Hrun. rewrite (bind_Ok _ _ _ _ _ (getBD_Some _ _ _ Hd)) in Hrun.
  destruct (decide _) as [Hlt|_]; [rewrite Hst in Hlt; simpl in Hlt; lia|].
  match type of Hrun with
  | ?m s = _ =>
      assert (hoare (λ s1, s1 = s) m
                (λ _ s1, hasStatus s1 beanStatus_Resolved bd
                         ∨ hasStatus s1 beanStatus_Deleted bd)
                (λ _, True)) as Hm
  end.
  2: { specialize (Hm s eq_refl). by rewrite Hrun in Hm. }
  clear Hrun.
  eapply hoare_bind with (R := λ _, IA s bd).
  { apply hoare_modify. intros s1 ->. by apply IA_start. }
  intros _.
  eapply hoare_bind
    with (R := λ deleted s1, if deleted : bool
                             then hasStatus s1 beanStatus_Deleted bd
                             else IA s bd s1).
  { destruct (bean d) as [| | fb parent method |]; try (by apply hoare_ret).
    eapply hoare_bind with (R := λ _, IA s bd).
    { eapply hoare_drop_x.
      eapply hoare_conseq;
        [apply (hoare_steps (IA s bd) RB _ (IA s bd) (resolveBean_RB E n parent))
        | | |]; try done.
      intros s1 s2 H1 H2. by eapply IA_RB. }
    intros _. eapply hoare_bind with (R := λ _, IA s bd).
    { unfold getBD. eapply hoare_bind with (R := λ _, IA s bd).
      - by apply hoare_gets.
      - intros o. apply hoare_the. by destruct o. }
    intros p. destruct (decide _).
    - eapply hoare_bind; [apply hoare_delete_Deleted|].
      intros ?. by apply hoare_ret.
    - by apply hoare_ret. }
  intros [|]; [apply hoare_ret; by right|].
  eapply hoare_bind with (R := λ _, IA s bd); [by apply hoare_gets|].
  intros ok. destruct (negb ok).
  { eapply hoare_conseq; [apply hoare_delete_Deleted| | |]; try done.
    intros ? s1 H1. by right. }
  eapply hoare_bind with (R := λ _, IA s bd).
  { apply hoare_the. by destruct (springBean_Type (bean d)). }
  intros t.
  eapply hoare_bind with (R := λ _, IA s bd).
  { eapply hoare_drop_x. apply hoare_IA_findCacheItem. }
  intros item.
  eapply hoare_bind with (R := λ _, IB s bd).
  { eapply hoare_drop_x.
    eapply hoare_conseq; [apply (hoare_IB_store s bd item t)| | |]; try done.
    apply IA_IB. }
  intros _.
  eapply hoare_bind with (R := λ _, IB s bd).
  { apply hoare_forM_. intros t' _. destruct (negb _).
    - by apply hoare_panic.
    - eapply hoare_bind with (R := λ _, IB s bd).
      + eapply hoare_drop_x. apply hoare_IB_findCacheItem.
      + intros m. eapply hoare_drop_x. apply hoare_IB_store. }
  intros _. apply hoare_modify. intros s1 (_ & (d1 & Hd1 & _) & _).
  left. apply hasStatus_alter. eauto.
Qed.

End ResolveSettles.

Section FindBeanResult.

Context (E : Env).
Hypothesis Hvalid : mapRange_valid E.

(** A filter that does not look at the status of a bean. *)
Definition statusBlind (fn : BeanDefinition → bool) : Prop :=
  ∀ st d, fn (bd_set_status st d) = fn d.

(** What holds of a bean in the result of [finder]. *)
Definition found (fn : BeanDefinition → bool) (s0 s : state) (b : addr) : Prop :=
  (∃ k, beanMap s0 !! k = Some b)
  ∧ ∃ d, beans s !! b = Some d ∧ fn d = true ∧ usable (status d).

Lemma getBD_None a s :
  beans s !! a = None →
  getBD a s = (Panic (RuntimePanic "nil pointer dereference"), s).
Proof. intros H. unfold getBD. by rewrite bind_gets, H. Qed.

Lemma found_keep fn s0 s s1 b : RBframe s s1 → found fn s0 s b → found fn s0 s1 b.
Proof.
  intros HF (Hk & d & Hd & Hfn & Hu). split; [done|].
  exists d. split; [|done]. eapply rb_keep; [exact HF|exact Hd|]. apply Hu.
Qed.

Lemma finder_step n fn s0 result kb rest :
  statusBlind fn →
  hoare (λ s, Inv s ∧ (∀ x, x ∈ kb :: rest → x ∈ mapRange E (beanMap s0))
              ∧ Forall (found fn s0 s) result)
    (let b : addr := kb.2 in
     d <- getBD b ;;
     if fn d then
       if decide (status d = beanStatus_Resolving) then ret result
       else
         resolveBean E n b ;;
         d' <- getBD b ;;
         if decide (status d' ≠ beanStatus_Deleted)
         then ret (result ++ [b]) else ret result
     else ret result)
    (λ result' s, Inv s ∧ (∀ x, x ∈ rest → x ∈ mapRange E (beanMap s0))
                  ∧ Forall (found fn s0 s) result')
    (λ _, True).
Proof.
  intros Hblind s (HI & Hin & Hres). cbv zeta.
  assert (∀ x, x ∈ rest → x ∈ mapRange E (beanMap s0)) as Hin'
    by (intros x Hx; apply Hin; by right).
  destruct (beans s !! kb.2) as [d|] eqn:Hd.
  2: { by rewrite (bind_Panic _ _ _ _ _ (getBD_None _ _ Hd)). }
  rewrite (bind_Ok _ _ _ _ _ (getBD_Some _ _ _ Hd)).
  destruct (fn d) eqn:Hfn; [|done].
  destruct (decide (status d = beanStatus_Resolving)) as [|Hnr]; [done|].
  pose proof (resolveBean_RB E n kb.2 s HI) as HRB.
  pose proof (onlyStatus_resolveBean E n kb.2 s kb.2 d Hd) as [st Hst].
  pose proof (resolveBean_settles E n kb.2 s) as Hset.
  unfold bind at 1.
  destruct (resolveBean E n kb.2 s) as [[[]|e|] s1]; try done.
  simpl in HRB, Hst. destruct HRB as [HI1 HF].
  rewrite (bind_Ok _ _ _ _ _ (getBD_Some _ _ _ Hst)). simpl status.
  assert (Forall (found fn s0 s1) result) as Hres1.
  { eapply Forall_impl; [exact Hres|]. intros b. by apply found_keep. }
  change (status (bd_set_status st d)) with st.
  destruct (decide (st ≠ beanStatus_Deleted)) as [Hnd|]; simpl; [|done].
  split; [done|]. split; [done|].
  apply Forall_app. split; [done|]. constructor; [|done].
  split.
  - assert (kb ∈ mapRange E (beanMap s0)) as Hkb by (apply Hin; by left).
    rewrite (Hvalid (beanMap s0)) in Hkb. destruct kb as [k b].
    apply elem_of_map_to_list in Hkb. by exists k.
  - exists (bd_set_status st d). split; [done|]. split; [by rewrite Hblind|].
    simpl. destruct (decide (status d = beanStatus_Default)) as [Hdef|Hndef].
    + destruct (Hset s1 HI ltac:(by exists d) eq_refl) as [(d1 & Hd1 & H1)|(d1 & Hd1 & H1)];
        rewrite Hst in Hd1; injection Hd1 as <-; simpl in H1; subst st;
        [by repeat split|done].
    + pose proof (rb_keep _ _ HF _ _ Hd Hndef) as Hk. rewrite Hst in Hk.
      injection Hk as Hk. apply (f_equal status) in Hk. simpl in Hk. subst st.
      by repeat split.
Qed.

Lemma finder_found n fn s0 :
  statusBlind fn → Inv s0 →
  hoare (λ s, s = s0) (finder E n fn)
    (λ result s, Inv s ∧ Forall (found fn s0 s) result) (λ _, True).
Proof.
  intros Hblind HI0. unfold finder.
  eapply hoare_bind with (R := λ m s, s = s0 ∧ m = beanMap s0).
  { apply hoare_gets. by intros s ->. }
  intros m. apply hoare_pure_pre. intros ->.
  eapply hoare_conseq.
  - apply (hoare_foldM
             (λ result rest s,
                Inv s ∧ (∀ x, x ∈ rest → x ∈ mapRange E (beanMap s0))
                ∧ Forall (found fn s0 s) result)).
    intros result kb rest. by apply finder_step.
  - intros s ->. split; [done|]. split; [done|]. constructor.
  - intros result s (HI & _ & Hres). done.
  - done.
Qed.

(** The filter that [FindBean] makes of a selector. *)
Definition selected (sel : Selector) (s : state) (d : BeanDefinition) : Prop :=
  match sel with
  | SelString o =>
      Match E d (ParseBeanId E o).1.1 (ParseBeanId E o).1.2 = true
  | _ => ∃ t bt, selectorType sel s = (Ok t, s)
                 ∧ springBean_Type (bean d) = Some bt
                 ∧ AssignableTo E bt t = true
  end.

Lemma Match_statusBlind tn bn : statusBlind (λ d, Match E d tn bn).
Proof. intros st d. by destruct d. Qed.

Lemma FindBean_found n sel s :
  Inv s →
  hoare (λ s1, s1 = s) (FindBean E n sel)
    (λ r s', ∀ b, r = Some b →
       (∃ k, beanMap s !! k = Some b)
       ∧ ∃ d, beans s' !! b = Some d ∧ usable (status d) ∧ selected sel s d)
    (λ _, True).
Proof.
  intros HI. unfold FindBean.
  eapply hoare_bind with (R := λ _ s1, s1 = s).
  { unfold checkAutoWired. eapply hoare_bind with (R := λ _ s1, s1 = s).
    - by apply hoare_gets.
    - intros []; [by apply hoare_ret|by apply hoare_panic]. }
  intros _.
  eapply hoare_bind
    with (R := λ result s', ∀ b, b ∈ result →
                 (∃ k, beanMap s !! k = Some b)
                 ∧ ∃ d, beans s' !! b = Some d ∧ usable (status d) ∧ selected sel s d).
  - destruct sel as [|o|bd0|t].
    + by apply hoare_panic.
    + destruct (ParseBeanId E o) as [[tn bn] nl] eqn:HP.
      eapply hoare_conseq;
        [apply (finder_found n (λ d, Match E d tn bn) s (Match_statusBlind tn bn) HI)
        |done| |done].
      intros result s' [_ Hres] b Hb.
      rewrite Forall_forall in Hres. destruct (Hres b Hb) as (Hk & d & Hd & Hfn & Hu).
      split; [done|]. exists d. split; [done|]. split; [done|].
      unfold selected. by rewrite HP.
    + apply hoare_bind_ret.
      eapply hoare_conseq;
        [apply (finder_found n _ s) | done | | done]; [by intros st []|done|].
      intros result s' [_ Hres] b Hb.
      rewrite Forall_forall in Hres. destruct (Hres b Hb) as (Hk & d & Hd & Hfn & Hu).
      split; [done|]. exists d. split; [done|]. split; [done|].
      simpl. destruct (springBean_Type (bean d)) as [bt|] eqn:Hbt; [|done].
      eexists _, bt. split; [reflexivity|]. done.
    + assert (∃ t0, selectorType (SelType t) = ret t0) as [t0 Ht0].
      { destruct t as [| | | |[]| |]; eexists; reflexivity. }
      rewrite Ht0. apply hoare_bind_ret.
      eapply hoare_conseq;
        [apply (finder_found n _ s) | done | | done]; [by intros st []|done|].
      intros result s' [_ Hres] b Hb.
      rewrite Forall_forall in Hres. destruct (Hres b Hb) as (Hk & d & Hd & Hfn & Hu).
      split; [done|]. exists d. split; [done|]. split; [done|].
      destruct (springBean_Type (bean d)) as [bt|] eqn:Hbt; [|done].
      exists t0, bt. split; [by rewrite Ht0|]. done.
  - intros [|b [|b' l]].
    + apply hoare_ret. intros s' _ b [=].
    + apply hoare_ret. intros s' H b0 [= <-]. apply H. by left.
    + eapply hoare_bind with (R := λ _ _, True); [by apply hoare_gets|].
      intros ?. by apply hoare_panic.
Qed.

End FindBeanResult.

(** X17: a bean that [FindBean] returns is an entry of the bean map, it
    matches the selector (name and type for a string, the type for a type
    selector), and it is resolved: not deleted, nor waiting for its
    resolution. *)
Theorem FindBean_returns_a_resolved_match (E : Env) n sel s b s' :
  mapRange_valid E →
  Inv s →
  FindBean E n sel s = (Ok (Some b), s') →
  (∃ k, beanMap s !! k = Some b)
  ∧ ∃ d, beans s' !! b = Some d ∧ usable (status d) ∧ selected E sel s d.
Proof.
  intros Hv HI Hrun.
  pose proof (FindBean_found E Hv n sel s HI s eq_refl) as H.
  rewrite Hrun in H. by apply H.
Qed.

Lemma FindBean_returns_a_resolved_match_witness :
  ∃ d, beans (FindBean Demo.env 5 (SelString "*A") Demo.reachedAB).2 !! 2 = Some d
       ∧ usable (status d).
Proof.
  destruct (FindBean Demo.env 5 (SelString "*A") Demo.reachedAB) as [o s'] eqn:Heq.
  assert (o = Ok (Some 2)) as ->.
  { apply (f_equal fst) in Heq. vm_compute in Heq. congruence. }
  destruct (FindBean_returns_a_resolved_match Demo.env 5 (SelString "*A")
              Demo.reachedAB 2 s') as (_ & d & Hd & Hu & _).
  - intros m. reflexivity.
  - apply (reachable_Inv Demo.env). unfold Demo.reachedAB.
    repeat apply reachable_call. apply reachable_new.
  - exact Heq.
  - exists d. split; [exact Hd|exact Hu].
Defined.

(** ** Runs that return *)

(** Every run of [m] that returns relates the state it starts in to the
    state it ends in. *)
Definition stepsOk {A} (R : state → state → Prop) (m : M A) : Prop :=
  ∀ s, match m s with (Ok _, s') => R s s' | _ => True end.

Section StepsOk.

Context (R : state → state → Prop) `{!Reflexive R, !Transitive R}.

Lemma stepsOk_of_steps {A} (m : M A) : steps R m → stepsOk R m.
Proof. intros H s. specialize (H s). by destruct (m s) as [[a|e|] s']. Qed.

Lemma stepsOk_ret {A} (a : A) : stepsOk R (ret a).
Proof. intros s. simpl. reflexivity. Qed.

Lemma stepsOk_panic {A} e : stepsOk R (@panic A e).
Proof. intros s. done. Qed.

Lemma stepsOk_outOfFuel {A} : stepsOk R (@outOfFuel A).
Proof. intros s. done. Qed.

Lemma stepsOk_gets {A} (f : state → A) : stepsOk R (gets f).
Proof. intros s. simpl. reflexivity. Qed.

Lemma stepsOk_the {A} (o : option A) msg : stepsOk R (the o msg).
Proof. destruct o; [apply stepsOk_ret|apply stepsOk_panic]. Qed.

Lemma stepsOk_bind {A B} (m : M A) (f : A → M B) :
  stepsOk R m → (∀ a, stepsOk R (f a)) → stepsOk R (bind m f).
Proof.
  intros Hm Hf s. unfold bind. specialize (Hm s).
  destruct (m s) as [[a|e|] s1]; try done.
  specialize (Hf a s1). destruct (f a s1) as [[b|e|] s2]; try done.
  by etransitivity.
Qed.

Lemma stepsOk_when b (m : M unit) : stepsOk R m → stepsOk R (when b m).
Proof. destruct b; [done|intros _; apply stepsOk_ret]. Qed.

Lemma stepsOk_forM_ {A} (l : list A) (f : A → M unit) :
  (∀ x, stepsOk R (f x)) → stepsOk R (forM_ l f).
Proof.
  intros Hf. induction l as [|x l IH]; simpl.
  - apply stepsOk_ret.
  - apply stepsOk_bind; [apply Hf|intros _; apply IH].
Qed.

Lemma stepsOk_foldM {A B} (f : B → A → M B) (b : B) (l : list A) :
  (∀ b x, stepsOk R (f b x)) → stepsOk R (foldM f b l).
Proof.
  intros Hf. revert b. induction l as [|x l IH]; intros b; simpl.
  - apply stepsOk_ret.
  - apply stepsOk_bind; [apply Hf|intros b'; apply IH].
Qed.

End StepsOk.

Lemma stepsOk_impl {A} (R R' : state → state → Prop) (m : M A) :
  (∀ s s', R s s' → R' s s') → stepsOk R m → stepsOk R' m.
Proof.
  intros HR Hm s. specialize (Hm s). destruct (m s) as [[a|e|] s']; auto.
Qed.

(** A bind whose tail absorbs what the head may do. *)
Lemma stepsOk_bind_absorb {A B} (R T : state → state → Prop)
    (m : M A) (f : A → M B) :
  (∀ s1 s2 s3, R s1 s2 → T s2 s3 → T s1 s3) →
  stepsOk R m → (∀ a, stepsOk T (f a)) → stepsOk T (bind m f).
Proof.
  intros HRT Hm Hf s. unfold bind. specialize (Hm s).
  destruct (m s) as [[a|e|] s1]; try done.
  specialize (Hf a s1). destruct (f a s1) as [[b|e|] s2]; try done.
  by eapply HRT.
Qed.

Ltac stepsOk_step :=
  match goal with
  | |- stepsOk ?R (ret _) => apply (stepsOk_ret R)
  | |- stepsOk ?R (panic _) => apply (stepsOk_panic R)
  | |- stepsOk ?R outOfFuel => apply (stepsOk_outOfFuel R)
  | |- stepsOk ?R (gets _) => apply (stepsOk_gets R)
  | |- stepsOk ?R (the _ _) => apply (stepsOk_the R)
  | |- stepsOk ?R (bind _ _) => apply (stepsOk_bind R); [|intros ?]
  | |- stepsOk ?R (when _ _) => apply (stepsOk_when R)
  | |- stepsOk ?R (forM_ _ _) => apply (stepsOk_forM_ R); intros ?
  | |- stepsOk ?R (foldM _ _ _) => apply (stepsOk_foldM R); intros ? ?
  | |- stepsOk _ (match ?x with _ => _ end) => destruct x
  | |- stepsOk _ (if ?x then _ else _) => destruct x
  | |- stepsOk _ _ => assumption
  | |- stepsOk _ _ => solve [eauto with steps]
  | |- stepsOk ?R _ => apply (stepsOk_of_steps R); solve [eauto with steps]
  end.

Ltac stepsOk_auto := repeat stepsOk_step.

(** ** No bean is left in status Wiring *)

(** A run after which the beans in status Wiring are beans that were so
    before, or beans of [X]. *)
Definition NW (X : list addr) (s s' : state) : Prop :=
  ∀ x, hasStatus s' beanStatus_Wiring x → x ∈ X ∨ hasStatus s beanStatus_Wiring x.

Global Instance NW_Reflexive X : Reflexive (NW X).
Proof. intros s x Hx. by right. Qed.

Global Instance NW_Transitive X : Transitive (NW X).
Proof.
  intros s1 s2 s3 H1 H2 x Hx. destruct (H2 x Hx) as [|Hx2]; [by left|].
  by apply H1.
Qed.

Lemma NW_core X s s' : beans s' = beans s → NW X s s'.
Proof. intros Hb x (d & Hd & Hst). right. exists d. by rewrite <- Hb. Qed.

Lemma NW_mono X Y s s' : (∀ x, x ∈ X → x ∈ Y) → NW X s s' → NW Y s s'.
Proof. intros HXY H x Hx. destruct (H x Hx); [left; auto|by right]. Qed.

Section NWPrimitives.

Lemma nw_modify X f : (∀ s, beans (f s) = beans s) → steps (NW X) (modify f).
Proof. intros Hf s. apply NW_core. exact (Hf s). Qed.

Lemma nw_newBD X d : status d ≠ beanStatus_Wiring → steps (NW X) (newBD d).
Proof.
  intros Hd s. rewrite newBD_eq. intros x (d' & Hd' & Hst). simpl in *.
  right. destruct (decide (next s = x)) as [<-|Hne].
  - rewrite lookup_insert_eq in Hd'. congruence.
  - rewrite lookup_insert_ne in Hd' by done. by exists d'.
Qed.

Lemma nw_alter X (f : BeanDefinition → BeanDefinition) x :
  (∀ d, status (f d) = beanStatus_Wiring → status d = beanStatus_Wiring ∨ x ∈ X) →
  steps (NW X) (modify (set_beans (alter f x))).
Proof.
  intros Hf s y (d' & Hd' & Hst). simpl in *.
  destruct (decide (x = y)) as [<-|Hne].
  - rewrite lookup_alter_eq in Hd'.
    destruct (beans s !! x) as [d|] eqn:Hd; [|done]. simpl in Hd'.
    injection Hd' as <-. destruct (Hf d Hst) as [Hs|HX]; [right; by exists d|by left].
  - rewrite lookup_alter_ne in Hd' by done. right. by exists d'.
Qed.

Lemma nw_setStatus X x st : st ≠ beanStatus_Wiring → steps (NW X) (setStatus x st).
Proof. intros Hst. apply nw_alter. intros d Hd. simpl in Hd. done. Qed.

Lemma nw_setStatus_Wiring X x : x ∈ X → steps (NW X) (setStatus x beanStatus_Wiring).
Proof. intros HX. apply nw_alter. intros d _. by right. Qed.

Lemma nw_rValue_Set X x v : steps (NW X) (rValue_Set x v).
Proof. apply nw_alter. intros d Hd. by left. Qed.

End NWPrimitives.

#[global] Hint Resolve nw_rValue_Set : steps.
#[global] Hint Extern 1 (steps (NW _) (modify _)) =>
  (apply nw_modify; intros ?; reflexivity) : steps.
#[global] Hint Extern 1 (steps (NW _) (newBD _)) =>
  (apply nw_newBD; simpl; discriminate) : steps.
#[global] Hint Extern 1 (steps (NW _) (setStatus _ _)) =>
  (apply nw_setStatus; discriminate) : steps.

(** The small operations, down to the changes of the state. *)
Ltac unfold_ops :=
  repeat progress unfold getBD, BD_Type, beanCacheItem_beans, beanCacheItem_store,
    notifyWatchers, pushBack, popBack, emit, vLen, vIndex, vAddr, vElem, vField,
    slotGet, slotSet, newVar, newSlice, Elem_Set, springBean_functionBean,
    newBeanCacheItem, getCacheItem, findCacheItem, checkAutoWired, selectorType,
    deleteBeanDefinition, eventNotify, newDefaultBeanAssembly, fresh.

Section NWAssembly.

Context (E : Env).

Lemma nw_resolveBean X n : ∀ bd, steps (NW X) (resolveBean E n bd).
Proof.
  induction n as [|n IH]; intros bd; simpl; unfold_ops; steps_auto.
Qed.

Hint Resolve nw_resolveBean : steps.

Lemma nw_FindBean X n sel : steps (NW X) (FindBean E n sel).
Proof. unfold FindBean, finder. unfold_ops. steps_auto. Qed.

Section Open.

Variable wire : IBeanDefinition → bool → M unit.
Variable findBean : Selector → M (option addr).
Hypothesis Hwire : ∀ bd o, stepsOk (NW []) (wire bd o).
Hypothesis HfindBean : ∀ sel, steps (NW []) (findBean sel).

Lemma nw_wire X bd o : stepsOk (NW X) (wire bd o).
Proof.
  eapply stepsOk_impl; [|apply Hwire]. intros s s'. apply NW_mono.
  intros x Hx. by apply elem_of_nil in Hx.
Qed.

Lemma nw_findBean X sel : steps (NW X) (findBean sel).
Proof.
  eapply steps_impl; [|apply HfindBean]. intros s s'. apply NW_mono.
  intros x Hx. by apply elem_of_nil in Hx.
Qed.

Hint Resolve nw_wire nw_findBean : steps.

Lemma nw_getBeanValue_ X v beanId pv field :
  stepsOk (NW X) (getBeanValue_ E wire v beanId pv field).
Proof. unfold getBeanValue_. unfold_ops. stepsOk_auto. Qed.

Lemma nw_wireElement X d di : stepsOk (NW X) (wireElement wire d di).
Proof. unfold wireElement. unfold_ops. stepsOk_auto. Qed.

Hint Resolve nw_getBeanValue_ nw_wireElement : steps.

Lemma nw_collectElements X d size idx chunk :
  stepsOk (NW X) (collectElements wire d size idx chunk).
Proof.
  revert chunk. induction idx as [|i idx IH]; intros chunk; simpl;
    unfold_ops; stepsOk_auto.
Qed.

Hint Resolve nw_collectElements : steps.

Lemma nw_collectBeans_ X v : stepsOk (NW X) (collectBeans_ wire v).
Proof. unfold collectBeans_. unfold_ops. stepsOk_auto. Qed.

Hint Resolve nw_collectBeans_ : steps.

Lemma nw_wireStructField_ X pv bv field beanId :
  stepsOk (NW X) (wireStructField_ E wire pv bv field beanId).
Proof. unfold wireStructField_. stepsOk_auto. Qed.

Hint Resolve nw_wireStructField_ : steps.

Lemma nw_wireObjectBean_ X bd o : stepsOk (NW X) (wireObjectBean_ E wire bd o).
Proof. unfold wireObjectBean_. unfold_ops. stepsOk_auto. Qed.

Lemma nw_arg_Get X args : stepsOk (NW X) (arg_Get E wire args).
Proof. unfold arg_Get. unfold_ops. stepsOk_auto. Qed.

Hint Resolve nw_wireObjectBean_ nw_arg_Get : steps.

Lemma nw_wireFunctionBean_ X fnValue bd :
  stepsOk (NW X) (wireFunctionBean_ E wire fnValue bd).
Proof. unfold wireFunctionBean_. unfold_ops. stepsOk_auto. Qed.

Hint Resolve nw_wireFunctionBean_ : steps.

(** While [bd] is wired, the beans in status Wiring are [bd] and beans
    that were so before; when its wiring is over, [bd] is no longer among
    them. *)
Definition NWdone (bd : addr) (s s' : state) : Prop :=
  ∀ x, hasStatus s' beanStatus_Wiring x → x ≠ bd ∧ hasStatus s beanStatus_Wiring x.

Lemma NW_NWdone bd s1 s2 s3 : NW [bd] s1 s2 → NWdone bd s2 s3 → NWdone bd s1 s3.
Proof.
  intros H1 H2 x Hx. destruct (H2 x Hx) as [Hne Hx2]. split; [done|].
  destruct (H1 x Hx2) as [Hin|]; [|done].
  by apply list_elem_of_singleton in Hin.
Qed.

Lemma nwdone_setStatus_Wired bd : stepsOk (NWdone bd) (setStatus bd beanStatus_Wired).
Proof.
  intros s. simpl. intros x (d' & Hd' & Hst). simpl in Hd'.
  destruct (decide (bd = x)) as [<-|Hne].
  - rewrite lookup_alter_eq in Hd'.
    destruct (beans s !! bd) as [d|]; [|done]. simpl in Hd'.
    injection Hd' as <-. done.
  - rewrite lookup_alter_ne in Hd' by done. split; [done|]. by exists d'.
Qed.

Lemma nw_wireBeanDefinition_ bd o :
  stepsOk (NW []) (wireBeanDefinition_ E wire findBean bd o).
Proof.
  intros s. unfold wireBeanDefinition_.
  destruct (beans s !! ibd bd) as [d|] eqn:Hd.
  2: { by rewrite (bind_Panic _ _ _ _ _ (getBD_None _ _ Hd)). }
  rewrite (bind_Ok _ _ _ _ _ (getBD_Some _ _ _ Hd)).
  destruct (decide (status d = beanStatus_Deleted)); [done|].
  destruct (decide (status d = beanStatus_Wired)); [simpl; reflexivity|].
  rewrite (bind_Ok _ _ _ _ _ (pushBack_pushed bd s)).
  assert (NW [] s (pushed bd s)) as Hpush by (by apply NW_core).
  destruct (decide (status d = beanStatus_Wiring)).
  { destruct (negb (isObjectBean (bean d))); [done|exact Hpush]. }
  match goal with
  | |- match ?m (pushed bd s) with _ => _ end =>
      assert (stepsOk (NWdone (ibd bd)) m) as Hm
  end.
  { assert (ibd bd ∈ [ibd bd]) as HX by (by apply list_elem_of_singleton).
    repeat (apply (stepsOk_bind_absorb (NW [ibd bd]) (NWdone (ibd bd)));
            [apply NW_NWdone| |intros ?]);
      try apply nwdone_setStatus_Wired;
      try (apply (stepsOk_of_steps (NW [ibd bd])); by apply nw_setStatus_Wiring);
      unfold_ops; stepsOk_auto. }
  specialize (Hm (pushed bd s)).
  match goal with
  | |- match ?r with _ => _ end => destruct r as [[[]|e|] s']; try done
  end.
  intros x Hx. destruct (Hm x Hx) as [_ Hx']. right. exact Hx'.
Qed.

End Open.

Lemma nw_wireBeanDefinition n : ∀ bd o, stepsOk (NW []) (wireBeanDefinition E n bd o).
Proof.
  induction n as [|n IH]; intros bd o; simpl.
  - apply (stepsOk_outOfFuel (NW [])).
  - apply nw_wireBeanDefinition_; [exact IH|]. intros sel. apply nw_FindBean.
Qed.

End NWAssembly.

(** ** [AutoWireBeans] *)

Definition noWiring (s : state) : Prop := ∀ x, ¬ hasStatus s beanStatus_Wiring x.

Lemma NW_noWiring s s' : NW [] s s' → noWiring s → noWiring s'.
Proof.
  intros H Hs x Hx. destruct (H x Hx) as [Hin|Hx']; [by apply elem_of_nil in Hin|].
  by apply (Hs x).
Qed.

(** The flags that only the program sets. *)
Definition Flags (s s' : state) : Prop :=
  Sort s' = Sort s ∧ autoWired s' = autoWired s.

Global Instance Flags_Reflexive : Reflexive Flags.
Proof. intros s. by split. Qed.

Global Instance Flags_Transitive : Transitive Flags.
Proof. intros s1 s2 s3 [A1 B1] [A2 B2]. split; congruence. Qed.

Lemma flags_modify f :
  (∀ s, Sort (f s) = Sort s ∧ autoWired (f s) = autoWired s) →
  steps Flags (modify f).
Proof. intros Hf s. exact (Hf s). Qed.

#[global] Hint Extern 1 (steps Flags (modify _)) =>
  (apply flags_modify; intros ?; split; reflexivity) : steps.
#[global] Hint Extern 2 (steps (NW _) (modify (set_beans (alter _ _)))) =>
  (apply nw_alter; intros ? ?; left; assumption) : steps.

Lemma hoare_forM_done {A} (I : list A → state → Prop) (l : list A)
    (f : A → M unit) Qx :
  (∀ done x, hoare (I done) (f x) (λ _, I (done ++ [x])) Qx) →
  ∀ done, hoare (I done) (forM_ l f) (λ _, I (done ++ l)) Qx.
Proof.
  intros Hf. induction l as [|x l IH]; intros done; simpl.
  - apply hoare_ret. intros s. by rewrite app_nil_r.
  - eapply hoare_bind; [apply Hf|]. intros ?.
    eapply hoare_conseq; [apply (IH (done ++ [x]))|done| |done].
    intros ? s. by rewrite <- app_assoc.
Qed.

Section AutoWire.

Context (E : Env).

Lemma flags_finalizeMethodBean bd : steps Flags (finalizeMethodBean E bd).
Proof.
  unfold finalizeMethodBean, registerBeanDefinition, checkRegistration,
    newFunctionBean, newBD.
  unfold_ops. steps_auto.
Qed.

Lemma nw_finalizeMethodBean bd : steps (NW []) (finalizeMethodBean E bd).
Proof.
  unfold finalizeMethodBean, registerBeanDefinition, checkRegistration,
    newFunctionBean.
  unfold_ops. steps_auto.
Qed.

Lemma flags_eventNotify e : steps Flags (eventNotify e).
Proof. unfold_ops. steps_auto. Qed.

Lemma nw_eventNotify e : steps (NW []) (eventNotify e).
Proof. unfold_ops. steps_auto. Qed.

Lemma wireBeanDefinition_Ok_exists n bd o s s' :
  wireBeanDefinition E n bd o s = (Ok tt, s') →
  ∃ n' d, n = S n' ∧ beans s !! ibd bd = Some d.
Proof.
  destruct n as [|n]; [done|]. simpl. unfold wireBeanDefinition_.
  destruct (beans s !! ibd bd) as [d|] eqn:Hd; [eauto|].
  by rewrite (bind_Panic _ _ _ _ _ (getBD_None _ _ Hd)).
Qed.

(** One bean of the wiring loop of [AutoWireBeans]. *)
Lemma wire_top n bd s s' :
  Inv s → noWiring s →
  wireBeanDefinition E n (IBean bd) false s = (Ok tt, s') →
  Inv s' ∧ noWiring s' ∧ Quiet s s'
  ∧ hasStatus s' beanStatus_Wired bd
  ∧ ∀ x, hasStatus s beanStatus_Wired x → hasStatus s' beanStatus_Wired x.
Proof.
  intros HI Hnw Hrun.
  pose proof (wireBeanDefinition_G E n (IBean bd) false s HI) as HG.
  pose proof (nw_wireBeanDefinition E n (IBean bd) false s) as HN.
  pose proof (quiet_wireBeanDefinition E n (IBean bd) false s) as HQ.
  rewrite Hrun in HG, HN, HQ. simpl in HG, HQ.
  destruct HG as (HI' & [_ _ W _] & _).
  destruct (wireBeanDefinition_Ok_exists n (IBean bd) false s s' Hrun)
    as (n' & d & -> & Hd).
  split; [done|]. split; [by eapply NW_noWiring|]. split; [done|]. split.
  - apply (wireBeanDefinition_Ok_wired E n' (IBean bd) false s s' d Hd); [|done].
    intros Hst. apply (Hnw bd). by exists d.
  - intros x (dx & Hdx & Hst). exists dx. split; [|done].
    apply W; [|done|done]. intros Hx. by apply elem_of_nil in Hx.
Qed.

(** The state of the context before the wiring loop. *)
Definition Ready (s : state) : Prop :=
  Inv s ∧ noWiring s ∧ Sort s = false.

Lemma Ready_steps {A} (m : M A) s :
  steps RInv m → steps (NW []) m → steps Flags m →
  Ready s → Ready (m s).2 ∧ autoWired (m s).2 = autoWired s.
Proof.
  intros H1 H2 H3 (HI & Hnw & HS).
  destruct (H3 s) as [HS' Haw].
  split; [|done]. split; [by apply (H1 s)|]. split; [|congruence].
  by eapply NW_noWiring; [apply (H2 s)|].
Qed.

Lemma hoare_Ready {A} (m : M A) (P : state → Prop) :
  steps RInv m → steps (NW []) m → steps Flags m →
  (∀ s, P s → Ready s ∧ autoWired s = true) →
  hoare P m (λ _ s, Ready s ∧ autoWired s = true) (λ _, True).
Proof.
  intros H1 H2 H3 HP s Hs. destruct (HP s Hs) as [HR Haw].
  destruct (Ready_steps m s H1 H2 H3 HR) as [HR' Haw'].
  destruct (m s) as [[a|e|] s']; try done. simpl in *. split; [done|congruence].
Qed.

Lemma Quiet_Flags s s' : Quiet s s' → Flags s s'.
Proof. intros [A B C D M K T N X G]. by split. Qed.

Lemma flags_resolveBean n bd : steps Flags (resolveBean E n bd).
Proof. eapply steps_impl; [apply Quiet_Flags|apply quiet_resolveBean]. Qed.

Lemma flags_newDefaultBeanAssembly w : steps Flags (newDefaultBeanAssembly w).
Proof. unfold_ops. steps_auto. Qed.

Lemma nw_newDefaultBeanAssembly w : steps (NW []) (newDefaultBeanAssembly w).
Proof. unfold_ops. steps_auto. Qed.

(** The wiring loop. *)
Lemma wire_loop n s3 (order : list addr) :
  hoare (λ s, s = s3 ∧ Ready s3 ∧ autoWired s3 = true)
    (forM_ order (λ bd, wireBeanDefinition E n (IBean bd) false))
    (λ _ s, autoWired s = true
            ∧ (∀ k x, beanMap s !! k = Some x → beanMap s3 !! k = Some x)
            ∧ ∀ x, x ∈ order → hasStatus s beanStatus_Wired x)
    (λ _, True).
Proof.
  set (I := λ (done : list addr) (s : state),
              Inv s ∧ noWiring s ∧ autoWired s = true
              ∧ (∀ k x, beanMap s !! k = Some x → beanMap s3 !! k = Some x)
              ∧ ∀ x, x ∈ done → hasStatus s beanStatus_Wired x).
  assert (∀ done bd,
            hoare (I done) (wireBeanDefinition E n (IBean bd) false)
              (λ _, I (done ++ [bd])) (λ _, True)) as Hstep.
  { intros done bd s (HI & Hnw & Haw & Hm & Hw).
    destruct (wireBeanDefinition E n (IBean bd) false s) as [[[]|e|] s'] eqn:Hrun;
      try done.
    destruct (wire_top n bd s s' HI Hnw Hrun) as (HI' & Hnw' & HQ & Hbd & Hkeep).
    destruct HQ as [A _ _ _ _ K _ _ _ _].
    split; [done|]. split; [done|]. split; [congruence|]. split; [eauto|].
    intros x [Hx| ->%list_elem_of_singleton]%elem_of_app; [|done].
    by apply Hkeep, Hw. }
  eapply hoare_conseq;
    [apply (hoare_forM_done I order _ (λ _, True) Hstep [])| | |done].
  - intros s (-> & (HI & Hnw & _) & Haw). unfold I.
    split; [done|]. split; [done|]. split; [done|]. split; [done|].
    intros x Hx. by apply elem_of_nil in Hx.
  - intros ? s (_ & _ & Haw & Hm & Hw). done.
Qed.

End AutoWire.

Section AutoWireAll.

Context (E : Env).
Hypothesis Hvalid : mapRange_valid E.

Lemma hoare_recovering_Ok {A} (P : state → Prop) (m : M A) (h : error → M A) Q :
  hoare P m Q (λ _, True) →
  (∀ e s a s', h e s ≠ (Ok a, s')) →
  hoare P (recovering m h) Q (λ _, True).
Proof.
  intros Hm Hh s Hs. specialize (Hm s Hs). unfold recovering.
  destruct (m s) as [[a|e|] s1]; try done.
  destruct (h e s1) as [[a|e'|] s2] eqn:Heq; try done.
  by apply Hh in Heq.
Qed.

Lemma hoare_Ready_pre {A} (m : M A) :
  steps RInv m → steps (NW []) m → steps Flags m →
  hoare Ready m (λ _, Ready) (λ _, True).
Proof.
  intros H1 H2 H3 s Hs.
  destruct (Ready_steps m s H1 H2 H3 Hs) as [HR' _].
  by destruct (m s) as [[a|e|] s'].
Qed.

Definition Wiredup (s : state) : Prop := Ready s ∧ autoWired s = true.

Lemma hoare_Wiredup {A} (m : M A) :
  steps RInv m → steps (NW []) m → steps Flags m →
  hoare Wiredup m (λ _, Wiredup) (λ _, True).
Proof. intros H1 H2 H3. by apply hoare_Ready. Qed.

Lemma AutoWireBeans_body n :
  hoare Wiredup
    (order <- gets (autoWireOrder E) ;;
     forM_ order (λ bd, wireBeanDefinition E n (IBean bd) false) ;;
     eventNotify ContextEvent_AutoWireEnd)
    (λ _ s, autoWired s = true
            ∧ ∀ k x, beanMap s !! k = Some x → hasStatus s beanStatus_Wired x)
    (λ _, True).
Proof.
  apply hoare_pre. intros s3 [HR Haw].
  eapply hoare_bind
    with (R := λ order s, s = s3 ∧ order = (mapRange E (beanMap s3)).*2).
  { apply hoare_gets. intros s ->. split; [done|].
    unfold autoWireOrder. destruct HR as (_ & _ & ->). done. }
  intros order. apply hoare_pure_pre. intros ->.
  eapply hoare_bind
    with (R := λ _ s, autoWired s = true
                      ∧ ∀ k x, beanMap s !! k = Some x → hasStatus s beanStatus_Wired x).
  - eapply hoare_conseq; [apply (wire_loop E n s3)| | |done].
    + intros s ->. done.
    + intros ? s (Haw' & Hm & Hw). split; [done|].
      intros k x Hk. apply Hw. apply Hm in Hk.
      apply (elem_of_map_to_list (beanMap s3)) in Hk.
      rewrite <- (Hvalid (beanMap s3)) in Hk.
      apply list_elem_of_fmap. by exists (k, x).
  - intros ?. intros s [Haw' Hw]. rewrite eventNotify_eq. simpl. done.
Qed.

Lemma AutoWireBeans_Ok n w s :
  Ready s →
  hoare (λ s1, s1 = s) (AutoWireBeans E n w)
    (λ _ s', autoWired s' = true
             ∧ ∀ k x, beanMap s' !! k = Some x → hasStatus s' beanStatus_Wired x)
    (λ _, True).
Proof.
  intros HR. unfold AutoWireBeans.
  eapply hoare_bind with (R := λ _, Ready).
  { apply hoare_gets. by intros s1 ->. }
  intros [|]; [by apply hoare_panic|].
  eapply hoare_bind with (R := λ _, Ready); [by apply hoare_gets|].
  intros mbs.
  eapply hoare_bind with (R := λ _, Ready).
  { apply hoare_Ready_pre.
    - apply (steps_forM_ RInv). intros bd. apply rinv_finalizeMethodBean.
    - apply (steps_forM_ (NW [])). intros bd. apply nw_finalizeMethodBean.
    - apply (steps_forM_ Flags). intros bd. apply flags_finalizeMethodBean. }
  intros ?.
  eapply hoare_bind with (R := λ _, Wiredup).
  { apply hoare_modify. intros s1 (HI & Hnw & HS). split; [|done].
    split; [by apply (Inv_core s1)|]. split; [|done].
    intros x Hx. by apply (Hnw x). }
  intros ?.
  eapply hoare_bind with (R := λ _, Wiredup).
  { apply hoare_Wiredup;
      [apply (rinv_eventNotify E)|apply nw_eventNotify|apply flags_eventNotify]. }
  intros ?.
  eapply hoare_bind with (R := λ _, Wiredup); [by apply hoare_gets|].
  intros m.
  eapply hoare_bind with (R := λ _, Wiredup).
  { apply hoare_Wiredup.
    - apply (steps_forM_ RInv). intros kv. apply rinv_Gnr, resolveBean_Gnr.
    - apply (steps_forM_ (NW [])). intros kv. apply nw_resolveBean.
    - apply (steps_forM_ Flags). intros kv. apply flags_resolveBean. }
  intros ?.
  eapply hoare_bind with (R := λ _, Wiredup).
  { apply hoare_Wiredup;
      [apply (rinv_eventNotify E)|apply nw_eventNotify|apply flags_eventNotify]. }
  intros ?.
  eapply hoare_bind with (R := λ _, Wiredup).
  { apply hoare_Wiredup;
      [apply (rinv_newDefaultBeanAssembly E)|apply nw_newDefaultBeanAssembly
      |apply flags_newDefaultBeanAssembly]. }
  intros ?.
  eapply hoare_bind with (R := λ _, Wiredup).
  { apply hoare_Wiredup;
      [apply (rinv_eventNotify E)|apply nw_eventNotify|apply flags_eventNotify]. }
  intros ?.
  apply hoare_recovering_Ok; [apply AutoWireBeans_body|].
  intros e s1 a s2. unfold bind.
  destruct (wiringStack_path E s1) as [[p|e'|] s1']; done.
Qed.

End AutoWireAll.

(** X18: when [AutoWireBeans] returns (the wiring order not sorted),
    the context is wired for good and every bean that is still in the
    bean map is in status Wired. *)
Theorem AutoWireBeans_wires_every_bean (E : Env) n w s s' :
  mapRange_valid E →
  Inv s →
  (∀ x, ¬ hasStatus s beanStatus_Wiring x) →
  Sort s = false →
  AutoWireBeans E n w s = (Ok tt, s') →
  autoWired s' = true
  ∧ ∀ k x, beanMap s' !! k = Some x → hasStatus s' beanStatus_Wired x.
Proof.
  intros Hv HI Hnw HS Hrun.
  pose proof (AutoWireBeans_Ok E Hv n w s (conj HI (conj Hnw HS)) s eq_refl) as H.
  by rewrite Hrun in H.
Qed.

Lemma AutoWireBeans_wires_every_bean_witness :
  hasStatus Demo.wiredAB beanStatus_Wired 201.
Proof.
  destruct (AutoWireBeans Demo.env 20 0 Demo.registeredAB) as [o s'] eqn:Heq.
  assert (o = Ok tt) as ->.
  { apply (f_equal fst) in Heq. vm_compute in Heq. congruence. }
  assert (s' = Demo.wiredAB) as ->.
  { apply (f_equal snd) in Heq. symmetry. exact Heq. }
  destruct (AutoWireBeans_wires_every_bean Demo.env 20 0 Demo.registeredAB
              Demo.wiredAB) as [_ H].
  - intros m. reflexivity.
  - assert (Demo.registeredAB
            = call Demo.env (CallRegisterNameBean "" Demo.pB)
                (call Demo.env (CallRegisterNameBean "" Demo.pA) Demo.heap0)) as ->
      by (vm_compute; reflexivity).
    apply Inv_call, Inv_call, Inv_heap0.
  - intros x (d & Hd & Hst). apply elem_of_map_to_list in Hd.
    vm_compute in Hd.
    apply elem_of_cons in Hd as [[= -> ->]|Hd]; [discriminate Hst|].
    apply elem_of_cons in Hd as [[= -> ->]|Hd]; [discriminate Hst|].
    by apply elem_of_nil in Hd.
  - reflexivity.
  - exact Heq.
  - apply (H (TPtr Demo.B, "*B")). vm_compute. reflexivity.
Defined.

(** ** What the notification callback sees of [AutoWireBeans] *)

(** Steps that notify nobody. *)
Definition Silent (s s' : state) : Prop :=
  hasEventNotify s' = hasEventNotify s ∧ notifications s' = notifications s.

Global Instance Silent_Reflexive : Reflexive Silent.
Proof. intros s. by split. Qed.

Global Instance Silent_Transitive : Transitive Silent.
Proof. intros s1 s2 s3 [A1 B1] [A2 B2]. split; congruence. Qed.

Lemma Quiet_Silent s s' : Quiet s s' → Silent s s'.
Proof. intros [A B C D M K T N X G]. by split. Qed.

Lemma silent_modify f :
  (∀ s, hasEventNotify (f s) = hasEventNotify s ∧ trace (f s) = trace s) →
  steps Silent (modify f).
Proof.
  intros Hf s. destruct (Hf s) as [Hn Ht]. split; [done|].
  unfold notifications. simpl. by rewrite Ht.
Qed.

#[global] Hint Extern 1 (steps Silent (modify _)) =>
  (apply silent_modify; intros ?; split; reflexivity) : steps.

Lemma hoare_recovering {A} (P : state → Prop) (m : M A) (h : error → M A)
    Q (Qx Qx' : state → Prop) :
  hoare P m Q Qx' →
  (∀ s, Qx' s → Qx s) →
  (∀ e, hoare Qx' (h e) Q Qx) →
  hoare P (recovering m h) Q Qx.
Proof.
  intros Hm Hx Hh s Hs. specialize (Hm s Hs). unfold recovering.
  destruct (m s) as [[a|e|] s1]; [done| |by apply Hx].
  by apply Hh.
Qed.

Section Notifications.

Context (E : Env) (b : bool) (N : list ContextEvent).

(** The callback is installed or not, as [b] says, and has been sent
    the events [l] since the start. *)
Definition Sent (l : list ContextEvent) (s : state) : Prop :=
  hasEventNotify s = b ∧ notifications s = N ++ (if b then l else []).

Definition Failed (s : state) : Prop :=
  ∃ l, l `prefix_of` [ContextEvent_ResolveStart; ContextEvent_ResolveEnd;
                      ContextEvent_AutoWireStart]
       ∧ Sent l s.

Lemma sent_silent {A} (m : M A) l :
  steps Silent m → hoare (Sent l) m (λ _, Sent l) (Sent l).
Proof.
  intros Hm s [Hb HN]. destruct (Hm s) as [Hb' HN'].
  destruct (m s) as [[a|e|] s']; simpl in *; split; congruence.
Qed.

Lemma sent_eventNotify e l Qx :
  hoare (Sent l) (eventNotify e) (λ _, Sent (l ++ [e])) Qx.
Proof.
  unfold Sent. intros s [Hb HN].
  unfold eventNotify, bind, gets, when, emit, modify. rewrite Hb.
  destruct b; simpl.
  - split; [done|]. unfold notifications in *. simpl.
    rewrite omap_app, HN. simpl. by rewrite app_assoc.
  - by split.
Qed.

Lemma silent_finalizeMethodBean bd : steps Silent (finalizeMethodBean E bd).
Proof.
  unfold finalizeMethodBean, registerBeanDefinition, checkRegistration,
    newFunctionBean, newBD.
  unfold_ops. steps_auto.
Qed.

Lemma silent_wiringStack_path : steps Silent (wiringStack_path E).
Proof. unfold wiringStack_path. unfold_ops. steps_auto. Qed.

Lemma sent_phase {A} (m : M A) l :
  l `prefix_of` [ContextEvent_ResolveStart; ContextEvent_ResolveEnd;
                 ContextEvent_AutoWireStart] →
  steps Silent m → hoare (Sent l) m (λ _, Sent l) Failed.
Proof.
  intros Hl Hm. eapply hoare_conseq; [by apply sent_silent|done|done|].
  intros s Hs. by exists l.
Qed.

Lemma AutoWireBeans_Sent n w :
  hoare (Sent []) (AutoWireBeans E n w)
    (λ _, Sent [ContextEvent_ResolveStart; ContextEvent_ResolveEnd;
                ContextEvent_AutoWireStart; ContextEvent_AutoWireEnd])
    Failed.
Proof.
  assert (∀ l1 l2 : list ContextEvent, l1 `prefix_of` l1 ++ l2) as Hpre
    by (intros l1 l2; by apply prefix_app_r).
  unfold AutoWireBeans.
  eapply hoare_bind with (R := λ _, Sent []); [by apply hoare_gets|].
  intros [|].
  { apply hoare_panic. intros s Hs. exists []. split; [apply (Hpre [])|done]. }
  eapply hoare_bind with (R := λ _, Sent []); [by apply hoare_gets|].
  intros mbs.
  eapply hoare_bind with (R := λ _, Sent []).
  { apply sent_phase; [apply (Hpre [])|].
    apply (steps_forM_ Silent). intros bd. apply silent_finalizeMethodBean. }
  intros ?.
  eapply hoare_bind with (R := λ _, Sent []).
  { apply sent_phase; [apply (Hpre [])|]. auto with steps. }
  intros ?.
  eapply hoare_bind; [apply sent_eventNotify|]. intros ?. simpl.
  eapply hoare_bind with (R := λ _, Sent [ContextEvent_ResolveStart]);
    [by apply hoare_gets|].
  intros m.
  eapply hoare_bind with (R := λ _, Sent [ContextEvent_ResolveStart]).
  { apply sent_phase; [apply (Hpre [_] [_; _])|].
    apply (steps_forM_ Silent). intros kv.
    eapply steps_impl; [apply Quiet_Silent|apply quiet_resolveBean]. }
  intros ?.
  eapply hoare_bind; [apply sent_eventNotify|]. intros ?. simpl.
  eapply hoare_bind
    with (R := λ _, Sent [ContextEvent_ResolveStart; ContextEvent_ResolveEnd]).
  { apply sent_phase; [apply (Hpre [_; _] [_])|].
    eapply steps_impl; [apply Quiet_Silent|apply quiet_newDefaultBeanAssembly]. }
  intros ?.
  eapply hoare_bind; [apply sent_eventNotify|]. intros ?. simpl.
  apply hoare_recovering
    with (Qx' := Sent [ContextEvent_ResolveStart; ContextEvent_ResolveEnd;
                       ContextEvent_AutoWireStart]).
  - eapply hoare_bind
      with (R := λ _, Sent [ContextEvent_ResolveStart; ContextEvent_ResolveEnd;
                            ContextEvent_AutoWireStart]);
      [by apply hoare_gets|].
    intros order.
    eapply hoare_bind.
    { apply sent_silent. apply (steps_forM_ Silent). intros bd.
      eapply steps_impl; [apply Quiet_Silent|apply quiet_wireBeanDefinition]. }
    intros ?. apply sent_eventNotify.
  - intros s Hs. eexists. split; [|exact Hs]. done.
  - intros e.
    eapply hoare_bind.
    { apply sent_phase; [done|apply silent_wiringStack_path]. }
    intros path.
    eapply hoare_bind.
    { apply sent_phase; [done|].
      eapply steps_impl; [apply Quiet_Silent|by apply quiet_emit]. }
    intros ?. apply hoare_panic. intros s Hs. eexists. split; [|exact Hs]. done.
Qed.

End Notifications.

(** X19: a run of [AutoWireBeans] that returns has sent the
    notification callback, when one is installed, exactly the events
    ResolveStart, ResolveEnd, AutoWireStart, AutoWireEnd, in this
    order; a run that panics has sent a prefix of the first three, so
    that AutoWireEnd is never sent on failure. *)
Theorem AutoWireBeans_notifications (E : Env) n w s :
  (∀ s', AutoWireBeans E n w s = (Ok tt, s') →
         notifications s'
         = notifications s
           ++ (if hasEventNotify s
               then [ContextEvent_ResolveStart; ContextEvent_ResolveEnd;
                     ContextEvent_AutoWireStart; ContextEvent_AutoWireEnd]
               else []))
  ∧ (∀ e s', AutoWireBeans E n w s = (Panic e, s') →
             ∃ l, l `prefix_of` [ContextEvent_ResolveStart; ContextEvent_ResolveEnd;
                                 ContextEvent_AutoWireStart]
                  ∧ notifications s' = notifications s ++ l).
Proof.
  pose proof (AutoWireBeans_Sent E (hasEventNotify s) (notifications s) n w s) as H.
  assert (Sent (hasEventNotify s) (notifications s) [] s) as Hs.
  { split; [done|]. destruct (hasEventNotify s); by rewrite app_nil_r. }
  specialize (H Hs). split.
  - intros s' Hrun. rewrite Hrun in H. by destruct H as [_ H].
  - intros e s' Hrun. rewrite Hrun in H. destruct H as (l & Hl & _ & H).
    destruct (hasEventNotify s).
    + by exists l.
    + exists []. split; [apply prefix_nil|done].
Qed.

Lemma AutoWireBeans_notifications_witness :
  notifications
    (AutoWireBeans Demo.env 20 0 (set_hasEventNotify true Demo.registeredAB)).2
  = [ContextEvent_ResolveStart; ContextEvent_ResolveEnd;
     ContextEvent_AutoWireStart; ContextEvent_AutoWireEnd].
Proof.
  destruct (AutoWireBeans_notifications Demo.env 20 0
              (set_hasEventNotify true Demo.registeredAB)) as [H _].
  destruct (AutoWireBeans Demo.env 20 0 (set_hasEventNotify true Demo.registeredAB))
    as [o s'] eqn:Heq.
  assert (o = Ok tt) as ->.
  { apply (f_equal fst) in Heq. vm_compute in Heq. congruence. }
  simpl. exact (H s' eq_refl).
Defined.

(** ** A context is wired once *)

Lemma AutoWireBeans_sets_the_flag (E : Env) n w :
  hoare (λ _, True) (AutoWireBeans E n w) (λ _ s, autoWired s = true) (λ _, True).
Proof.
  assert (∀ A (m : M A), steps Flags m →
            hoare (λ s, autoWired s = true) m (λ _ s, autoWired s = true) (λ _, True))
    as Hkeep.
  { intros A m Hm s Hs. destruct (Hm s) as [_ Haw].
    destruct (m s) as [[a|e|] s']; try done. simpl in Haw. congruence. }
  unfold AutoWireBeans.
  eapply hoare_bind with (R := λ _ _, True); [by apply hoare_gets|].
  intros [|]; [by apply hoare_panic|].
  eapply hoare_bind with (R := λ _ _, True); [by apply hoare_gets|].
  intros mbs.
  eapply hoare_bind with (R := λ _ _, True).
  { intros s _. by destruct (forM_ mbs (finalizeMethodBean E) s) as [[a|e|] s']. }
  intros ?.
  eapply hoare_bind with (R := λ _ s, autoWired s = true); [by apply hoare_modify|].
  intros ?.
  eapply hoare_bind; [apply Hkeep, flags_eventNotify|]. intros ?.
  eapply hoare_bind with (R := λ _ s, autoWired s = true); [by apply hoare_gets|].
  intros m.
  eapply hoare_bind.
  { apply Hkeep, (steps_forM_ Flags). intros kv. apply flags_resolveBean. }
  intros ?.
  eapply hoare_bind; [apply Hkeep, flags_eventNotify|]. intros ?.
  eapply hoare_bind; [apply Hkeep, flags_newDefaultBeanAssembly|]. intros ?.
  eapply hoare_bind; [apply Hkeep, flags_eventNotify|]. intros ?.
  apply hoare_recovering_Ok.
  - eapply hoare_bind with (R := λ _ s, autoWired s = true); [by apply hoare_gets|].
    intros order.
    eapply hoare_bind.
    { apply Hkeep, (steps_forM_ Flags). intros bd.
      eapply steps_impl; [apply Quiet_Flags|apply quiet_wireBeanDefinition]. }
    intros ?. apply Hkeep, flags_eventNotify.
  - intros e s1 a s2. unfold bind.
    destruct (wiringStack_path E s1) as [[p|e'|] s1']; done.
Qed.

(** X20: a context is wired once: after a call of [AutoWireBeans] has
    returned, every further call panics with the already-wired error
    and changes nothing. *)
Theorem AutoWireBeans_only_once (E : Env) n w n' w' s s' :
  AutoWireBeans E n w s = (Ok tt, s') →
  AutoWireBeans E n' w' s' = (Panic AlreadyWiredError, s').
Proof.
  intros Hrun. pose proof (AutoWireBeans_sets_the_flag E n w s I) as H.
  rewrite Hrun in H. unfold AutoWireBeans, bind, gets. by rewrite H.
Qed.

Lemma AutoWireBeans_only_once_witness :
  AutoWireBeans Demo.env 5 1 Demo.wiredAB = (Panic AlreadyWiredError, Demo.wiredAB).
Proof.
  destruct (AutoWireBeans Demo.env 20 0 Demo.registeredAB) as [o s'] eqn:Heq.
  assert (o = Ok tt) as ->.
  { apply (f_equal fst) in Heq. vm_compute in Heq. congruence. }
  assert (s' = Demo.wiredAB) as ->.
  { apply (f_equal snd) in Heq. symmetry. exact Heq. }
  exact (AutoWireBeans_only_once Demo.env 20 0 5 1 _ _ Heq).
Defined.

(** ** [FindBean] on a context whose beans are all wired *)

Section FindBeanQuery.

Context (E : Env).
Hypothesis Hvalid : mapRange_valid E.

(** The beans of the bean map that pass the test [fn], in the order of
    the range. *)
Definition matchesOf (fn : BeanDefinition → bool) (s : state) : list addr :=
  omap (λ kb : beanKey * addr,
          match beans s !! kb.2 with
          | Some d => if fn d then Some kb.2 else None
          | None => None
          end) (mapRange E (beanMap s)).

(** The test that [FindBean] runs for a selector. *)
Definition matcher (sel : Selector) (s : state) : option (BeanDefinition → bool) :=
  match sel with
  | SelString o =>
      Some (λ b, Match E b (ParseBeanId E o).1.1 (ParseBeanId E o).1.2)
  | _ =>
      match (selectorType sel s).1 with
      | Ok t => Some (λ b, match springBean_Type (bean b) with
                           | Some bt => AssignableTo E bt t
                           | None => false
                           end)
      | _ => None
      end
  end.

(** What [FindBean] answers when the beans [l] pass the test. *)
Definition answer (sel : Selector) (s : state) (l : list addr)
    : outcome (option addr) :=
  match l with
  | [] => Ok None
  | [b] => Ok (Some b)
  | _ => Panic (FindAmbiguousError sel
                  (omap (λ b, Description E <$> beans s !! b) l))
  end.

Definition allWired (s : state) : Prop :=
  ∀ k x, beanMap s !! k = Some x → hasStatus s beanStatus_Wired x.

Lemma selectorType_pure sel s : (selectorType sel s).2 = s.
Proof.
  destruct sel as [| | |t]; try done.
  destruct t as [| | | |t| |]; try done. by destruct t.
Qed.

Lemma matchesOf_elem fn s b :
  b ∈ matchesOf fn s
  ↔ ∃ k d, beanMap s !! k = Some b ∧ beans s !! b = Some d ∧ fn d = true.
Proof.
  unfold matchesOf. rewrite list_elem_of_omap. split.
  - intros ([k x] & Hin & Hx). simpl in Hx.
    destruct (beans s !! x) as [d|] eqn:Hd; [|done].
    destruct (fn d) eqn:Hfn; [|done]. injection Hx as ->.
    exists k, d. split; [|done].
    rewrite (Hvalid (beanMap s)) in Hin. by apply elem_of_map_to_list in Hin.
  - intros (k & d & Hk & Hd & Hfn). exists (k, b). split.
    + rewrite (Hvalid (beanMap s)). by apply elem_of_map_to_list.
    + simpl. by rewrite Hd, Hfn.
Qed.

Lemma finder_wired_loop n (fn : BeanDefinition → bool) s
    (l : list (beanKey * addr)) result :
  (∀ kb, kb ∈ l → hasStatus s beanStatus_Wired kb.2) →
  foldM (λ (result : list addr) (kb : beanKey * addr),
    let b : addr := kb.2 in
    d <- getBD b ;;
    if fn d then
      if decide (status d = beanStatus_Resolving) then ret result
      else
        resolveBean E (S n) b ;;
        d' <- getBD b ;;
        if decide (status d' ≠ beanStatus_Deleted)
        then ret (result ++ [b]) else ret result
    else ret result) result l s
  = (Ok (result
         ++ omap (λ kb : beanKey * addr,
                    match beans s !! kb.2 with
                    | Some d => if fn d then Some kb.2 else None
                    | None => None
                    end) l), s).
Proof.
  revert result. induction l as [|kb l IH]; intros result Hl.
  - simpl. by rewrite app_nil_r.
  - destruct (Hl kb) as (d & Hd & Hst); [by left|].
    assert (∀ kb', kb' ∈ l → hasStatus s beanStatus_Wired kb'.2) as Hl'
      by (intros kb' Hin; apply Hl; by right).
    cbn [foldM omap list_omap]. rewrite Hd. cbn zeta.
    match goal with
    | |- bind ?m _ _ = _ =>
        assert (m s = (Ok (result ++ (if fn d then [kb.2] else [])), s)) as Hstep
    end.
    { rewrite (bind_Ok _ _ _ _ _ (getBD_Some _ _ _ Hd)).
      destruct (fn d); [|by rewrite app_nil_r].
      destruct (decide (status d = beanStatus_Resolving)) as [Hr|_];
        [by rewrite Hst in Hr|].
      assert (resolveBean E (S n) kb.2 s = (Ok tt, s)) as Hres.
      { apply (resolveBean_noop E n kb.2 s d Hd). by rewrite Hst. }
      rewrite (bind_Ok _ _ _ _ _ Hres), (bind_Ok _ _ _ _ _ (getBD_Some _ _ _ Hd)).
      destruct (decide (status d ≠ beanStatus_Deleted)) as [_|Hdel]; [done|].
      exfalso. apply Hdel. by rewrite Hst. }
    rewrite (bind_Ok _ _ _ _ _ Hstep), (IH _ Hl').
    destruct (fn d); by rewrite <- app_assoc.
Qed.

Lemma finder_wired n fn s :
  allWired s → finder E (S n) fn s = (Ok (matchesOf fn s), s).
Proof.
  intros Hw. unfold finder. rewrite bind_gets.
  rewrite (finder_wired_loop n fn s _ []); [done|].
  intros [k x] Hin. apply (Hw k).
  rewrite (Hvalid (beanMap s)) in Hin. by apply elem_of_map_to_list in Hin.
Qed.

Lemma FindBean_wired n sel fn s :
  autoWired s = true → allWired s →
  matcher sel s = Some fn →
  FindBean E (S n) sel s = (answer sel s (matchesOf fn s), s).
Proof.
  intros Haw Hw Hm. unfold FindBean.
  assert (checkAutoWired s = (Ok tt, s)) as Hc.
  { unfold checkAutoWired. by rewrite bind_gets, Haw. }
  rewrite (bind_Ok _ _ _ _ _ Hc).
  assert (∀ (m : M (list addr)),
            m s = (Ok (matchesOf fn s), s) →
            bind m (λ result,
              match result with
              | [] => ret None
              | [b] => ret (Some b)
              | _ => s0 <- gets id ;;
                     panic (FindAmbiguousError sel
                              (omap (λ b, Description E <$> beans s0 !! b) result))
              end) s
            = (answer sel s (matchesOf fn s), s)) as Hend.
  { intros m Hrun. rewrite (bind_Ok _ _ _ _ _ Hrun).
    by destruct (matchesOf fn s) as [|b [|b' l]]. }
  destruct sel as [|o|x|t].
  - simpl in Hm. done.
  - unfold matcher in Hm. apply (inj Some) in Hm. subst fn. apply Hend.
    destruct (ParseBeanId E o) as [[tn bn] nullable].
    by apply finder_wired.
  - unfold matcher in Hm. apply (inj Some) in Hm. subst fn. apply Hend.
    unfold selectorType. rewrite bind_ret. by apply finder_wired.
  - unfold matcher in Hm. apply Hend.
    pose proof (selectorType_pure (SelType t) s) as Hp.
    destruct (selectorType (SelType t) s) as [[t'| |] s1] eqn:Hsel; try done.
    cbn [fst snd] in Hp, Hm. subst s1. apply (inj Some) in Hm. subst fn.
    rewrite (bind_Ok _ _ _ _ _ Hsel). by apply finder_wired.
Qed.

End FindBeanQuery.

(** X21: on a wired context in which every bean of the bean map is in
    status Wired, [FindBean] is a query: it changes nothing; it returns
    no bean when no bean of the bean map passes the test of the
    selector, the bean when exactly one does, and panics with the
    descriptions of all of them when more than one does. *)
Theorem FindBean_on_wired_beans_is_a_query (E : Env) n sel fn s :
  mapRange_valid E →
  autoWired s = true →
  allWired s →
  matcher E sel s = Some fn →
  FindBean E (S n) sel s = (answer E sel s (matchesOf E fn s), s)
  ∧ ∀ b, b ∈ matchesOf E fn s
         ↔ ∃ k d, beanMap s !! k = Some b ∧ beans s !! b = Some d ∧ fn d = true.
Proof.
  intros Hv Haw Hw Hm. split.
  - by apply FindBean_wired.
  - intros b. by apply matchesOf_elem.
Qed.

Lemma FindBean_on_wired_beans_is_a_query_witness :
  FindBean Demo.env 1 (SelType (TPtr Demo.A)) Demo.wiredAB
  = (Ok (Some 200), Demo.wiredAB).
Proof.
  destruct (FindBean_on_wired_beans_is_a_query Demo.env 0 (SelType (TPtr Demo.A))
              (λ b, match springBean_Type (bean b) with
                    | Some bt => AssignableTo Demo.env bt (TPtr Demo.A)
                    | None => false
                    end) Demo.wiredAB) as [H _].
  - intros m. reflexivity.
  - reflexivity.
  - intros k x Hk. apply elem_of_map_to_list in Hk. vm_compute in Hk.
    apply elem_of_cons in Hk as [[= -> ->]|Hk];
      [eexists; split; [vm_compute; reflexivity|reflexivity]|].
    apply elem_of_cons in Hk as [[= -> ->]|Hk];
      [eexists; split; [vm_compute; reflexivity|reflexivity]|].
    by apply elem_of_nil in Hk.
  - reflexivity.
  - rewrite H. reflexivity.
Defined.
